(** * GlycoGenius, General_Functions: a shallow embedding and its properties

    The development follows [glycogenius/Modules/General_Functions.py]:
    composition strings and dictionaries ([form_to_comp], [comp_to_formula],
    [glycan_to_atoms]), adduct combinations ([gen_adducts_combo]), isotopic
    envelopes ([calculate_isotopic_pattern]), the tag search
    ([calculate_comp_from_mass]) and the spectral statistics
    ([linear_regression], [rt_noise_level_parameters_set]).

    Conventions.
    - A Python [dict] is an association list in insertion order, with at
      most one entry per key; [d[k] = v] overwrites in place or appends.
    - Python exceptions are the [Raise] results of a small error monad.
    - [int] and [str] convert numerals of at most 4300 digits, CPython's
      default limit, and raise [ValueError] beyond.
    - Masses and abundances of the composition side are exact rationals
      ([Q]); the spectral statistics run on binary64 floats ([PrimFloat]).
    - Calls into pyteomics ([mass.calculate_mass], [mass.isotopologues])
      are parameters of the functions that use them; in
      [calculate_isotopic_pattern] they may raise. *)

From Stdlib Require Import List String Ascii Bool Arith ZArith Lia.
From Stdlib Require Import DecimalString DecimalZ.
From Stdlib Require DecimalPos DecimalFacts.
From Stdlib Require Import QArith Qabs Lqa.
From Stdlib Require Import Permutation.
From Stdlib Require Floats.PrimFloat.
Import ListNotations.

Local Open Scope string_scope.
Local Open Scope list_scope.
Local Open Scope Z_scope.

(** ** Exceptions *)

Inductive exn : Type :=
| ValueError
| KeyError
| ZeroDivisionError
| IndexError
| NameError
| PyteomicsError.

Inductive pyres (A : Type) : Type :=
| Ret (a : A)
| Raise (e : exn).

Arguments Ret {A} a.
Arguments Raise {A} e.

Definition bind {A B : Type} (m : pyres A) (k : A -> pyres B) : pyres B :=
  match m with
  | Ret a => k a
  | Raise e => Raise e
  end.

Notation "x <- m ;; k" := (bind m (fun x => k))
  (at level 61, m at next level, right associativity).

(** ** Dictionaries *)

Definition dict (V : Type) : Type := list (string * V).

Section Dict.
Context {V : Type}.

Fixpoint dict_get (k : string) (d : dict V) : option V :=
  match d with
  | [] => None
  | (k', v) :: d' => if String.eqb k' k then Some v else dict_get k d'
  end.

(** [d[k]] as an expression. *)
Definition dict_item (d : dict V) (k : string) : pyres V :=
  match dict_get k d with
  | Some v => Ret v
  | None => Raise KeyError
  end.

Definition dict_mem (k : string) (d : dict V) : bool :=
  match dict_get k d with
  | Some _ => true
  | None => false
  end.

(** [d[k] = v]. *)
Fixpoint dict_set (k : string) (v : V) (d : dict V) : dict V :=
  match d with
  | [] => [(k, v)]
  | (k', v') :: d' =>
      if String.eqb k' k then (k', v) :: d' else (k', v') :: dict_set k v d'
  end.

(** [del d[k]], for a key that is present. *)
Fixpoint dict_del (k : string) (d : dict V) : dict V :=
  match d with
  | [] => []
  | (k', v') :: d' =>
      if String.eqb k' k then d' else (k', v') :: dict_del k d'
  end.

Definition dict_keys (d : dict V) : list string := map fst d.

End Dict.

(** [d1 == d2] on dictionaries of integers: the same keys with the same
    values, whatever the order. *)
Definition opt_eqb (a b : option Z) : bool :=
  match a, b with
  | Some x, Some y => Z.eqb x y
  | None, None => true
  | _, _ => false
  end.

Definition dict_eqb (d1 d2 : dict Z) : bool :=
  forallb (fun k => opt_eqb (dict_get k d1) (dict_get k d2))
          (dict_keys d1 ++ dict_keys d2).

(** ** Strings and integers *)

Definition is_digit (c : ascii) : bool :=
  match c with
  | "0" | "1" | "2" | "3" | "4" | "5" | "6" | "7" | "8" | "9" => true
  | _ => false
  end%char.

(** [s[-1]], for a non-empty [s]. *)
Fixpoint str_last (s : string) : option ascii :=
  match s with
  | EmptyString => None
  | String c EmptyString => Some c
  | String _ s' => str_last s'
  end.

(** [s[:-1]]. *)
Fixpoint str_init (s : string) : string :=
  match s with
  | EmptyString => EmptyString
  | String _ EmptyString => EmptyString
  | String c s' => String c (str_init s')
  end.

Definition ends_with_minus (s : string) : bool :=
  match str_last s with
  | Some c => Ascii.eqb c "-"
  | None => false
  end.

(** [sys.get_int_max_str_digits()]: the number of digits beyond which
    CPython refuses to convert between [int] and [str]. *)
Definition int_max_str_digits : Z := 4300.

(** The number of digit characters of a string. *)
Fixpoint digit_count (s : string) : Z :=
  match s with
  | EmptyString => 0
  | String c s' => (if is_digit c then 1 else 0) + digit_count s'
  end.

(** [int(s)] on an optional minus sign followed by decimal digits;
    anything else is a [ValueError], and so is a numeral of more than
    [int_max_str_digits] digits, leading zeros included. *)
Definition py_int (s : string) : pyres Z :=
  match NilZero.int_of_string s with
  | Some d =>
      if int_max_str_digits <? digit_count s then Raise ValueError
      else Ret (Z.of_int d)
  | None => Raise ValueError
  end.

(** The decimal numeral of an integer. *)
Definition numeral (n : Z) : string := NilZero.string_of_int (Z.to_int n).

(** [str(n)] for an integer: its numeral, or a [ValueError] when that has
    more than [int_max_str_digits] digits. *)
Definition py_str (n : Z) : pyres string :=
  if int_max_str_digits <? digit_count (numeral n) then Raise ValueError
  else Ret (numeral n).

(** [re.split('(\d+)', s)]: the text between the maximal runs of digits
    and, because of the capturing group, the runs themselves; the list
    alternates text, digits, text, ... and both ends are text (possibly
    empty). *)
Fixpoint re_split_digits (s : string) : list string :=
  match s with
  | EmptyString => [""]
  | String c s' =>
      match re_split_digits s' with
      | t :: rest =>
          if is_digit c then
            match t, rest with
            | EmptyString, d :: rest' => "" :: String c d :: rest'
            | _, _ => "" :: String c "" :: t :: rest
            end
          else String c t :: rest
      | [] => [String c ""]
      end
  end.

(** ** CompositionAlgebra *)

Module CompositionAlgebra.

(** First loop of [form_to_comp]: [i_i] is the index of the head of
    [split_str], [negative] the flag. The loop variable [i] is the token
    as the list held it when the iteration started. *)
Fixpoint mark_negative (i_i : nat) (negative : bool) (split_str : list string)
  : list string :=
  match split_str with
  | [] => []
  | i :: rest =>
      let strip := negb (String.eqb i "") && ends_with_minus i in
      let tok := if strip then str_init i else i in
      let negative := negative || strip in
      let tok :=
        if Nat.odd i_i && negb (String.eqb i "") && negative
        then ("-" ++ i)%string else tok in
      tok :: mark_negative (S i_i) negative rest
  end.

(** Second loop: [counts[split_str[i]] = int(split_str[i+1])] for the
    even [i] below [len(split_str) - 1]. *)
Fixpoint fill_counts (split_str : list string) (counts : dict Z)
  : pyres (dict Z) :=
  match split_str with
  | k :: v :: rest =>
      n <- py_int v ;;
      fill_counts rest (dict_set k n counts)
  | _ => Ret counts
  end.

Definition form_to_comp (s : string) : pyres (dict Z) :=
  let split_str := re_split_digits s in
  let split_str := mark_negative 0 false split_str in
  let split_str :=
    if Nat.odd (List.length split_str) then split_str ++ ["1"]
    else split_str in
  counts <- fill_counts split_str [] ;;
  Ret (if dict_mem "" counts then dict_del "" counts else counts).

Definition form_to_charge (s : string) : pyres Z :=
  comp <- form_to_comp s ;;
  Ret (fold_left
         (fun charge '(i, n) =>
            if negb (String.eqb i "") then charge + n else charge)
         comp 0).

(** The loop of [comp_to_formula], [formula] being the string so far. *)
Fixpoint comp_to_formula_loop (composition : dict Z) (formula : string)
  : pyres string :=
  match composition with
  | [] => Ret formula
  | (i, n) :: rest =>
      if negb (Z.eqb n 0) then
        digits <- py_str n ;;
        comp_to_formula_loop rest (formula ++ i ++ digits)%string
      else comp_to_formula_loop rest formula
  end.

Definition comp_to_formula (composition : dict Z) : pyres string :=
  comp_to_formula_loop composition "".

(** *** The monosaccharide table and [glycan_to_atoms] *)

Definition mono_entry : Type := (string * string * dict Z)%type.
Definition mono_table : Type := dict mono_entry.

Definition atoms_of (C O N H : Z) : dict Z :=
  [("C", C); ("O", O); ("N", N); ("H", H)].

Definition monosaccharides : mono_table :=
  [ ("H", ("Hexose", "C6O6H12", atoms_of 6 5 0 10));
    ("N", ("N-Acetyl Hexosamine", "C8O6NH15", atoms_of 8 5 1 13));
    ("S", ("Acetyl Neuraminic Acid", "C11O9NH19", atoms_of 11 8 1 17));
    ("lS", ("Lactonized Acetyl Neuraminic Acid alpha2,3 bound",
            "C11O8N2H20", atoms_of 11 7 2 18));
    ("eS", ("Ethyl-Esterified Acetyl Neuraminic Acid alpha2,6 bound",
            "C13O9NH23", atoms_of 13 8 1 21));
    ("F", ("Fucose", "C6O5H12", atoms_of 6 4 0 10));
    ("G", ("Glycolyl Neuraminic Acid", "C11O10NH19", atoms_of 11 9 1 17)) ].

(** [d[k] += n]. *)
Definition dict_iadd (d : dict Z) (k : string) (n : Z) : pyres (dict Z) :=
  v <- dict_item d k ;;
  Ret (dict_set k (v + n) d).

(** [monosaccharides[i][2]['C'] += c] then [... ['H'] += h], on the entry
    of [i]. *)
Definition methylate (c h : Z) (e : mono_entry) : pyres mono_entry :=
  let '(name, formula, atoms) := e in
  atoms <- dict_iadd atoms "C" c ;;
  atoms <- dict_iadd atoms "H" h ;;
  Ret (name, formula, atoms).

(** One round of the loop [for i in monosaccharides] of the permethylated
    branch: the four tests on the key [i], each mutating the entry of [i]
    in place. *)
Definition permethylate_entry (ie : string * mono_entry)
  : pyres (string * mono_entry) :=
  let '(i, e) := ie in
  e <- (if String.eqb i "H" then methylate 3 6 e else Ret e) ;;
  e <- (if String.eqb i "N" then methylate 3 6 e else Ret e) ;;
  e <- (if String.eqb i "F" then methylate 2 4 e else Ret e) ;;
  e <- (if String.eqb i "S" || String.eqb i "G"
        then methylate 5 10 e else Ret e) ;;
  Ret (i, e).

Fixpoint permethylate (t : mono_table) : pyres mono_table :=
  match t with
  | [] => Ret []
  | ie :: t' =>
      ie' <- permethylate_entry ie ;;
      t'' <- permethylate t' ;;
      Ret (ie' :: t'')
  end.

(** [for j in atoms: atoms[j] += monosaccharides[i][2][j] * n], where [n]
    is [glycan_composition[i]]. *)
Fixpoint add_residue (t : mono_table) (i : string) (n : Z)
  (js : list string) (atoms : dict Z) : pyres (dict Z) :=
  match js with
  | [] => Ret atoms
  | j :: js' =>
      e <- dict_item t i ;;
      m <- dict_item (snd e) j ;;
      atoms <- dict_iadd atoms j (m * n) ;;
      add_residue t i n js' atoms
  end.

(** [for i in glycan_composition], over the keys still to visit. *)
Fixpoint sum_residues (t : mono_table) (glycan_composition : dict Z)
  (keys : list string) (atoms : dict Z) : pyres (dict Z) :=
  match keys with
  | [] => Ret atoms
  | i :: keys' =>
      if String.eqb i "T" then
        sum_residues t glycan_composition keys' atoms
      else
        n <- dict_item glycan_composition i ;;
        atoms <- add_residue t i n (dict_keys atoms) atoms ;;
        sum_residues t glycan_composition keys' atoms
  end.

(** The module-level table is the state: [glycan_to_atoms] takes the table
    as it stands and returns the atoms with the table it leaves. A raised
    exception ends the run; the table it leaves is not modelled. *)
Definition glycan_to_atoms (monosaccharides : mono_table)
  (glycan_composition : dict Z) (permethylated : bool)
  : pyres (dict Z * mono_table) :=
  let atoms := atoms_of 0 0 0 0 in
  monosaccharides <-
    (if permethylated then permethylate monosaccharides
     else Ret monosaccharides) ;;
  atoms <- sum_residues monosaccharides glycan_composition
             (dict_keys glycan_composition) atoms ;;
  Ret (atoms, monosaccharides).

(** *** [count_seq_letters] *)

Fixpoint str_count (c : ascii) (s : string) : Z :=
  match s with
  | EmptyString => 0
  | String c' s' => (if Ascii.eqb c' c then 1 else 0) + str_count c s'
  end.

Fixpoint count_seq_loop (whole : string) (current_letter : option ascii)
  (rest : string) (friendly_letters : dict Z) : dict Z :=
  match rest with
  | EmptyString => friendly_letters
  | String i rest' =>
      if match current_letter with
         | Some c => Ascii.eqb i c
         | None => false
         end
      then count_seq_loop whole current_letter rest' friendly_letters
      else
        let count := str_count i whole in
        let fl := friendly_letters in
        let fl := if Ascii.eqb i "L" then dict_set "lS" count fl else fl in
        let fl :=
          if Ascii.eqb i "E" then dict_set "eS" count fl
          else if negb (Ascii.eqb i "L") && negb (Ascii.eqb i "E")
               then dict_set (String i "") count fl
               else fl in
        count_seq_loop whole (Some i) rest' fl
  end.

Definition count_seq_letters (s : string) : dict Z :=
  count_seq_loop s None s [].

End CompositionAlgebra.

(** ** [itertools.combinations_with_replacement] *)

(** The [r]-element selections from [l] in non-decreasing position order,
    listed lexicographically by position. *)
Fixpoint combinations_with_replacement {A : Type} (r : nat) (l : list A)
  : list (list A) :=
  match r with
  | O => [[]]
  | S r' =>
      (fix from (l : list A) : list (list A) :=
         match l with
         | [] => []
         | x :: l' =>
             map (cons x) (combinations_with_replacement r' l) ++ from l'
         end) l
  end.

(** ** AdductCombinationGenerator *)

Module Adducts.

(** The body of [for j in i] building [temp_dict]. *)
Definition count_adduct (max_charge : Z) (temp_dict : dict Z) (j : string)
  : dict Z :=
  match dict_get j temp_dict with
  | None =>
      if 0 <? max_charge then dict_set j 1 temp_dict
      else dict_set j (-1) temp_dict
  | Some n =>
      if 0 <? max_charge then dict_set j (n + 1) temp_dict
      else dict_set j (n - 1) temp_dict
  end.

Definition combo_to_dict (max_charge : Z) (i : list string) : dict Z :=
  fold_left (count_adduct max_charge) i [].

(** [for j in i: if abs(i[j]) > abs(adducts[j]): ...; break]: whether the
    loop reaches the [break]. *)
Fixpoint exceeds_maximum (adducts i : dict Z) (js : list string)
  : pyres bool :=
  match js with
  | [] => Ret false
  | j :: js' =>
      n <- dict_item i j ;;
      m <- dict_item adducts j ;;
      if Z.abs m <? Z.abs n then Ret true
      else exceeds_maximum adducts i js'
  end.

(** [i in exclusions]. *)
Definition excluded (exclusions : list (dict Z)) (i : dict Z) : bool :=
  existsb (fun e => dict_eqb e i) exclusions.

(** The loop that fills [to_remove]; an element is listed once for a
    maximum it exceeds and once more when it is excluded. *)
Fixpoint collect_to_remove (adducts : dict Z) (exclusions : list (dict Z))
  (adducts_combo_dict : list (dict Z)) : pyres (list (dict Z)) :=
  match adducts_combo_dict with
  | [] => Ret []
  | i :: rest =>
      over <- exceeds_maximum adducts i (dict_keys i) ;;
      to_remove <- collect_to_remove adducts exclusions rest ;;
      Ret ((if over then [i] else [])
           ++ (if excluded exclusions i then [i] else [])
           ++ to_remove)
  end.

(** [l.remove(x)]: drops the first element equal to [x]; a [ValueError]
    when there is none. *)
Fixpoint list_remove (x : dict Z) (l : list (dict Z))
  : pyres (list (dict Z)) :=
  match l with
  | [] => Raise ValueError
  | y :: l' =>
      if dict_eqb y x then Ret l'
      else l'' <- list_remove x l' ;; Ret (y :: l'')
  end.

Fixpoint remove_all (to_remove l : list (dict Z)) : pyres (list (dict Z)) :=
  match to_remove with
  | [] => Ret l
  | i :: to_remove' =>
      l' <- list_remove i l ;;
      remove_all to_remove' l'
  end.

Definition gen_adducts_combo (adducts : dict Z) (exclusions : list (dict Z))
  (max_charge : Z) : pyres (list (dict Z)) :=
  let adducts_list := dict_keys adducts in
  let adducts_combo :=
    flat_map (fun i => combinations_with_replacement i adducts_list)
             (seq 1 (Z.to_nat (Z.abs max_charge))) in
  let adducts_combo_dict := map (combo_to_dict max_charge) adducts_combo in
  to_remove <- collect_to_remove adducts exclusions adducts_combo_dict ;;
  remove_all to_remove adducts_combo_dict.

End Adducts.

(** ** IsotopicEnvelopeCalculator *)

Module Isotopes.

Local Open Scope Q_scope.

Record peak : Type := { mz : Q; Ab : Q }.

Definition Qlt_bool (a b : Q) : bool := negb (Qle_bool b a).

(** [sorted(l, key=lambda x: x['mz'])]: a stable sort on the mass. *)
Fixpoint insert_by_mz (p : peak) (l : list peak) : list peak :=
  match l with
  | [] => [p]
  | q :: l' =>
      if Qle_bool (mz p) (mz q) then p :: q :: l'
      else q :: insert_by_mz p l'
  end.

Fixpoint sorted_by_mz (l : list peak) : list peak :=
  match l with
  | [] => []
  | p :: l' => insert_by_mz p (sorted_by_mz l')
  end.

(** The loop that fills [relative_isotop_pattern] and
    [relative_isotop_mass]; [first_Ab] is [isotop_arranged[0]['Ab']]. *)
Fixpoint relative_lists (first_Ab : Q) (isotop_arranged : list peak)
  : pyres (list Q * list Q) :=
  match isotop_arranged with
  | [] => Ret ([], [])
  | i :: rest =>
      if Qeq_bool first_Ab 0 then Raise ZeroDivisionError
      else
        r <- relative_lists first_Ab rest ;;
        Ret (Ab i / first_Ab :: fst r, mz i :: snd r)
  end.

(** [l[-1] = f(l[-1])] on a non-empty list. *)
Fixpoint update_last (f : Q -> Q) (l : list Q) : list Q :=
  match l with
  | [] => []
  | [x] => [f x]
  | x :: l' => x :: update_last f l'
  end.

Section Clump.
Variable h_mass : Q.
Variables relative_isotop_pattern relative_isotop_mass : list Q.

(** One round of the clumping loop, at index [i_i]; the pair is
    [(relative_isotop_pattern_low_res, relative_isotop_mass_low_res)].
    The indices read are within the lists, and the low-resolution lists
    are non-empty once index 0 has been visited. *)
Definition clump_step (low_res : list Q * list Q) (i_i : nat)
  : list Q * list Q :=
  let '(pattern_low_res, mass_low_res) := low_res in
  let i := nth i_i relative_isotop_mass 0 in
  if Nat.eqb i_i 0 then
    (pattern_low_res ++ [nth i_i relative_isotop_pattern 0],
     mass_low_res ++ [i])
  else if Qlt_bool (Qabs (i - nth (i_i - 1) relative_isotop_mass 0))
                   (h_mass / 2)
  then
    (update_last (fun a => a + nth i_i relative_isotop_pattern 0)
                 pattern_low_res,
     update_last (fun m => (m + i) / 2) mass_low_res)
  else
    (pattern_low_res ++ [nth i_i relative_isotop_pattern 0],
     mass_low_res ++ [i]).

Definition clump : list Q * list Q :=
  fold_left clump_step (seq 0 (List.length relative_isotop_mass)) ([], []).

End Clump.

Section Pattern.
(** pyteomics: an isotopic state; [mass.isotopologues] with its
    [elements_with_isotopes] and [overall_threshold] arguments, a
    generator, given by the states it yields with their abundances and
    the exception that ends the iteration when there is one; and
    [mass.calculate_mass] of a state, which may raise. *)
Variable isotopic_state : Type.
Variable isotopologues :
  dict Z -> list string -> Q -> list (isotopic_state * Q) * option exn.
Variable calculate_mass : isotopic_state -> pyres Q.
Variable h_mass : Q.

(** [for i in isotopologue: isotop_arranged.append(...)]: the mass of
    each state as it is yielded, then the end of the iteration. *)
Fixpoint arrange (yielded : list (isotopic_state * Q))
  (ending : option exn) : pyres (list peak) :=
  match yielded with
  | [] =>
      match ending with
      | Some e => Raise e
      | None => Ret []
      end
  | i :: rest =>
      m <- calculate_mass (fst i) ;;
      isotop_arranged <- arrange rest ending ;;
      Ret ({| mz := m; Ab := snd i |} :: isotop_arranged)
  end.

Definition calculate_isotopic_pattern (glycan_atoms : dict Z)
  (fast high_res : bool) : pyres (list Q * list Q) :=
  let isotopologue :=
    if fast then isotopologues glycan_atoms ["C"%string] (1 # 10000)
    else isotopologues glycan_atoms
           ["C"%string; "N"%string; "O"%string; "H"%string] (1 # 10000) in
  isotop_arranged <- arrange (fst isotopologue) (snd isotopologue) ;;
  let isotop_arranged := sorted_by_mz isotop_arranged in
  r <- relative_lists
         (match isotop_arranged with p :: _ => Ab p | [] => 0 end)
         isotop_arranged ;;
  let '(relative_isotop_pattern, relative_isotop_mass) := r in
  if negb high_res && negb fast then
    Ret (clump h_mass relative_isotop_pattern relative_isotop_mass)
  else Ret (relative_isotop_pattern, relative_isotop_mass).

End Pattern.

End Isotopes.

(** ** TagCompositionSearch *)

Module TagSearch.

Local Open Scope Q_scope.

(** [int(q)]: truncation towards zero. *)
Definition py_int_of_Q (q : Q) : Z := Z.quot (Qnum q) (Zpos (Qden q)).

Section Search.
(** pyteomics: [mass.calculate_mass(composition = ...)]. *)
Variable calculate_mass : dict Z -> Q.
Variable tag_mass : Q.

(** The [for] loop over the combinations of one size. *)
Definition try_combination (closest : dict Z * Q) (i : list ascii)
  : dict Z * Q :=
  let seq_readable :=
    CompositionAlgebra.count_seq_letters (string_of_list_ascii i) in
  let test_tag_mass := calculate_mass seq_readable in
  if Isotopes.Qlt_bool (Qabs (test_tag_mass - tag_mass))
                       (Qabs (snd closest - tag_mass))
  then (seq_readable, test_tag_mass)
  else closest.

(** The [while] loop; [fuel] bounds the number of rounds, [None] when it
    runs out. *)
Fixpoint search_loop (fuel : nat) (atoms_number : Z) (closest : dict Z * Q)
  : option (dict Z * Q) :=
  if Isotopes.Qlt_bool (inject_Z atoms_number / 2) (inject_Z atoms_number)
  then
    match fuel with
    | O => None
    | S fuel' =>
        let closest :=
          fold_left try_combination
            (combinations_with_replacement (Z.to_nat atoms_number)
               (list_ascii_of_string "CONH"))
            closest in
        search_loop fuel' (atoms_number - 1) closest
    end
  else Some closest.

Definition calculate_comp_from_mass : option (dict Z * Q) :=
  let closest := ([], 0) in
  let atoms_number := py_int_of_Q (tag_mass / 5) in
  search_loop (Z.to_nat atoms_number) atoms_number closest.

End Search.

End TagSearch.

(** ** SpectralStatistics *)

Module SpectralStatistics.

Import Floats.PrimFloat.
Local Open Scope float_scope.

(** [numpy.add.reduce] on an array of doubles, as [numpy.sum],
    [numpy.mean] and [numpy.std] use it: pairwise summation. Fewer than
    8 elements are added from left to right; up to 128 elements go into
    eight running sums, block by block, which are then added as a tree,
    the elements left over after the last full block last; a longer
    array is cut in two at a multiple of 8. The result is added to the
    identity 0 the reduction starts from. *)
Definition add_tree (r : list float) : float :=
  match r with
  | [r0; r1; r2; r3; r4; r5; r6; r7] =>
      ((r0 + r1) + (r2 + r3)) + ((r4 + r5) + (r6 + r7))
  | _ => 0
  end.

Fixpoint add_blocks (fuel : nat) (r a : list float)
  : list float * list float :=
  match fuel with
  | O => (r, a)
  | S fuel' =>
      if (8 <=? List.length a)%nat then
        add_blocks fuel'
          (map (fun p => fst p + snd p) (combine r (firstn 8 a)))
          (skipn 8 a)
      else (r, a)
  end.

Fixpoint pairwise_sum (fuel : nat) (a : list float) : float :=
  let n := List.length a in
  if (n <? 8)%nat then fold_left add a 0
  else
    match fuel with
    | O => 0
    | S fuel' =>
        if (n <=? 128)%nat then
          let '(r, rest) := add_blocks n (firstn 8 a) (skipn 8 a) in
          fold_left add rest (add_tree r)
        else
          let n2 := (n / 2)%nat in
          let n2 := (n2 - n2 mod 8)%nat in
          pairwise_sum fuel' (firstn n2 a) + pairwise_sum fuel' (skipn n2 a)
    end.

Definition fsum (l : list float) : float :=
  0 + pairwise_sum (List.length l) l.

(** [len(l)] as a float is exact for every list that fits in memory. *)
Definition flen (l : list float) : float :=
  fold_left (fun n _ => n + 1) l 0.

Definition fmean (l : list float) : float := fsum l / flen l.

(** [numpy.std(l)]: the population standard deviation,
    [sqrt(mean(abs(l - mean(l))**2))]. *)
Definition std (l : list float) : float :=
  let m := fmean l in
  sqrt (fmean (map (fun x => abs (x - m) * abs (x - m)) l)).

(** [numpy.amax] and [numpy.amin] of a non-empty array, given its head:
    [maximum.reduce] and [minimum.reduce], which let a NaN through. *)
Definition np_maximum (a b : float) : float :=
  if (b <=? a) || is_nan a then a else b.

Definition np_minimum (a b : float) : float :=
  if (a <=? b) || is_nan a then a else b.

Definition np_amax (a : float) (l : list float) : float :=
  fold_left np_maximum l a.

Definition np_amin (a : float) (l : list float) : float :=
  fold_left np_minimum l a.

(** [numpy.dot] of two vectors. The BLAS behind it does not fix the
    order in which the products are added; here they are added from left
    to right. *)
Definition fdot (u v : list float) : float :=
  fold_left add (map (fun ab => fst ab * snd ab) (combine u v)) 0.

(** [scipy.stats.linregress(x, y)], slope and intercept: the ordinary
    least-squares line through the points, from the biased covariances
    [ssxm] and [ssxym] that [numpy.cov] computes on the centred data.
    Empty input and, for two points or more, identical [x] values are a
    [ValueError]. *)
Definition identical_x (x : list float) : bool :=
  match x with
  | [] => false
  | x0 :: x' => (np_amax x0 x' =? np_amin x0 x') && (1 <? List.length x)%nat
  end.

Definition linregress (x y : list float) : pyres (float * float) :=
  match x, y with
  | [], _ | _, [] => Raise ValueError
  | _ :: _, _ :: _ =>
      if identical_x x then Raise ValueError
      else
        let xmean := fmean x in
        let ymean := fmean y in
        let n := flen x in
        let xc := map (fun a => a - xmean) x in
        let yc := map (fun a => a - ymean) y in
        let ssxm := fdot xc xc * (1 / n) in
        let ssxym := fdot xc yc * (1 / n) in
        let slope := ssxym / ssxm in
        let intercept := ymean - slope * xmean in
        Ret (slope, intercept)
  end.

(** [where(mask)[0]]: the indices at which [mask] holds, from index [i]. *)
Fixpoint where_true (i : nat) (mask : list bool) : list nat :=
  match mask with
  | [] => []
  | b :: mask' =>
      if b then i :: where_true (S i) mask' else where_true (S i) mask'
  end.

Definition linear_regression (x y : list float) (th : float)
  : pyres (float * float * list nat) :=
  if negb (Nat.eqb (List.length x) (List.length y)) then Raise ValueError
  else
    match x, y with
    | [], _ => Ret (0, 0, [])
    | [_], y0 :: _ => Ret (0, y0, [])
    | [_], [] => Raise IndexError
    | _, _ =>
        mb <- linregress x y ;;
        let '(m, b) := mb in
        let predicted_y := map (fun a => m * a + b) x in
        let residuals :=
          map (fun yp => fst yp - snd yp) (combine y predicted_y) in
        let threshold := th * std residuals in
        let outlier_indices :=
          where_true 0 (map (fun r => threshold <? abs r) residuals) in
        Ret (m, b, outlier_indices)
    end.

(** [sorted(l)] on floats. *)
Fixpoint finsert (a : float) (l : list float) : list float :=
  match l with
  | [] => [a]
  | b :: l' => if b <? a then b :: finsert a l' else a :: b :: l'
  end.

Fixpoint fsorted (l : list float) : list float :=
  match l with
  | [] => []
  | a :: l' => finsert a (fsorted l')
  end.

(** [min(l)] and [max(l)] of a non-empty list, given its head. *)
Definition fmin (a : float) (l : list float) : float :=
  fold_left (fun m b => if b <? m then b else m) l a.

Definition fmax (a : float) (l : list float) : float :=
  fold_left (fun m b => if m <? b then b else m) l a.

(** The body of [for j_j, j in enumerate(segments_list)]: the value
    appended to [noise]. *)
Definition segment_noise (j : list float) : float :=
  match j with
  | [] => 1
  | a :: rest =>
      let intensity_std := std j in
      let noise_threshold := 2 * intensity_std in
      let min_j := fmin a rest in
      let max_j := fmax a rest in
      if (negb (min_j =? 0) && (min_j * 5 <? noise_threshold))
         || (max_j * 0.5 <? noise_threshold)
      then
        if negb (min_j =? 0) then min_j else 1
      else noise_threshold
  end.

Inductive noise_level : Type :=
| Whole (noise : float)
| Segments (first_quarter last_quarter last_mz : float).

(** [mz_int] is the pair [(mz_int[0], mz_int[1])]. *)
Definition rt_noise_level_parameters_set (mz_int : list float * list float)
  (mode : string) : pyres noise_level :=
  let '(mzs, ints) := mz_int in
  let segments_list :=
    if String.eqb mode "segments" then
      let first_quarter_end := (List.length ints / 4)%nat in
      let last_quarter_begin := (first_quarter_end * 3)%nat in
      Some [fsorted (firstn first_quarter_end ints);
            fsorted (skipn last_quarter_begin ints)]
    else None in
  let segments_list :=
    if String.eqb mode "whole" then Some [fsorted ints] else segments_list in
  match segments_list with
  | None => Raise NameError
  | Some segments_list =>
      let noise := map segment_noise segments_list in
      match noise with
      | [n] => Ret (Whole n)
      | n0 :: n1 :: _ =>
          match rev mzs with
          | last_mz :: _ => Ret (Segments n0 n1 last_mz)
          | [] => Raise IndexError
          end
      | [] => Raise IndexError
      end
  end.

Definition local_noise_calc (noise_specs : float * float * float)
  (x avg_noise : float) : float :=
  let '(n0, n1, last_mz) := noise_specs in
  if (last_mz =? 0) || (n0 * 5 <? n1) || (n1 * 5 <? n0) then avg_noise
  else n0 + ((n1 - n0) / last_mz) * x.

End SpectralStatistics.

(** ** CompositionAlgebra: sums of compositions *)

Module CompositionSums.

Import CompositionAlgebra.

(** The body of [for j in i] in [sum_atoms]. *)
Definition sum_atoms_key (i : dict Z) (summed_comp : dict Z) (j : string)
  : pyres (dict Z) :=
  if negb (dict_mem j summed_comp) then
    v <- dict_item i j ;;
    Ret (dict_set j v summed_comp)
  else
    v <- dict_item i j ;;
    dict_iadd summed_comp j v.

Fixpoint sum_atoms_comp (i : dict Z) (js : list string)
  (summed_comp : dict Z) : pyres (dict Z) :=
  match js with
  | [] => Ret summed_comp
  | j :: js' =>
      summed_comp <- sum_atoms_key i summed_comp j ;;
      sum_atoms_comp i js' summed_comp
  end.

Fixpoint sum_atoms_loop (compositions : list (dict Z))
  (summed_comp : dict Z) : pyres (dict Z) :=
  match compositions with
  | [] => Ret summed_comp
  | i :: rest =>
      summed_comp <- sum_atoms_comp i (dict_keys i) summed_comp ;;
      sum_atoms_loop rest summed_comp
  end.

(** [sum_atoms], given the tuple of its arguments. *)
Definition sum_atoms (compositions : list (dict Z)) : pyres (dict Z) :=
  sum_atoms_loop compositions (atoms_of 0 0 0 0).

Definition monos_of (H N S lS eS F G T : Z) : dict Z :=
  [("H", H); ("N", N); ("S", S); ("lS", lS); ("eS", eS); ("F", F);
   ("G", G); ("T", T)].

(** [for j in i: summed_comp[j] += i[j]]. *)
Fixpoint sum_monos_comp (i : dict Z) (js : list string)
  (summed_comp : dict Z) : pyres (dict Z) :=
  match js with
  | [] => Ret summed_comp
  | j :: js' =>
      v <- dict_item i j ;;
      summed_comp <- dict_iadd summed_comp j v ;;
      sum_monos_comp i js' summed_comp
  end.

Fixpoint sum_monos_loop (compositions : list (dict Z))
  (summed_comp : dict Z) : pyres (dict Z) :=
  match compositions with
  | [] => Ret summed_comp
  | i :: rest =>
      summed_comp <- sum_monos_comp i (dict_keys i) summed_comp ;;
      sum_monos_loop rest summed_comp
  end.

(** [sum_monos], given the tuple of its arguments. *)
Definition sum_monos (compositions : list (dict Z)) : pyres (dict Z) :=
  sum_monos_loop compositions (monos_of 0 0 0 0 0 0 0 0).

End CompositionSums.


(** * Specification vocabulary *)

Import CompositionAlgebra Adducts Isotopes.

Fixpoint all_chars (p : ascii -> bool) (s : string) : bool :=
  match s with
  | EmptyString => true
  | String c s' => p c && all_chars p s'
  end.

Definition digit_free (s : string) : bool :=
  all_chars (fun c => negb (is_digit c)) s.

Definition all_digits (s : string) : bool := all_chars is_digit s.

(** The shape of what [re.split] returns: text, then pairs of a non-empty
    run of digits and a text. *)
Inductive well_split : list string -> Prop :=
| ws_last t :
    digit_free t = true -> well_split [t]
| ws_pair t d rest :
    digit_free t = true -> all_digits d = true -> d <> "" ->
    well_split rest -> well_split (t :: d :: rest).

(** The entries of a dictionary whose count is not zero. *)
Definition nonzero (d : dict Z) : dict Z :=
  filter (fun kn => negb (Z.eqb (snd kn) 0)) d.

(** A count read with missing keys as 0. *)
Definition dict_count (d : dict Z) (k : string) : Z :=
  match dict_get k d with
  | Some n => n
  | None => 0
  end.

(** Among the non-zero entries, in order: every positive count comes
    before every negative one, and no symbol with a positive count ends
    in a minus sign. *)
Fixpoint sign_coherent_from (negative : bool) (d : dict Z) : bool :=
  match d with
  | [] => true
  | (k, n) :: d' =>
      if Z.eqb n 0 then sign_coherent_from negative d'
      else if Z.ltb n 0 then sign_coherent_from true d'
      else negb negative && negb (ends_with_minus k)
           && sign_coherent_from negative d'
  end.

Definition sign_coherent (d : dict Z) : bool := sign_coherent_from false d.

(** The formula of a dictionary without zero counts, entry by entry. *)
Fixpoint formula_of (d : dict Z) : string :=
  match d with
  | [] => ""
  | (k, n) :: d' => (k ++ numeral n ++ formula_of d')%string
  end.

(** The decimal digits of a positive number. *)
Definition udigits (p : positive) : string :=
  NilZero.string_of_uint (Pos.to_uint p).

(** The tokens [re.split] cuts the formula into. *)
Fixpoint formula_tokens (d : dict Z) : list string :=
  match d with
  | [] => [""]
  | (k, n) :: d' =>
      (k ++ (if Z.ltb n 0 then "-" else ""))%string
      :: numeral (Z.abs n) :: formula_tokens d'
  end.

(** The tokens after the first loop of [form_to_comp]. *)
Fixpoint int_tokens (d : dict Z) : list string :=
  match d with
  | [] => [""]
  | (k, n) :: d' => k :: numeral n :: int_tokens d'
  end.

Definition clean_keys (d : dict Z) : Prop :=
  Forall (fun k => digit_free k = true /\ k <> "") (dict_keys d).

(** An integer that [int] and [str] convert: its numeral has at most
    [int_max_str_digits] digits. *)
Definition within_digit_limit (n : Z) : Prop :=
  Z.abs n < 10 ^ int_max_str_digits.

Definition counts_within_limit (d : dict Z) : Prop :=
  Forall (fun kn => within_digit_limit (snd kn)) d.

(** The length of the run of digits a string starts with, and of the
    longest run of digits in it. *)
Fixpoint leading_digits (s : string) : Z :=
  match s with
  | EmptyString => 0
  | String c s' => if is_digit c then 1 + leading_digits s' else 0
  end.

Fixpoint longest_digit_run (s : string) : Z :=
  match s with
  | EmptyString => 0
  | String c s' => Z.max (leading_digits s) (longest_digit_run s')
  end.

(** The numeral made of [n] digits 1, and one of a digit more than [int]
    converts. *)
Fixpoint ones (n : nat) : string :=
  match n with
  | O => ""
  | S n' => String "1" (ones n')
  end.

Definition long_numeral : string := ones 4301.

(** The longest of the digit tokens of a token list. *)
Fixpoint longest_token (l : list string) : Z :=
  match l with
  | _ :: d :: rest => Z.max (digit_count d) (longest_token rest)
  | _ => 0
  end.

Definition no_zero (d : dict Z) : Prop :=
  Forall (fun kn => snd kn <> 0) d.

(** [sum(|count|)] over the entries of a combination. *)
Definition total_abs (d : dict Z) : Z :=
  fold_right (fun kn a => Z.abs (snd kn) + a) 0 d.

(** Every count of [c] is, in absolute value, at most the maximum that
    [adducts] declares for its symbol. *)
Definition within_maxima (adducts c : dict Z) : Prop :=
  forall k n, dict_get k c = Some n ->
    exists m, dict_get k adducts = Some m /\ Z.abs n <= Z.abs m.

(** How many elements of [l] are equal, as dictionaries, to [z]. *)
Definition occurrences (z : dict Z) (l : list (dict Z)) : nat :=
  List.length (filter (fun y => dict_eqb y z) l).

(** The charge that one occurrence of an adduct adds, and the sign that
    all counts of a combination share. *)
Definition unit_charge (max_charge : Z) : Z :=
  if 0 <? max_charge then 1 else -1.

Definition same_sign (max_charge : Z) (d : dict Z) : Prop :=
  forall k n, dict_get k d = Some n -> 0 < unit_charge max_charge * n.

(** ** Vocabulary of the clumping pass *)

(** Adjacent elements are at least [gap] apart. *)
Fixpoint apart (gap : Q) (l : list Q) : Prop :=
  match l with
  | [] => True
  | a :: l' =>
      match l' with
      | [] => True
      | b :: _ => (gap <= b - a)%Q
      end /\ apart gap l'
  end.

Fixpoint ascending (l : list Q) : Prop :=
  match l with
  | [] => True
  | a :: l' =>
      match l' with
      | [] => True
      | b :: _ => (a <= b)%Q
      end /\ ascending l'
  end.

Definition sumQ (l : list Q) : Q := fold_right Qplus 0%Q l.

(** The clumping loop after its first [n] rounds, and what holds then. *)
Section ClumpPrefix.
Variable h_mass : Q.
Variables relative_isotop_pattern relative_isotop_mass : list Q.

Definition clump_upto (n : nat) : list Q * list Q :=
  fold_left (clump_step h_mass relative_isotop_pattern relative_isotop_mass)
            (seq 0 n) ([], []).

Definition clump_invariant (n : nat) (low_res : list Q * list Q) : Prop :=
  let '(pattern_low_res, mass_low_res) := low_res in
  apart (h_mass / 2)%Q mass_low_res
  /\ List.length pattern_low_res = List.length mass_low_res
  /\ (n = 0%nat -> mass_low_res = [])
  /\ ((0 < n)%nat ->
      mass_low_res <> []
      /\ (last mass_low_res 0 <= nth (n - 1) relative_isotop_mass 0)%Q)
  /\ (sumQ pattern_low_res == sumQ (firstn n relative_isotop_pattern))%Q.

End ClumpPrefix.

(** Four isotopic states, given by their masses: two of them 1/20 apart. *)
Definition four_states (_ : dict Z) (_ : list string) (_ : Q)
  : list (Q * Q) * option exn :=
  ([(10 # 1, 1 # 2); (1 # 1, 1 # 4); (21 # 20, 1 # 8); (3 # 1, 1 # 8)]%Q,
   None).

(** ** Vocabulary of the permethylation *)

(** What one pass of [methylate c h] adds to the count of atom [j]. *)
Definition methyl_delta (c h : Z) (j : string) : Z :=
  (if String.eqb j "C" then c else 0) + (if String.eqb j "H" then h else 0).

(** What one permethylated call adds to atom [j] of residue [i] in the
    table: the four tests of the loop, one after the other. *)
Definition methyl_increment (i j : string) : Z :=
  (if String.eqb i "H" then methyl_delta 3 6 j else 0)
  + (if String.eqb i "N" then methyl_delta 3 6 j else 0)
  + (if String.eqb i "F" then methyl_delta 2 4 j else 0)
  + (if String.eqb i "S" || String.eqb i "G" then methyl_delta 5 10 j else 0).

(** [t'] is [t] with every residue's atoms raised by the increments. *)
Definition methylated (t t' : mono_table) : Prop :=
  forall i e, dict_get i t = Some e ->
    exists e', dict_get i t' = Some e'
      /\ forall j m, dict_get j (snd e) = Some m ->
           dict_get j (snd e') = Some (m + methyl_increment i j).

(** The methylation atoms that the residues of [keys] carry for atom [j],
    each residue with its count in [glycan_composition]. *)
Definition methyl_extra (glycan_composition : dict Z) (j : string)
  (keys : list string) : Z :=
  fold_right
    (fun i acc =>
       (if String.eqb i "T" then 0
        else methyl_increment i j * dict_count glycan_composition i) + acc)
    0 keys.

(** The table after one and after two permethylated calls. *)
Definition permethylated_once : mono_table :=
  Eval vm_compute in
    match permethylate monosaccharides with
    | Ret t => t
    | Raise _ => []
    end.

Definition permethylated_twice : mono_table :=
  Eval vm_compute in
    match permethylate permethylated_once with
    | Ret t => t
    | Raise _ => []
    end.

(** ** Vocabulary of the further properties *)

(** The sum of the counts of a dictionary. *)
Definition dict_total (d : dict Z) : Z :=
  fold_right (fun kn a => snd kn + a) 0 d.

(** The count of [k] summed over a list of compositions. *)
Definition total_count (compositions : list (dict Z)) (k : string) : Z :=
  fold_right (fun c a => dict_count c k + a) 0 compositions.

(** A symbol that [form_to_comp] reads back as it is: not empty, without
    digits, not ending in a minus sign. *)
Definition plain_symbol (k : string) : bool :=
  negb (String.eqb k "") && digit_free k && negb (ends_with_minus k).

(** The key under which [count_seq_letters] files a letter. *)
Definition letter_key (c : ascii) : string :=
  if Ascii.eqb c "L" then "lS"
  else if Ascii.eqb c "E" then "eS"
  else String c "".

(** The sum of [f] over a list of keys. *)
Definition zsum (f : string -> Z) (l : list string) : Z :=
  fold_right (fun i a => f i + a) 0 l.

(** The count of atom [j] that the table holds for residue [i], 0 when
    the table has no such residue or atom. *)
Definition table_atoms (t : mono_table) (i j : string) : Z :=
  match dict_get i t with
  | Some e => dict_count (snd e) j
  | None => 0
  end.

(** The atoms [j] of the residues [keys] of a composition, the tag T left
    out. *)
Definition residue_total (t : mono_table) (glycan_composition : dict Z)
  (j : string) (keys : list string) : Z :=
  zsum (fun i => if String.eqb i "T" then 0
                 else table_atoms t i j * dict_count glycan_composition i)
       keys.

(** The composition and the mass that the tag search computes for one
    combination of letters, and how far a pair is from the tag mass. *)
Definition tag_candidate (calculate_mass : dict Z -> Q) (i : list ascii)
  : dict Z * Q :=
  let seq_readable := count_seq_letters (string_of_list_ascii i) in
  (seq_readable, calculate_mass seq_readable).

Definition tag_distance (tag_mass : Q) (r : dict Z * Q) : Q :=
  Qabs (snd r - tag_mass).

(** Two isotopic states, given by their masses: the lighter one has
    abundance 0. *)
Definition two_states (_ : dict Z) (_ : list string) (_ : Q)
  : list (Q * Q) * option exn :=
  ([(2 # 1, 1 # 2); (1 # 1, 0)]%Q, None).

(** The ways [calculate_isotopic_pattern] can fail on the states that
    [mass.isotopologues] yields: an exception of pyteomics, raised by the
    iteration or by [mass.calculate_mass] on a state; or a state of least
    mass that has abundance 0. *)
Section PatternErrors.
Variable isotopic_state : Type.
Variable calculate_mass : isotopic_state -> pyres Q.
Variable states : list (isotopic_state * Q) * option exn.

Definition raised_by_pyteomics (e : exn) : Prop :=
  snd states = Some e
  \/ exists st ab, In (st, ab) (fst states) /\ calculate_mass st = Raise e.

Definition lightest_state_absent : Prop :=
  exists st ab m,
    In (st, ab) (fst states) /\ calculate_mass st = Ret m /\ (ab == 0)%Q
    /\ forall st' ab' m',
         In (st', ab') (fst states) -> calculate_mass st' = Ret m' ->
         (m <= m')%Q.

(** The masses of the states, when the iteration ends normally and
    [mass.calculate_mass] returns on every state. *)
Definition state_masses (masses : list Q) : Prop :=
  snd states = None
  /\ Forall2 (fun i m => calculate_mass (fst i) = Ret m) (fst states) masses.

End PatternErrors.

(** * Properties *)

(** ** Strings *)

Lemma str_app_nil_r (s : string) : (s ++ "")%string = s.
Proof.
  induction s as [|c s IH]; simpl; [reflexivity | now rewrite IH].
Qed.

Lemma str_app_assoc (a b c : string) :
  ((a ++ b) ++ c)%string = (a ++ (b ++ c))%string.
Proof.
  induction a as [|x a IH]; simpl; [reflexivity | now rewrite IH].
Qed.

Lemma all_chars_app p a b :
  all_chars p (a ++ b)%string = all_chars p a && all_chars p b.
Proof.
  induction a as [|x a IH]; simpl; [reflexivity|].
  now rewrite IH, andb_assoc.
Qed.

Lemma str_last_app_char s c : str_last (s ++ String c "")%string = Some c.
Proof.
  induction s as [|x s IH]; simpl; [reflexivity|].
  rewrite IH. destruct s; reflexivity.
Qed.

Lemma str_init_app_char s c : str_init (s ++ String c "")%string = s.
Proof.
  induction s as [|x s IH]; simpl; [reflexivity|].
  rewrite IH. destruct s; reflexivity.
Qed.

Lemma str_last_all_chars p s c :
  all_chars p s = true -> str_last s = Some c -> p c = true.
Proof.
  induction s as [|x s IH]; simpl; [discriminate|].
  intros H. apply andb_true_iff in H as [Hx Hs].
  destruct s as [|y s'].
  - intros [= <-]. exact Hx.
  - intros Hl. apply IH; assumption.
Qed.

Lemma str_init_all_chars p s :
  all_chars p s = true -> all_chars p (str_init s) = true.
Proof.
  induction s as [|x s IH]; simpl; [reflexivity|].
  intros H. apply andb_true_iff in H as [Hx Hs].
  destruct s as [|y s']; [reflexivity|].
  change (p x && all_chars p (str_init (String y s')) = true).
  now rewrite Hx, IH.
Qed.

Lemma all_digits_no_minus d : all_digits d = true -> ends_with_minus d = false.
Proof.
  intros H. unfold ends_with_minus.
  destruct (str_last d) as [c|] eqn:E; [|reflexivity].
  pose proof (str_last_all_chars _ _ _ H E) as Hc.
  destruct (Ascii.eqb_spec c "-"); [subst; discriminate | reflexivity].
Qed.

(** ** Decimal numerals *)

Lemma uint_of_char_digit c u :
  is_digit c = true -> exists u', uint_of_char c (Some u) = Some u'.
Proof.
  destruct c as [[|] [|] [|] [|] [|] [|] [|] [|]]; simpl;
    intros H; try discriminate H; eexists; reflexivity.
Qed.

Lemma uint_of_string_digits d :
  all_digits d = true -> exists u, NilEmpty.uint_of_string d = Some u.
Proof.
  induction d as [|c d IH]; simpl; intros H.
  - eexists; reflexivity.
  - apply andb_true_iff in H as [Hc Hd].
    destruct (IH Hd) as [u ->]. now apply uint_of_char_digit.
Qed.

Lemma is_digit_not_minus c : is_digit c = true -> Ascii.eqb c "-" = false.
Proof.
  destruct (Ascii.eqb_spec c "-"); [subst; discriminate | reflexivity].
Qed.

Lemma digit_count_digits d :
  all_digits d = true -> digit_count d = Z.of_nat (String.length d).
Proof.
  induction d as [|c d IH]; [reflexivity|].
  unfold all_digits. cbn [all_chars digit_count String.length].
  intros H. apply andb_true_iff in H as [Hc Hd].
  rewrite Hc, (IH Hd). lia.
Qed.

Lemma digit_count_nonneg s : 0 <= digit_count s.
Proof.
  induction s as [|c s IH]; cbn [digit_count]; [lia|].
  destruct (is_digit c); lia.
Qed.

Lemma digit_count_string_of_uint u :
  digit_count (NilEmpty.string_of_uint u) = Z.of_nat (Decimal.nb_digits u).
Proof.
  induction u; cbn [NilEmpty.string_of_uint digit_count Decimal.nb_digits];
    try reflexivity; rewrite IHu; cbn [is_digit]; lia.
Qed.

(** The value of a numeral of [n] digits lies below [10 ^ n], and at or
    above [10 ^ (n - 1)] when it has no leading zero. *)
Lemma of_uint_acc_bounds u : forall acc,
  Z.pos acc * 10 ^ Z.of_nat (Decimal.nb_digits u)
  <= Z.pos (Pos.of_uint_acc u acc)
  < (Z.pos acc + 1) * 10 ^ Z.of_nat (Decimal.nb_digits u).
Proof.
  induction u; intros acc;
    cbn [Pos.of_uint_acc Decimal.nb_digits];
    try (rewrite Z.pow_0_r; lia);
    rewrite Nat2Z.inj_succ, Z.pow_succ_r by lia;
    match goal with
    | |- context [Pos.of_uint_acc u ?a] => specialize (IHu a)
    end;
    assert (0 < 10 ^ Z.of_nat (Decimal.nb_digits u))
      by (apply Z.pow_pos_nonneg; lia);
    nia.
Qed.

Lemma of_uint_upper u :
  Z.of_N (Pos.of_uint u) < 10 ^ Z.of_nat (Decimal.nb_digits u).
Proof.
  induction u; cbn [Pos.of_uint Decimal.nb_digits];
    try (rewrite Z.pow_0_r; cbn; lia);
    rewrite Nat2Z.inj_succ, Z.pow_succ_r by lia;
    assert (0 < 10 ^ Z.of_nat (Decimal.nb_digits u))
      by (apply Z.pow_pos_nonneg; lia);
    try lia;
    match goal with
    | |- context [Pos.of_uint_acc u ?a] =>
        pose proof (of_uint_acc_bounds u a)
    end; cbn [Z.of_N]; lia.
Qed.

Lemma of_uint_lower u :
  u <> Decimal.Nil -> (forall u', u <> Decimal.D0 u') ->
  10 ^ (Z.of_nat (Decimal.nb_digits u) - 1) <= Z.of_N (Pos.of_uint u).
Proof.
  intros Hnil H0.
  destruct u; try contradiction; try (exfalso; eapply H0; reflexivity);
    cbn [Pos.of_uint Decimal.nb_digits Z.of_N];
    rewrite Nat2Z.inj_succ;
    replace (Z.succ (Z.of_nat (Decimal.nb_digits u)) - 1)
      with (Z.of_nat (Decimal.nb_digits u)) by lia;
    match goal with
    | |- context [Pos.of_uint_acc u ?a] =>
        pose proof (of_uint_acc_bounds u a)
    end;
    assert (0 < 10 ^ Z.of_nat (Decimal.nb_digits u))
      by (apply Z.pow_pos_nonneg; lia);
    nia.
Qed.

Lemma to_uint_head p :
  Pos.to_uint p <> Decimal.Nil /\ forall u', Pos.to_uint p <> Decimal.D0 u'.
Proof.
  split; [apply DecimalPos.Unsigned.to_uint_nonnil|].
  intros u' E.
  pose proof (DecimalPos.Unsigned.to_of (Pos.to_uint p)) as H.
  rewrite DecimalPos.Unsigned.of_to in H. cbn [N.to_uint] in H.
  pose proof (DecimalPos.Unsigned.to_uint_nonzero p) as Hz.
  unfold Decimal.unorm in H.
  destruct (Decimal.nzhead (Pos.to_uint p)) eqn:En;
    try (rewrite E in H; discriminate H).
  - exact (Hz H).
  - exact (DecimalFacts.nzhead_nonzero _ _ En).
Qed.

Lemma to_uint_digits p k :
  Z.pos p < 10 ^ k ->
  Z.of_nat (Decimal.nb_digits (Pos.to_uint p)) <= k.
Proof.
  intros Hp.
  destruct (to_uint_head p) as [Hnil H0].
  pose proof (of_uint_lower _ Hnil H0) as Hl.
  rewrite DecimalPos.Unsigned.of_to in Hl. cbn [Z.of_N] in Hl.
  destruct (Z.le_gt_cases (Z.of_nat (Decimal.nb_digits (Pos.to_uint p))) k)
    as [Hle | Hgt]; [exact Hle | exfalso].
  assert (0 <= k).
  { destruct (Z.le_gt_cases 0 k); [assumption|].
    rewrite Z.pow_neg_r in Hp by lia. lia. }
  assert (10 ^ k <= 10 ^ (Z.of_nat (Decimal.nb_digits (Pos.to_uint p)) - 1))
    by (apply Z.pow_le_mono_r; lia).
  lia.
Qed.

Lemma digit_count_numeral n :
  within_digit_limit n -> digit_count (numeral n) <= int_max_str_digits.
Proof.
  unfold within_digit_limit. intros Hn. unfold numeral, Z.to_int.
  destruct n as [|p|p]; [unfold int_max_str_digits; cbn; lia| |];
    cbn [NilZero.string_of_int digit_count is_digit];
    destruct (to_uint_head p) as [Hnil _];
    unfold NilZero.string_of_uint;
    (destruct (Pos.to_uint p) eqn:E; [contradiction|..]);
    rewrite <- E, digit_count_string_of_uint;
    pose proof (to_uint_digits p _ Hn); lia.
Qed.

(** *** [int] and [str] *)

Lemma py_int_raises s e : py_int s = Raise e -> e = ValueError.
Proof.
  unfold py_int. destruct (NilZero.int_of_string s); [|now intros [= <-]].
  destruct (int_max_str_digits <? digit_count s);
    [now intros [= <-] | discriminate].
Qed.

Lemma py_int_long s :
  int_max_str_digits < digit_count s -> py_int s = Raise ValueError.
Proof.
  intros H. unfold py_int. apply Z.ltb_lt in H. rewrite H.
  now destruct (NilZero.int_of_string s).
Qed.

Lemma py_int_digits d :
  all_digits d = true -> d <> "" -> digit_count d <= int_max_str_digits ->
  exists n, py_int d = Ret n.
Proof.
  intros H Hne Hlen. unfold py_int.
  apply Z.ltb_ge in Hlen. rewrite Hlen.
  destruct d as [|c d]; [contradiction|].
  destruct (uint_of_string_digits _ H) as [u Hu].
  unfold NilZero.int_of_string, NilZero.uint_of_string.
  simpl in H. apply andb_true_iff in H as [Hc _].
  rewrite (is_digit_not_minus _ Hc), Hu. eexists; reflexivity.
Qed.

Lemma py_int_minus_digits d :
  all_digits d = true -> d <> "" -> digit_count d <= int_max_str_digits ->
  exists n, py_int ("-" ++ d) = Ret n.
Proof.
  intros H Hne Hlen. unfold py_int.
  change (digit_count ("-" ++ d)) with (0 + digit_count d).
  apply Z.ltb_ge in Hlen. rewrite Z.add_0_l, Hlen.
  cbn [append NilZero.int_of_string Ascii.eqb Bool.eqb].
  destruct (uint_of_string_digits _ H) as [u Hu].
  unfold NilZero.uint_of_string.
  destruct d as [|c d]; [contradiction|].
  rewrite Hu. eexists; reflexivity.
Qed.

(** What [int] returns is within the limit of [str]. *)
Lemma py_int_within s n : py_int s = Ret n -> within_digit_limit n.
Proof.
  unfold py_int, within_digit_limit.
  destruct (NilZero.int_of_string s) as [d|] eqn:E; [|discriminate].
  destruct (int_max_str_digits <? digit_count s) eqn:L; [discriminate|].
  intros [= <-]. apply Z.ltb_ge in L.
  apply NilZero.sis in E. subst s.
  assert (Hu : forall u,
    digit_count (NilZero.string_of_uint u) <= int_max_str_digits ->
    Z.of_N (Pos.of_uint u) < 10 ^ int_max_str_digits).
  { intros u Hle. eapply Z.lt_le_trans; [apply of_uint_upper|].
    apply Z.pow_le_mono_r; [lia|].
    unfold NilZero.string_of_uint in Hle.
    destruct u; try (rewrite digit_count_string_of_uint in Hle; exact Hle).
    cbn [Decimal.nb_digits]. unfold int_max_str_digits. lia. }
  destruct d as [u|u];
    cbn [NilZero.string_of_int digit_count is_digit Z.of_int] in *;
    unfold Z.of_uint.
  - rewrite Z.abs_eq by lia. now apply Hu.
  - rewrite Z.abs_opp, Z.abs_eq by lia. apply Hu. lia.
Qed.

Lemma digit_count_numeral_long n :
  ~ within_digit_limit n -> int_max_str_digits < digit_count (numeral n).
Proof.
  unfold within_digit_limit. intros Hn.
  assert (Hp : forall p, ~ Z.pos p < 10 ^ int_max_str_digits ->
    int_max_str_digits
    < digit_count (NilZero.string_of_uint (Pos.to_uint p))).
  { intros p Hbig.
    destruct (to_uint_head p) as [Hnil _].
    pose proof (of_uint_upper (Pos.to_uint p)) as Hup.
    rewrite DecimalPos.Unsigned.of_to in Hup. cbn [Z.of_N] in Hup.
    assert (Hnb : int_max_str_digits
                  < Z.of_nat (Decimal.nb_digits (Pos.to_uint p))).
    { destruct (Z.le_gt_cases (Z.of_nat (Decimal.nb_digits (Pos.to_uint p)))
                 int_max_str_digits) as [Hle | Hgt]; [exfalso | lia].
      apply Hbig. eapply Z.lt_le_trans; [exact Hup|].
      apply Z.pow_le_mono_r; lia. }
    unfold NilZero.string_of_uint.
    destruct (Pos.to_uint p) eqn:E; [contradiction|..];
      rewrite <- E in Hnb |- *; rewrite digit_count_string_of_uint;
      exact Hnb. }
  unfold numeral, Z.to_int.
  destruct n as [|p|p]; cbn [NilZero.string_of_int digit_count is_digit].
  - exfalso. apply Hn. apply Z.pow_pos_nonneg; unfold int_max_str_digits; lia.
  - now apply Hp.
  - rewrite Z.add_0_l. now apply Hp.
Qed.

Lemma py_str_long n : ~ within_digit_limit n -> py_str n = Raise ValueError.
Proof.
  intros H. unfold py_str.
  pose proof (digit_count_numeral_long n H) as Hlt.
  apply Z.ltb_lt in Hlt. now rewrite Hlt.
Qed.

Lemma py_str_small n : within_digit_limit n -> py_str n = Ret (numeral n).
Proof.
  intros H. unfold py_str.
  pose proof (digit_count_numeral n H) as Hle.
  apply Z.ltb_ge in Hle. now rewrite Hle.
Qed.

(** ** [re.split] and the two loops of [form_to_comp] *)

Lemma digit_free_cons c t :
  is_digit c = false -> digit_free t = true -> digit_free (String c t) = true.
Proof.
  intros Hc Ht. unfold digit_free in *. simpl. now rewrite Hc.
Qed.

Lemma all_digits_cons c d :
  is_digit c = true -> all_digits d = true -> all_digits (String c d) = true.
Proof.
  intros Hc Hd. unfold all_digits in *. simpl. now rewrite Hc.
Qed.

Lemma re_split_digits_well_split s : well_split (re_split_digits s).
Proof.
  induction s as [|c s IH]; simpl.
  - now apply ws_last.
  - destruct IH as [t Ht | t d rest Ht Hd Hne Hrest];
      destruct (is_digit c) eqn:Hc.
    + assert (well_split ["" ; String c ""; t]).
      { apply ws_pair; [reflexivity | now apply all_digits_cons
                       | discriminate | now apply ws_last]. }
      destruct t; assumption.
    + apply ws_last. now apply digit_free_cons.
    + destruct t.
      * apply ws_pair; [reflexivity | now apply all_digits_cons
                       | discriminate | assumption].
      * apply ws_pair; [reflexivity | now apply all_digits_cons
                       | discriminate | now apply ws_pair].
    + apply ws_pair; try assumption. now apply digit_free_cons.
Qed.

Lemma well_split_odd l : well_split l -> Nat.odd (List.length l) = true.
Proof.
  induction 1 as [t Ht | t d rest Ht Hd Hne Hrest IH]; [reflexivity|].
  simpl List.length. now rewrite Nat.odd_succ_succ.
Qed.

Lemma mark_negative_length l : forall i_i negative,
  List.length (mark_negative i_i negative l) = List.length l.
Proof.
  induction l as [|t l IH]; intros; simpl; [reflexivity | now rewrite IH].
Qed.

Lemma mark_negative_last i_i negative t :
  Nat.odd i_i = false ->
  mark_negative i_i negative [t] =
  [if negb (String.eqb t "") && ends_with_minus t then str_init t else t].
Proof.
  intros Hi. simpl. now rewrite Hi.
Qed.

Lemma mark_negative_pair i_i negative t d rest :
  Nat.odd i_i = false -> all_digits d = true -> d <> "" ->
  mark_negative i_i negative (t :: d :: rest) =
  let strip := negb (String.eqb t "") && ends_with_minus t in
  (if strip then str_init t else t)
  :: (if negative || strip then ("-" ++ d)%string else d)
  :: mark_negative (S (S i_i)) (negative || strip) rest.
Proof.
  intros Hi Hd Hne.
  cbn [mark_negative]. rewrite Hi. cbn [andb].
  rewrite (all_digits_no_minus _ Hd), andb_false_r, orb_false_r.
  rewrite Nat.odd_succ, <- Nat.negb_odd, Hi. cbn [negb andb].
  apply String.eqb_neq in Hne. rewrite Hne. cbn [negb andb].
  destruct (negative || _); reflexivity.
Qed.

Lemma digit_count_minus d : digit_count ("-" ++ d) = digit_count d.
Proof. reflexivity. Qed.

(** The digit tokens of [re.split] are the runs of digits of the
    string. *)
Lemma re_split_longest s :
  longest_token (re_split_digits s) = longest_digit_run s
  /\ match re_split_digits s with
     | EmptyString :: d :: _ => leading_digits s = digit_count d
     | _ => leading_digits s = 0
     end.
Proof.
  induction s as [|c s [IHl IHh]]; [split; reflexivity|].
  pose proof (re_split_digits_well_split s) as Hw.
  cbn [re_split_digits longest_digit_run leading_digits].
  remember (re_split_digits s) as l eqn:El. clear El.
  destruct Hw as [t Ht | t d rest Ht Hd Hne Hrest];
    destruct (is_digit c) eqn:Hc.
  - assert (E : forall t', (match t' with
                | EmptyString => ["" ; String c ""; t']
                | String _ _ => ["" ; String c ""; t'] end)
               = ["" ; String c ""; t']) by (intros []; reflexivity).
    rewrite E. cbn [longest_token digit_count] in *. rewrite Hc.
    destruct t; cbn [longest_token] in *; split; lia.
  - cbn [longest_token] in *. split; [|reflexivity].
    destruct t; lia.
  - destruct t as [|a t].
    + cbn [longest_token digit_count] in *. rewrite Hc. split; lia.
    + cbn [longest_token digit_count] in *. rewrite Hc.
      pose proof (digit_count_nonneg d). split; lia.
  - cbn [longest_token] in *. split; [|reflexivity].
    pose proof (digit_count_nonneg d). destruct t; lia.
Qed.

Lemma leading_digits_ones n : leading_digits (ones n) = Z.of_nat n.
Proof.
  induction n as [|n IH]; [reflexivity|].
  cbn [ones leading_digits is_digit]. rewrite IH. lia.
Qed.

Lemma leading_le_longest s : leading_digits s <= longest_digit_run s.
Proof.
  destruct s as [|c s]; [reflexivity|].
  cbn [longest_digit_run]. lia.
Qed.

Lemma longest_digit_run_cons c s :
  longest_digit_run s <= longest_digit_run (String c s).
Proof.
  cbn [longest_digit_run]. lia.
Qed.

Lemma fill_counts_total l :
  well_split l -> longest_token l <= int_max_str_digits ->
  forall i_i negative counts,
    Nat.odd i_i = false ->
    exists c,
      fill_counts (mark_negative i_i negative l ++ ["1"]) counts = Ret c.
Proof.
  induction 1 as [t Ht | t d rest Ht Hd Hne Hrest IH];
    intros Hlong i_i neg counts Hi.
  - rewrite mark_negative_last by assumption. simpl. eexists; reflexivity.
  - rewrite mark_negative_pair by assumption. cbv zeta.
    cbn [app fill_counts]. cbn [longest_token] in Hlong.
    assert (Hp : exists n,
      py_int (if neg || (negb (String.eqb t "") && ends_with_minus t)
              then ("-" ++ d)%string else d) = Ret n).
    { destruct (neg || _);
        [apply py_int_minus_digits | apply py_int_digits];
        try assumption; lia. }
    destruct Hp as [n ->]. cbn [bind].
    apply IH; [lia|]. now rewrite Nat.odd_succ_succ.
Qed.

Lemma fill_counts_long l :
  well_split l -> int_max_str_digits < longest_token l ->
  forall i_i negative counts,
    Nat.odd i_i = false ->
    fill_counts (mark_negative i_i negative l ++ ["1"]) counts
    = Raise ValueError.
Proof.
  induction 1 as [t Ht | t d rest Ht Hd Hne Hrest IH];
    intros Hlong i_i neg counts Hi.
  - cbn [longest_token] in Hlong. unfold int_max_str_digits in Hlong. lia.
  - rewrite mark_negative_pair by assumption. cbv zeta.
    cbn [app fill_counts]. cbn [longest_token] in Hlong.
    destruct (Z.le_gt_cases (digit_count d) int_max_str_digits) as [Hle | Hgt].
    + assert (Hp : exists n,
        py_int (if neg || (negb (String.eqb t "") && ends_with_minus t)
                then ("-" ++ d)%string else d) = Ret n).
      { destruct (neg || _);
          [apply py_int_minus_digits | apply py_int_digits]; assumption. }
      destruct Hp as [n ->]. cbn [bind].
      apply IH; [lia|]. now rewrite Nat.odd_succ_succ.
    + assert (Hp :
        py_int (if neg || (negb (String.eqb t "") && ends_with_minus t)
                then ("-" ++ d)%string else d) = Raise ValueError).
      { destruct (neg || _); apply py_int_long;
          rewrite ?digit_count_minus; lia. }
      now rewrite Hp.
Qed.

(** [form_to_comp] returns on the strings without a run of more than
    [int_max_str_digits] digits, and on the others [int] raises. *)
Lemma form_to_comp_total s :
  longest_digit_run s <= int_max_str_digits ->
  exists d, form_to_comp s = Ret d.
Proof.
  intros Hlong. unfold form_to_comp.
  pose proof (re_split_digits_well_split s) as Hw.
  rewrite mark_negative_length, (well_split_odd _ Hw).
  destruct (fill_counts_total _ Hw) with (i_i := 0%nat) (negative := false)
    (counts := @nil (string * Z)) as [c Hc];
    [now rewrite (proj1 (re_split_longest s)) | reflexivity |].
  rewrite Hc. cbn [bind]. eexists; reflexivity.
Qed.

Lemma form_to_comp_long s :
  int_max_str_digits < longest_digit_run s ->
  form_to_comp s = Raise ValueError.
Proof.
  intros Hlong. unfold form_to_comp.
  pose proof (re_split_digits_well_split s) as Hw.
  rewrite mark_negative_length, (well_split_odd _ Hw).
  rewrite (fill_counts_long _ Hw);
    [reflexivity | now rewrite (proj1 (re_split_longest s)) | reflexivity].
Qed.

(** ** Dictionaries *)

Section DictFacts.
Context {V : Type}.
Implicit Types (d : dict V) (k : string) (v : V).

Lemma dict_get_set_same k v d : dict_get k (dict_set k v d) = Some v.
Proof.
  induction d as [|[k' v'] d IH]; simpl.
  - now rewrite String.eqb_refl.
  - destruct (String.eqb k' k) eqn:E; simpl; rewrite E; [reflexivity | exact IH].
Qed.

Lemma dict_get_set_other k k' v d :
  k <> k' -> dict_get k' (dict_set k v d) = dict_get k' d.
Proof.
  intros Hne. induction d as [|[k0 v0] d IH]; simpl.
  - apply String.eqb_neq in Hne. now rewrite Hne.
  - destruct (String.eqb_spec k0 k) as [-> | E]; simpl.
    + apply String.eqb_neq in Hne. now rewrite Hne.
    + now rewrite IH.
Qed.

Lemma dict_get_None k d : dict_get k d = None <-> ~ In k (dict_keys d).
Proof.
  induction d as [|[k' v'] d IH]; simpl.
  - tauto.
  - destruct (String.eqb_spec k' k).
    + split; [discriminate | intros H; exfalso; apply H; now left].
    + rewrite IH. tauto.
Qed.

Lemma dict_get_In k v d : dict_get k d = Some v -> In (k, v) d.
Proof.
  induction d as [|[k' v'] d IH]; simpl; [discriminate|].
  destruct (String.eqb_spec k' k).
  - intros [= ->]. subst. now left.
  - intros H. right. now apply IH.
Qed.

Lemma dict_set_fresh k v d :
  ~ In k (dict_keys d) -> dict_set k v d = d ++ [(k, v)].
Proof.
  induction d as [|[k' v'] d IH]; simpl; intros H; [reflexivity|].
  destruct (String.eqb_spec k' k).
  - exfalso. apply H. now left.
  - rewrite IH; [reflexivity | tauto].
Qed.

Lemma dict_keys_set_present k v d :
  In k (dict_keys d) -> dict_keys (dict_set k v d) = dict_keys d.
Proof.
  induction d as [|[k' v'] d IH]; simpl; intros H; [contradiction|].
  destruct (String.eqb_spec k' k); simpl.
  - reflexivity.
  - rewrite IH; [reflexivity|]. destruct H; [contradiction | assumption].
Qed.

Lemma dict_keys_set k v d :
  dict_keys (dict_set k v d) = dict_keys d
  \/ (~ In k (dict_keys d) /\ dict_keys (dict_set k v d) = dict_keys d ++ [k]).
Proof.
  destruct (in_dec string_dec k (dict_keys d)) as [Hin | Hout].
  - left. now apply dict_keys_set_present.
  - right. split; [assumption|].
    rewrite dict_set_fresh by assumption.
    unfold dict_keys. now rewrite map_app.
Qed.

Lemma dict_set_NoDup k v d :
  NoDup (dict_keys d) -> NoDup (dict_keys (dict_set k v d)).
Proof.
  intros Hnd. destruct (dict_keys_set k v d) as [-> | [Hout ->]].
  - assumption.
  - apply NoDup_app; [assumption | repeat constructor; now intros [] | ].
    intros x Hx [<- | []]. contradiction.
Qed.

Lemma dict_set_Forall (P : string -> Prop) k v d :
  P k -> Forall P (dict_keys d) -> Forall P (dict_keys (dict_set k v d)).
Proof.
  intros Hk Hd. destruct (dict_keys_set k v d) as [-> | [_ ->]].
  - assumption.
  - apply Forall_app. split; [assumption | now repeat constructor].
Qed.

Lemma dict_del_incl k d x : In x (dict_keys (dict_del k d)) -> In x (dict_keys d).
Proof.
  induction d as [|[k' v'] d IH]; simpl; [tauto|].
  destruct (String.eqb k' k); simpl; tauto.
Qed.

Lemma dict_del_NoDup k d :
  NoDup (dict_keys d) ->
  NoDup (dict_keys (dict_del k d)) /\ ~ In k (dict_keys (dict_del k d)).
Proof.
  induction d as [|[k' v'] d IH]; simpl; intros Hnd.
  - split; [constructor | tauto].
  - inversion Hnd as [|? ? Hout Hnd']; subst.
    destruct (String.eqb_spec k' k); simpl.
    + subst. split; assumption.
    + destruct (IH Hnd') as [IH1 IH2]. split.
      * constructor; [|assumption]. intros Hin. apply Hout.
        now apply dict_del_incl in Hin.
      * intros [E | Hin]; [contradiction | now apply IH2].
Qed.

Lemma dict_del_last k v d :
  ~ In k (dict_keys d) -> dict_del k (d ++ [(k, v)]) = d.
Proof.
  induction d as [|[k' v'] d IH]; simpl; intros H.
  - now rewrite String.eqb_refl.
  - destruct (String.eqb_spec k' k).
    + exfalso. apply H. now left.
    + rewrite IH; [reflexivity | tauto].
Qed.

Lemma dict_get_last k v d :
  ~ In k (dict_keys d) -> dict_get k (d ++ [(k, v)]) = Some v.
Proof.
  induction d as [|[k' v'] d IH]; simpl; intros H.
  - now rewrite String.eqb_refl.
  - destruct (String.eqb_spec k' k).
    + exfalso. apply H. now left.
    + apply IH. tauto.
Qed.

End DictFacts.

(** ** [comp_to_formula] read back by [form_to_comp] *)

Lemma counts_within_limit_nonzero d :
  counts_within_limit d -> counts_within_limit (nonzero d).
Proof.
  unfold counts_within_limit, nonzero. rewrite !Forall_forall.
  intros H kn Hin. apply filter_In in Hin as [Hin _]. now apply H.
Qed.

Lemma comp_to_formula_acc d : counts_within_limit d -> forall acc,
  comp_to_formula_loop d acc = Ret (acc ++ formula_of (nonzero d))%string.
Proof.
  induction d as [|[k n] d IH]; intros Hd acc; cbn [comp_to_formula_loop].
  - simpl. now rewrite str_app_nil_r.
  - inversion Hd as [|? ? Hn Hd']; subst. simpl in Hn.
    cbn [nonzero filter snd]. destruct (Z.eqb n 0); cbn [negb].
    + now apply IH.
    + rewrite (py_str_small _ Hn). cbn [bind formula_of].
      rewrite (IH Hd'). now rewrite !str_app_assoc.
Qed.

Lemma comp_to_formula_nonzero d :
  counts_within_limit d -> comp_to_formula d = Ret (formula_of (nonzero d)).
Proof.
  intros Hd. unfold comp_to_formula. now rewrite comp_to_formula_acc.
Qed.

Lemma string_of_uint_digits u :
  all_digits (NilEmpty.string_of_uint u) = true.
Proof.
  induction u; simpl; try reflexivity; assumption.
Qed.

Lemma udigits_all_digits p : all_digits (udigits p) = true.
Proof.
  unfold udigits, NilZero.string_of_uint.
  destruct (Pos.to_uint p); try reflexivity; apply string_of_uint_digits.
Qed.

Lemma udigits_nonempty p : udigits p <> "".
Proof.
  unfold udigits, NilZero.string_of_uint.
  destruct (Pos.to_uint p); simpl; discriminate.
Qed.

Lemma numeral_pos p : numeral (Zpos p) = udigits p.
Proof. reflexivity. Qed.

Lemma numeral_neg p : numeral (Zneg p) = String "-" (udigits p).
Proof. reflexivity. Qed.

Lemma py_int_numeral n : within_digit_limit n -> py_int (numeral n) = Ret n.
Proof.
  intros Hn. unfold py_int.
  pose proof (digit_count_numeral n Hn) as Hle.
  apply Z.ltb_ge in Hle. rewrite Hle. unfold numeral.
  rewrite NilZero.isi.
  - now rewrite DecimalZ.of_to.
  - destruct n; simpl; try discriminate.
    intros [= E]. now apply (DecimalPos.Unsigned.to_uint_nonnil p).
  - destruct n; simpl; try discriminate.
    intros [= E]. now apply (DecimalPos.Unsigned.to_uint_nonnil p).
Qed.

Lemma re_split_text_prefix k : forall s t rest,
  digit_free k = true ->
  re_split_digits s = t :: rest ->
  re_split_digits (k ++ s) = (k ++ t)%string :: rest.
Proof.
  induction k as [|c k IH]; intros s t rest Hk Hs; simpl.
  - assumption.
  - unfold digit_free in Hk. simpl in Hk.
    apply andb_true_iff in Hk as [Hc Hk].
    rewrite (IH s t rest Hk Hs).
    apply negb_true_iff in Hc. now rewrite Hc.
Qed.

Lemma re_split_digits_prefix d : forall s t rest,
  all_digits d = true -> d <> "" ->
  re_split_digits s = t :: rest ->
  t <> "" \/ rest = [] ->
  re_split_digits (d ++ s) = "" :: d :: t :: rest.
Proof.
  induction d as [|c d IH]; intros s t rest Hd Hne Hs Hshape;
    [contradiction|].
  unfold all_digits in Hd. simpl in Hd.
  apply andb_true_iff in Hd as [Hc Hd].
  destruct d as [|c' d'].
  - simpl. rewrite Hs, Hc.
    destruct t; [|reflexivity].
    destruct Hshape as [Ht | ->]; [contradiction | reflexivity].
  - change (re_split_digits (String c (String c' d' ++ s))
            = "" :: String c (String c' d') :: t :: rest).
    cbn [re_split_digits].
    change (String c' (d' ++ s))%string with (String c' d' ++ s)%string.
    rewrite (IH s t rest Hd ltac:(discriminate) Hs Hshape), Hc.
    reflexivity.
Qed.

Lemma formula_tokens_shape d :
  clean_keys d ->
  exists t rest, formula_tokens d = t :: rest /\ (t <> "" \/ rest = []).
Proof.
  destruct d as [|[k n] d]; intros Hk; simpl.
  - exists "", []. split; [reflexivity | now right].
  - eexists _, _. split; [reflexivity|]. left.
    inversion Hk as [|? ? [_ Hne] _]; subst.
    simpl in Hne. destruct k; [contradiction | discriminate].
Qed.

Lemma re_split_formula d :
  no_zero d -> clean_keys d ->
  re_split_digits (formula_of d) = formula_tokens d.
Proof.
  induction d as [|[k n] d IH]; intros Hz Hk; [reflexivity|].
  inversion Hz as [|? ? Hn Hz']; subst.
  inversion Hk as [|? ? [Hdf Hne] Hk']; subst.
  simpl in Hn, Hdf, Hne.
  specialize (IH Hz' Hk').
  destruct (formula_tokens_shape d Hk') as (t & rest & Et & Hshape).
  cbn [formula_of formula_tokens]. rewrite Et in *.
  destruct n as [|p|p]; [contradiction| |].
  - rewrite numeral_pos. cbn [Z.ltb Z.compare Z.abs].
    rewrite numeral_pos.
    apply re_split_text_prefix; [assumption|].
    apply re_split_digits_prefix;
      auto using udigits_all_digits, udigits_nonempty.
  - rewrite numeral_neg. cbn [Z.ltb Z.compare Z.abs].
    rewrite numeral_pos.
    change (k ++ String "-" (udigits p) ++ formula_of d)%string
      with (k ++ "-" ++ (udigits p ++ formula_of d))%string.
    rewrite <- str_app_assoc.
    rewrite <- (str_app_nil_r (k ++ "-")) at 2.
    apply re_split_text_prefix.
    + unfold digit_free in *. now rewrite all_chars_app, Hdf.
    + apply re_split_digits_prefix;
        auto using udigits_all_digits, udigits_nonempty.
Qed.

Lemma ends_with_minus_app k : ends_with_minus (k ++ "-") = true.
Proof.
  unfold ends_with_minus. now rewrite str_last_app_char.
Qed.

Lemma app_minus_nonempty k : String.eqb (k ++ "-") "" = false.
Proof.
  apply String.eqb_neq. destruct k; discriminate.
Qed.

Lemma mark_negative_formula d : forall i_i negative,
  Nat.odd i_i = false ->
  no_zero d -> clean_keys d ->
  sign_coherent_from negative d = true ->
  mark_negative i_i negative (formula_tokens d) = int_tokens d.
Proof.
  induction d as [|[k n] d IH]; intros i_i neg Hi Hz Hk Hs.
  - simpl. now rewrite Hi.
  - inversion Hz as [|? ? Hn Hz']; subst.
    inversion Hk as [|? ? [Hdf Hne] Hk']; subst.
    simpl in Hn, Hdf, Hne.
    assert (Hi' : Nat.odd (S (S i_i)) = false)
      by now rewrite Nat.odd_succ_succ.
    cbn [formula_tokens int_tokens sign_coherent_from] in *.
    destruct n as [|p|p]; [contradiction| |];
      cbn [Z.eqb Z.ltb Z.compare Z.abs] in *.
    + apply andb_true_iff in Hs as [Hs Hrest].
      apply andb_true_iff in Hs as [Hneg Hminus].
      apply negb_true_iff in Hneg, Hminus. subst neg.
      rewrite str_app_nil_r, numeral_pos.
      rewrite mark_negative_pair
        by auto using udigits_all_digits, udigits_nonempty.
      cbv zeta. rewrite Hminus, andb_false_r. cbn [orb].
      now rewrite (IH _ _ Hi' Hz' Hk' Hrest).
    + rewrite numeral_pos, numeral_neg.
      rewrite mark_negative_pair
        by auto using udigits_all_digits, udigits_nonempty.
      cbv zeta.
      rewrite ends_with_minus_app, app_minus_nonempty. cbn [negb andb].
      rewrite orb_true_r, str_init_app_char.
      now rewrite (IH _ _ Hi' Hz' Hk' Hs).
Qed.

Lemma int_tokens_odd d : Nat.odd (List.length (int_tokens d)) = true.
Proof.
  induction d as [|[k n] d IH]; [reflexivity|].
  cbn [int_tokens List.length]. now rewrite Nat.odd_succ_succ.
Qed.

Lemma fill_counts_int_tokens d : counts_within_limit d -> forall acc,
  NoDup (dict_keys acc ++ dict_keys d) ->
  ~ In "" (dict_keys acc ++ dict_keys d) ->
  fill_counts (int_tokens d ++ ["1"]) acc = Ret (acc ++ d ++ [("", 1)]).
Proof.
  induction d as [|[k n] d IH]; intros Hd acc Hnd Hne.
  - cbn [int_tokens app fill_counts].
    change (py_int "1") with (Ret (A := Z) 1). cbn [bind].
    rewrite dict_set_fresh; [reflexivity|].
    intros Hin. apply Hne. simpl. rewrite app_nil_r. exact Hin.
  - inversion Hd as [|? ? Hn Hd']; subst. simpl in Hn.
    cbn [int_tokens app fill_counts]. rewrite (py_int_numeral _ Hn).
    cbn [bind].
    simpl in Hnd, Hne.
    rewrite dict_set_fresh.
    + rewrite IH.
      * now rewrite <- app_assoc.
      * exact Hd'.
      * unfold dict_keys. rewrite map_app, <- app_assoc. exact Hnd.
      * unfold dict_keys. rewrite map_app, <- app_assoc. exact Hne.
    + apply NoDup_remove_2 in Hnd. intros Hin. apply Hnd.
      apply in_or_app. now left.
Qed.

Lemma form_to_comp_formula d :
  no_zero d -> clean_keys d -> NoDup (dict_keys d) ->
  sign_coherent d = true -> counts_within_limit d ->
  form_to_comp (formula_of d) = Ret d.
Proof.
  intros Hz Hk Hnd Hs Hl. unfold form_to_comp.
  rewrite re_split_formula by assumption.
  rewrite mark_negative_formula by (try assumption; reflexivity).
  rewrite int_tokens_odd.
  assert (Hne : ~ In "" (dict_keys d)).
  { intros Hin. unfold clean_keys in Hk. rewrite Forall_forall in Hk.
    destruct (Hk _ Hin) as [_ H]. now apply H. }
  rewrite fill_counts_int_tokens by assumption.
  cbn [bind app]. unfold dict_mem.
  rewrite dict_get_last by assumption.
  now rewrite dict_del_last.
Qed.

(** What [form_to_comp] returns is a dictionary: no key twice, no empty
    key, no digit in a key. *)

Lemma fill_counts_keys l :
  well_split l ->
  forall i_i negative counts c,
    Nat.odd i_i = false ->
    fill_counts (mark_negative i_i negative l ++ ["1"]) counts = Ret c ->
    NoDup (dict_keys counts) ->
    Forall (fun k => digit_free k = true) (dict_keys counts) ->
    NoDup (dict_keys c) /\ Forall (fun k => digit_free k = true) (dict_keys c).
Proof.
  induction 1 as [t Ht | t d rest Ht Hd Hne Hrest IH];
    intros i_i neg counts c Hi Hc Hnd Hdf.
  - rewrite mark_negative_last in Hc by assumption.
    simpl in Hc. injection Hc as <-.
    split; [now apply dict_set_NoDup|].
    apply dict_set_Forall; [|assumption].
    destruct (_ && _); [now apply str_init_all_chars | assumption].
  - rewrite mark_negative_pair in Hc by assumption. cbv zeta in Hc.
    cbn [app fill_counts] in Hc.
    destruct (py_int _) as [n|e]; [|discriminate]. cbn [bind] in Hc.
    eapply (IH (S (S i_i))); [ | exact Hc | | ].
    + now rewrite Nat.odd_succ_succ.
    + now apply dict_set_NoDup.
    + apply dict_set_Forall; [|assumption].
      destruct (_ && _); [now apply str_init_all_chars | assumption].
Qed.

Lemma form_to_comp_keys s d :
  form_to_comp s = Ret d -> NoDup (dict_keys d) /\ clean_keys d.
Proof.
  unfold form_to_comp.
  pose proof (re_split_digits_well_split s) as Hw.
  rewrite mark_negative_length, (well_split_odd _ Hw).
  destruct (fill_counts _ _) as [c|e] eqn:Hc; [|discriminate].
  cbn [bind]. intros [= <-].
  destruct (fill_counts_keys _ Hw 0%nat false [] c eq_refl Hc) as [Hnd Hdf];
    [constructor | constructor |].
  unfold clean_keys, dict_mem.
  destruct (dict_get "" c) as [v|] eqn:Hg.
  - destruct (dict_del_NoDup "" c Hnd) as [Hnd' Hout].
    split; [assumption|].
    rewrite Forall_forall in *. intros k Hin. split.
    + apply Hdf. now apply dict_del_incl in Hin.
    + intros ->. contradiction.
  - apply dict_get_None in Hg. split; [assumption|].
    rewrite Forall_forall in *. intros k Hin. split.
    + now apply Hdf.
    + intros ->. contradiction.
Qed.

Lemma nonzero_no_zero d : no_zero (nonzero d).
Proof.
  unfold no_zero, nonzero. apply Forall_forall. intros [k n] Hin.
  apply filter_In in Hin as [_ Hn]. simpl in *.
  apply negb_true_iff, Z.eqb_neq in Hn. exact Hn.
Qed.

Lemma nonzero_keys_incl d k :
  In k (dict_keys (nonzero d)) -> In k (dict_keys d).
Proof.
  unfold dict_keys, nonzero. rewrite !in_map_iff.
  intros (x & <- & Hin). apply filter_In in Hin as [Hin _]. eauto.
Qed.

Lemma nonzero_NoDup d : NoDup (dict_keys d) -> NoDup (dict_keys (nonzero d)).
Proof.
  induction d as [|[k n] d IH]; simpl; intros Hnd; [constructor|].
  inversion Hnd as [|? ? Hout Hnd']; subst.
  destruct (negb (n =? 0)); simpl; [|now apply IH].
  constructor; [|now apply IH].
  intros Hin. apply Hout. now apply nonzero_keys_incl.
Qed.

Lemma nonzero_clean_keys d : clean_keys d -> clean_keys (nonzero d).
Proof.
  unfold clean_keys. rewrite !Forall_forall. intros H k Hin.
  apply H. now apply nonzero_keys_incl.
Qed.

Lemma nonzero_sign_coherent d : forall negative,
  sign_coherent_from negative (nonzero d) = sign_coherent_from negative d.
Proof.
  induction d as [|[k n] d IH]; intros neg; [reflexivity|].
  simpl. destruct (Z.eqb n 0) eqn:E; simpl; [apply IH|].
  rewrite E. destruct (Z.ltb n 0); now rewrite IH.
Qed.

Lemma nonzero_count d k :
  NoDup (dict_keys d) -> dict_count (nonzero d) k = dict_count d k.
Proof.
  unfold dict_count.
  induction d as [|[k' n] d IH]; intros Hnd; [reflexivity|].
  inversion Hnd as [|? ? Hout Hnd']; subst.
  simpl. destruct (Z.eqb_spec n 0) as [-> | Hn]; simpl.
  - destruct (String.eqb_spec k' k) as [-> | Hk].
    + assert (Hg : dict_get k (nonzero d) = None).
      { apply dict_get_None. intros Hin. apply Hout.
        now apply nonzero_keys_incl. }
      now rewrite Hg.
    + now apply IH.
  - destruct (String.eqb k' k); [reflexivity | now apply IH].
Qed.

(** The counts that [form_to_comp] returns are within the limit of
    [str]. *)

Lemma dict_set_within k n (d : dict Z) :
  within_digit_limit n -> counts_within_limit d ->
  counts_within_limit (dict_set k n d).
Proof.
  unfold counts_within_limit. intros Hn.
  induction d as [|[k' n'] d IH]; cbn [dict_set]; intros Hd.
  - now repeat constructor.
  - inversion Hd as [|? ? Hn' Hd']; subst.
    destruct (String.eqb k' k); constructor; auto.
Qed.

Lemma dict_del_within k (d : dict Z) :
  counts_within_limit d -> counts_within_limit (dict_del k d).
Proof.
  unfold counts_within_limit.
  induction d as [|[k' n'] d IH]; cbn [dict_del]; intros Hd; [constructor|].
  inversion Hd as [|? ? Hn' Hd']; subst.
  destruct (String.eqb k' k); [assumption | constructor; auto].
Qed.

Lemma fill_counts_within l : forall counts c,
  fill_counts l counts = Ret c ->
  counts_within_limit counts -> counts_within_limit c.
Proof.
  assert (H : forall n l, (List.length l <= n)%nat ->
    forall counts c, fill_counts l counts = Ret c ->
      counts_within_limit counts -> counts_within_limit c).
  { induction n as [|n IH]; intros l0 Hlen counts c;
      destruct l0 as [|k [|v rest]]; cbn [fill_counts];
      try (now intros [= <-]); simpl in Hlen; try lia.
    destruct (py_int v) as [m|e] eqn:En; [|discriminate]. cbn [bind].
    intros Hc Hcounts. apply (IH rest) with (counts := dict_set k m counts).
    - lia.
    - exact Hc.
    - apply dict_set_within; [|assumption]. eapply py_int_within. exact En. }
  intros counts c. now apply (H (List.length l)).
Qed.

Lemma form_to_comp_within s d :
  form_to_comp s = Ret d -> counts_within_limit d.
Proof.
  unfold form_to_comp.
  destruct (fill_counts _ _) as [c|e] eqn:Hc; [|discriminate].
  cbn [bind]. intros [= <-].
  assert (Hw : counts_within_limit c)
    by (eapply fill_counts_within; [exact Hc | constructor]).
  destruct (dict_mem "" c); [now apply dict_del_within | exact Hw].
Qed.

Lemma roundtrip_nonzero s d :
  form_to_comp s = Ret d ->
  sign_coherent d = true ->
  (formula <- comp_to_formula d ;; form_to_comp formula) = Ret (nonzero d).
Proof.
  intros Hs Hc.
  destruct (form_to_comp_keys _ _ Hs) as [Hnd Hk].
  pose proof (form_to_comp_within _ _ Hs) as Hw.
  rewrite (comp_to_formula_nonzero _ Hw). cbn [bind].
  apply form_to_comp_formula.
  - apply nonzero_no_zero.
  - now apply nonzero_clean_keys.
  - now apply nonzero_NoDup.
  - unfold sign_coherent. now rewrite nonzero_sign_coherent.
  - now apply counts_within_limit_nonzero.
Qed.

(** ** Adduct combinations *)

Lemma opt_eqb_eq a b : opt_eqb a b = true <-> a = b.
Proof.
  destruct a as [x|], b as [y|]; simpl; try (split; congruence).
  rewrite Z.eqb_eq. split; congruence.
Qed.

Lemma dict_eqb_spec d1 d2 :
  dict_eqb d1 d2 = true <-> forall k, dict_get k d1 = dict_get k d2.
Proof.
  unfold dict_eqb. rewrite forallb_forall. split.
  - intros H k.
    destruct (in_dec string_dec k (dict_keys d1 ++ dict_keys d2)) as [Hin|Hout].
    + now apply opt_eqb_eq, H.
    + assert (H1 : ~ In k (dict_keys d1)) by (intros ?; apply Hout, in_or_app; tauto).
      assert (H2 : ~ In k (dict_keys d2)) by (intros ?; apply Hout, in_or_app; tauto).
      apply dict_get_None in H1, H2. congruence.
  - intros H k _. now apply opt_eqb_eq.
Qed.

Lemma dict_eqb_refl d : dict_eqb d d = true.
Proof. now apply dict_eqb_spec. Qed.

Lemma dict_eqb_trans_l x y z :
  dict_eqb y x = true -> dict_eqb y z = dict_eqb x z.
Proof.
  intros Hyx. rewrite dict_eqb_spec in Hyx.
  destruct (dict_eqb x z) eqn:E.
  - rewrite dict_eqb_spec in *. intros k. now rewrite Hyx.
  - destruct (dict_eqb y z) eqn:E'; [|reflexivity].
    rewrite <- E. symmetry. rewrite dict_eqb_spec in *.
    intros k. now rewrite <- Hyx.
Qed.

(** *** The combinations *)

Lemma combinations_length {A : Type} r : forall (l : list A) t,
  In t (combinations_with_replacement r l) -> List.length t = r.
Proof.
  induction r as [|r IH]; intros l t; simpl.
  - intros [<- | []]. reflexivity.
  - induction l as [|x l IHl]; [intros []|].
    rewrite in_app_iff, in_map_iff.
    intros [(t' & <- & Hin) | Hin].
    + simpl. f_equal. exact (IH _ _ Hin).
    + now apply IHl.
Qed.

Lemma total_abs_app d1 d2 : total_abs (d1 ++ d2) = total_abs d1 + total_abs d2.
Proof.
  unfold total_abs. induction d1 as [|[k n] d1 IH]; simpl; [reflexivity|].
  rewrite IH. lia.
Qed.

Lemma total_abs_set_new k v d :
  dict_get k d = None -> total_abs (dict_set k v d) = total_abs d + Z.abs v.
Proof.
  intros H. apply dict_get_None in H.
  rewrite dict_set_fresh by assumption.
  rewrite total_abs_app. unfold total_abs. simpl. lia.
Qed.

Lemma total_abs_set_old k v n d :
  dict_get k d = Some n ->
  total_abs (dict_set k v d) = total_abs d - Z.abs n + Z.abs v.
Proof.
  unfold total_abs.
  induction d as [|[k' n'] d IH]; simpl; [discriminate|].
  destruct (String.eqb k' k); simpl.
  - intros [= ->]. lia.
  - intros H. rewrite (IH H). lia.
Qed.

Lemma count_adduct_spec max_charge d j :
  same_sign max_charge d ->
  same_sign max_charge (count_adduct max_charge d j)
  /\ total_abs (count_adduct max_charge d j) = total_abs d + 1.
Proof.
  intros Hs. unfold count_adduct, same_sign, unit_charge in *.
  destruct (dict_get j d) as [n|] eqn:Hg.
  - specialize (Hs _ _ Hg) as Hn.
    destruct (0 <? max_charge); split;
      try (rewrite (total_abs_set_old _ _ _ _ Hg); lia);
      intros k n' Hk;
      (destruct (string_dec j k) as [-> | Hne];
       [ rewrite dict_get_set_same in Hk; injection Hk as <-; lia
       | rewrite dict_get_set_other in Hk by assumption; now apply (Hs k) ]).
  - destruct (0 <? max_charge); split;
      try (rewrite (total_abs_set_new _ _ _ Hg); lia);
      intros k n' Hk;
      (destruct (string_dec j k) as [-> | Hne];
       [ rewrite dict_get_set_same in Hk; injection Hk as <-; lia
       | rewrite dict_get_set_other in Hk by assumption; now apply (Hs k) ]).
Qed.

Lemma combo_fold_total max_charge t : forall d,
  same_sign max_charge d ->
  total_abs (fold_left (count_adduct max_charge) t d)
  = total_abs d + Z.of_nat (List.length t).
Proof.
  induction t as [|j t IH]; intros d Hs.
  - simpl. lia.
  - cbn [fold_left List.length].
    destruct (count_adduct_spec max_charge d j Hs) as [Hs' Ht].
    rewrite (IH _ Hs'), Ht. lia.
Qed.

Lemma combo_to_dict_total max_charge t :
  total_abs (combo_to_dict max_charge t) = Z.of_nat (List.length t).
Proof.
  unfold combo_to_dict. rewrite combo_fold_total; [reflexivity|].
  intros k n. discriminate.
Qed.

(** *** The removal loops *)

Lemma exceeds_maximum_false adducts i js :
  exceeds_maximum adducts i js = Ret false ->
  forall j, In j js ->
    exists n m, dict_get j i = Some n /\ dict_get j adducts = Some m
                /\ Z.abs n <= Z.abs m.
Proof.
  induction js as [|j0 js IH]; simpl; [intros _ j []|].
  unfold dict_item.
  destruct (dict_get j0 i) as [n|] eqn:Hn; [|discriminate].
  destruct (dict_get j0 adducts) as [m|] eqn:Hm; [|discriminate].
  cbn [bind]. destruct (Z.ltb_spec (Z.abs m) (Z.abs n)) as [Hlt|Hle];
    [discriminate|].
  intros Hrest j [<- | Hin]; [eauto | now apply IH].
Qed.

Lemma list_remove_occurrences x l l' :
  list_remove x l = Ret l' ->
  forall z, occurrences z l
            = (occurrences z l' + if dict_eqb x z then 1 else 0)%nat.
Proof.
  unfold occurrences. revert l'.
  induction l as [|y l IH]; intros l'; simpl; [discriminate|].
  destruct (dict_eqb y x) eqn:Eyx.
  - intros [= <-] z. rewrite <- (dict_eqb_trans_l _ _ z Eyx).
    destruct (dict_eqb y z); simpl; lia.
  - destruct (list_remove x l) as [l''|e]; [|discriminate].
    cbn [bind]. intros [= <-] z. simpl.
    specialize (IH _ eq_refl z).
    destruct (dict_eqb y z); simpl; lia.
Qed.

Lemma list_remove_incl x l l' :
  list_remove x l = Ret l' -> forall c, In c l' -> In c l.
Proof.
  revert l'. induction l as [|y l IH]; intros l'; simpl; [discriminate|].
  destruct (dict_eqb y x).
  - intros [= <-] c Hc. now right.
  - destruct (list_remove x l) as [l''|e]; [|discriminate].
    cbn [bind]. intros [= <-] c [<- | Hc]; [now left|].
    right. now apply (IH _ eq_refl).
Qed.

Lemma remove_all_occurrences to_remove : forall l l',
  remove_all to_remove l = Ret l' ->
  forall z, occurrences z l = (occurrences z l' + occurrences z to_remove)%nat.
Proof.
  induction to_remove as [|i tr IH]; intros l l'; simpl.
  - intros [= <-] z. unfold occurrences at 3. simpl. lia.
  - destruct (list_remove i l) as [l1|e] eqn:E; [|discriminate].
    cbn [bind]. intros H z.
    rewrite (list_remove_occurrences _ _ _ E z), (IH _ _ H z).
    unfold occurrences at 4. simpl.
    destruct (dict_eqb i z); simpl; fold (occurrences z tr); lia.
Qed.

Lemma remove_all_incl to_remove : forall l l',
  remove_all to_remove l = Ret l' -> forall c, In c l' -> In c l.
Proof.
  induction to_remove as [|i tr IH]; intros l l'; simpl.
  - now intros [= <-].
  - destruct (list_remove i l) as [l1|e] eqn:E; [|discriminate].
    cbn [bind]. intros H c Hc.
    eapply list_remove_incl; [exact E|]. now apply (IH _ _ H).
Qed.

Lemma occurrences_app z l1 l2 :
  occurrences z (l1 ++ l2) = (occurrences z l1 + occurrences z l2)%nat.
Proof.
  unfold occurrences. now rewrite filter_app, length_app.
Qed.

(** Either every element equal to [z] was listed for removal, or one of
    them is within the maxima and not excluded. *)
Lemma collect_to_remove_occurrences adducts exclusions l : forall to_remove,
  collect_to_remove adducts exclusions l = Ret to_remove ->
  forall z,
    (occurrences z l <= occurrences z to_remove)%nat
    \/ exists y, In y l /\ dict_eqb y z = true
                 /\ exceeds_maximum adducts y (dict_keys y) = Ret false
                 /\ excluded exclusions y = false.
Proof.
  induction l as [|i l IH]; intros tr; simpl.
  - intros [= <-] z. left. reflexivity.
  - destruct (exceeds_maximum adducts i (dict_keys i)) as [over|e] eqn:Eo;
      [|discriminate].
    destruct (collect_to_remove adducts exclusions l) as [tr'|e];
      [|discriminate].
    cbn [bind]. intros [= <-] z.
    destruct (IH _ eq_refl z) as [Hle | (y & Hy & Hyz & Hex & Hexcl)];
      [|right; exists y; tauto].
    rewrite !occurrences_app.
    destruct (dict_eqb i z) eqn:Eiz.
    + destruct over.
      * left. unfold occurrences at 1 2. simpl. rewrite Eiz. simpl.
        fold (occurrences z l). lia.
      * destruct (excluded exclusions i) eqn:Ex.
        -- left. unfold occurrences at 1 2 3. simpl. rewrite Eiz. simpl.
           fold (occurrences z l). lia.
        -- right. exists i. tauto.
    + left. unfold occurrences at 1. simpl. rewrite Eiz.
      fold (occurrences z l). lia.
Qed.

Lemma gen_adducts_combo_survivor adducts exclusions max_charge res c :
  gen_adducts_combo adducts exclusions max_charge = Ret res ->
  In c res ->
  within_maxima adducts c
  /\ 1 <= total_abs c <= Z.abs max_charge
  /\ excluded exclusions c = false.
Proof.
  unfold gen_adducts_combo.
  set (L := map _ _).
  destruct (collect_to_remove adducts exclusions L) as [tr|e] eqn:Ec;
    [|discriminate].
  cbn [bind]. intros Hr Hc.
  assert (HcL : In c L) by (eapply remove_all_incl; eassumption).
  pose proof (remove_all_occurrences _ _ _ Hr c) as Hocc.
  assert (Hpos : (1 <= occurrences c res)%nat).
  { unfold occurrences. apply in_split in Hc as (l1 & l2 & ->).
    rewrite filter_app, length_app. simpl. rewrite dict_eqb_refl.
    simpl. lia. }
  destruct (collect_to_remove_occurrences _ _ _ _ Ec c)
    as [Hle | (y & Hy & Hyc & Hex & Hexcl)]; [lia|].
  rewrite dict_eqb_spec in Hyc.
  split; [|split].
  - intros k n Hk. rewrite <- Hyc in Hk.
    assert (Hin : In k (dict_keys y)).
    { destruct (in_dec string_dec k (dict_keys y)) as [H|H]; [exact H|].
      apply dict_get_None in H. congruence. }
    destruct (exceeds_maximum_false _ _ _ Hex _ Hin) as (n' & m & Hn & Hm & Hle).
    exists m. split; [assumption|]. congruence.
  - subst L. apply in_map_iff in HcL as (t & <- & Ht).
    apply in_flat_map in Ht as (i & Hi & Ht).
    apply combinations_length in Ht. apply in_seq in Hi.
    rewrite combo_to_dict_total, Ht. lia.
  - destruct (excluded exclusions c) eqn:E; [|reflexivity].
    rewrite <- Hexcl. symmetry. unfold excluded in *.
    apply existsb_exists in E as (x & Hx & Hxc).
    apply existsb_exists. exists x. split; [assumption|].
    rewrite dict_eqb_spec in *. intros k. now rewrite Hyc.
Qed.

(** *** When the call returns *)

Lemma occurrences_cons z i l :
  occurrences z (i :: l)
  = ((if dict_eqb i z then 1 else 0) + occurrences z l)%nat.
Proof.
  unfold occurrences. simpl. destruct (dict_eqb i z); reflexivity.
Qed.

Lemma list_remove_returns x l :
  (1 <= occurrences x l)%nat -> exists l', list_remove x l = Ret l'.
Proof.
  induction l as [|y l IH]; intros H.
  - unfold occurrences in H. simpl in H. lia.
  - simpl. rewrite occurrences_cons in H.
    destruct (dict_eqb y x); [eexists; reflexivity|].
    destruct (IH H) as [l' ->]. eexists; reflexivity.
Qed.

Lemma remove_all_returns to_remove : forall l,
  (forall z, (occurrences z to_remove <= occurrences z l)%nat) ->
  exists res, remove_all to_remove l = Ret res.
Proof.
  induction to_remove as [|i tr IH]; intros l H; simpl.
  - eexists; reflexivity.
  - destruct (list_remove_returns i l) as [l' E].
    { specialize (H i). rewrite occurrences_cons, dict_eqb_refl in H. lia. }
    rewrite E. cbn [bind]. apply IH. intros z.
    specialize (H z). rewrite occurrences_cons in H.
    rewrite (list_remove_occurrences _ _ _ E z) in H.
    destruct (dict_eqb i z); lia.
Qed.

Lemma exceeds_maximum_true adducts i js :
  exceeds_maximum adducts i js = Ret true ->
  exists j n m, dict_get j i = Some n /\ dict_get j adducts = Some m
                /\ Z.abs m < Z.abs n.
Proof.
  induction js as [|j0 js IH]; simpl; [discriminate|].
  unfold dict_item.
  destruct (dict_get j0 i) as [n|] eqn:Hn; [|discriminate].
  destruct (dict_get j0 adducts) as [m|] eqn:Hm; [|discriminate].
  cbn [bind]. destruct (Z.ltb_spec (Z.abs m) (Z.abs n)) as [Hlt|Hle];
    [intros _; exists j0, n, m; auto | exact IH].
Qed.

Lemma exceeds_maximum_returns adducts i js :
  incl js (dict_keys i) -> incl js (dict_keys adducts) ->
  exists b, exceeds_maximum adducts i js = Ret b.
Proof.
  induction js as [|j js IH]; intros Hi Ha; simpl.
  - eexists; reflexivity.
  - unfold dict_item.
    destruct (dict_get j i) as [n|] eqn:Hn.
    2:{ apply dict_get_None in Hn. exfalso. apply Hn, Hi. now left. }
    destruct (dict_get j adducts) as [m|] eqn:Hm.
    2:{ apply dict_get_None in Hm. exfalso. apply Hm, Ha. now left. }
    cbn [bind]. destruct (Z.abs m <? Z.abs n); [eexists; reflexivity|].
    apply IH; intros x Hx; [apply Hi | apply Ha]; now right.
Qed.

Lemma combinations_incl {A : Type} r : forall (l : list A) t,
  In t (combinations_with_replacement r l) -> incl t l.
Proof.
  induction r as [|r IH]; intros l t; simpl.
  - intros [<- | []] x [].
  - induction l as [|x l IHl]; [intros []|].
    rewrite in_app_iff, in_map_iff.
    intros [(t' & <- & Hin) | Hin] y Hy.
    + destruct Hy as [<- | Hy]; [now left | exact (IH _ _ Hin _ Hy)].
    + right. exact (IHl Hin _ Hy).
Qed.

Lemma combo_fold_keys max_charge t : forall d,
  incl (dict_keys (fold_left (count_adduct max_charge) t d))
       (dict_keys d ++ t).
Proof.
  induction t as [|j t IH]; intros d x Hx; simpl in *.
  - now rewrite app_nil_r.
  - apply IH in Hx. apply in_app_iff in Hx as [Hx | Hx].
    + assert (Hk : forall v, In x (dict_keys (dict_set j v d)) ->
                             In x (dict_keys d ++ j :: t)).
      { intros v Hv. destruct (dict_keys_set j v d) as [E | [_ E]];
          rewrite E in Hv.
        - apply in_or_app. now left.
        - apply in_app_iff in Hv as [Hv | [<- | []]];
            apply in_or_app; [now left | right; now left]. }
      unfold count_adduct in Hx.
      destruct (dict_get j d), (0 <? max_charge); eapply Hk; exact Hx.
    + apply in_or_app. right. now right.
Qed.

Lemma collect_to_remove_returns adducts exclusions l :
  (forall i, In i l -> incl (dict_keys i) (dict_keys adducts)) ->
  exists to_remove, collect_to_remove adducts exclusions l = Ret to_remove.
Proof.
  induction l as [|i l IH]; intros Hk; simpl.
  - eexists; reflexivity.
  - destruct (exceeds_maximum_returns adducts i (dict_keys i)) as [b ->].
    + apply incl_refl.
    + apply Hk. now left.
    + destruct IH as [tr ->]; [intros; apply Hk; now right|].
      eexists; reflexivity.
Qed.

Lemma collect_to_remove_once adducts exclusions l : forall to_remove,
  collect_to_remove adducts exclusions l = Ret to_remove ->
  (forall i, In i l ->
     exceeds_maximum adducts i (dict_keys i) = Ret true ->
     excluded exclusions i = false) ->
  forall z, (occurrences z to_remove <= occurrences z l)%nat.
Proof.
  induction l as [|i l IH]; intros tr; simpl.
  - intros [= <-] _ z. reflexivity.
  - destruct (exceeds_maximum adducts i (dict_keys i)) as [over|e] eqn:Eo;
      [|discriminate].
    destruct (collect_to_remove adducts exclusions l) as [tr'|e];
      [|discriminate].
    cbn [bind]. intros [= <-] Hone z.
    specialize (IH _ eq_refl (fun i0 H0 => Hone i0 (or_intror H0)) z).
    rewrite !occurrences_app, occurrences_cons.
    destruct over.
    + rewrite (Hone i (or_introl eq_refl) Eo).
      unfold occurrences at 1 2. simpl. destruct (dict_eqb i z); simpl; lia.
    + destruct (excluded exclusions i);
        unfold occurrences at 1 2; simpl; destruct (dict_eqb i z); simpl; lia.
Qed.

(** The call returns whenever every excluded combination is itself within
    the maxima: then no combination is listed twice for removal. *)
Lemma gen_adducts_combo_returns adducts exclusions max_charge :
  Forall (within_maxima adducts) exclusions ->
  exists res, gen_adducts_combo adducts exclusions max_charge = Ret res.
Proof.
  intros Hex. unfold gen_adducts_combo.
  set (L := map _ _).
  assert (Hkeys : forall i, In i L -> incl (dict_keys i) (dict_keys adducts)).
  { intros i Hi. subst L. apply in_map_iff in Hi as (t & <- & Ht).
    apply in_flat_map in Ht as (r & _ & Ht).
    apply combinations_incl in Ht. intros x Hx.
    apply combo_fold_keys in Hx. simpl in Hx. now apply Ht. }
  destruct (collect_to_remove_returns adducts exclusions L Hkeys) as [tr Etr].
  rewrite Etr. cbn [bind]. apply remove_all_returns.
  apply (collect_to_remove_once _ _ _ _ Etr).
  intros i Hi Hover.
  destruct (excluded exclusions i) eqn:E; [|reflexivity].
  unfold excluded in E. apply existsb_exists in E as (e & He & Hei).
  rewrite Forall_forall in Hex. specialize (Hex _ He).
  apply exceeds_maximum_true in Hover as (j & n & m & Hn & Hm & Hlt).
  rewrite dict_eqb_spec in Hei. rewrite <- Hei in Hn.
  destruct (Hex _ _ Hn) as (m' & Hm' & Hle).
  assert (m' = m) by congruence. subst. lia.
Qed.

(** ** Isotopic envelopes: the clumping pass *)

Module IsotopeFacts.

Import Isotopes.
Local Open Scope Q_scope.

Lemma Qlt_bool_true a b : Qlt_bool a b = true -> a < b.
Proof.
  unfold Qlt_bool. intros H. apply negb_true_iff in H.
  apply Qnot_le_lt. intros Hle. apply Qle_bool_iff in Hle. congruence.
Qed.

Lemma Qlt_bool_false a b : Qlt_bool a b = false -> b <= a.
Proof.
  unfold Qlt_bool. intros H. apply negb_false_iff in H.
  now apply Qle_bool_iff.
Qed.

Lemma half (x : Q) : x / 2 == x * (1 # 2).
Proof. reflexivity. Qed.

(** *** Lists changed at their end *)

Lemma apart_snoc gap l x :
  apart gap l -> (l = [] \/ gap <= x - last l 0) -> apart gap (l ++ [x]).
Proof.
  induction l as [|a l IH]; intros Ha Hx; simpl; [tauto|].
  destruct Ha as [Hab Hl]. destruct Hx as [Hx | Hx]; [discriminate|].
  destruct l as [|b l'].
  - simpl in *. tauto.
  - split; [exact Hab|]. apply IH; [exact Hl | now right].
Qed.

Lemma apart_update_last gap f l :
  apart gap l -> last l 0 <= f (last l 0) -> apart gap (update_last f l).
Proof.
  induction l as [|a l IH]; intros Ha Hf; [exact I|].
  destruct Ha as [Hab Hl]. destruct l as [|b l'].
  - simpl. tauto.
  - change (update_last f (a :: b :: l')) with (a :: update_last f (b :: l')).
    change (last (a :: b :: l') 0) with (last (b :: l') 0) in Hf.
    specialize (IH Hl Hf). split; [|exact IH].
    destruct l' as [|c l''].
    + simpl in *. lra.
    + exact Hab.
Qed.

Lemma last_update_last f l :
  l <> [] -> last (update_last f l) 0 = f (last l 0).
Proof.
  induction l as [|a l IH]; intros Hne; [contradiction|].
  destruct l as [|b l']; [reflexivity|].
  change (update_last f (a :: b :: l')) with (a :: update_last f (b :: l')).
  change (last (a :: b :: l') 0) with (last (b :: l') 0).
  rewrite <- IH by discriminate.
  destruct l'; reflexivity.
Qed.

Lemma update_last_length f l :
  List.length (update_last f l) = List.length l.
Proof.
  induction l as [|a l IH]; [reflexivity|].
  destruct l as [|b l']; [reflexivity|].
  change (update_last f (a :: b :: l')) with (a :: update_last f (b :: l')).
  simpl in *. now rewrite IH.
Qed.

Lemma sumQ_snoc l x : sumQ (l ++ [x]) == sumQ l + x.
Proof.
  induction l as [|a l IH]; simpl; [lra|]. rewrite IH. lra.
Qed.

Lemma sumQ_update_last l x :
  l <> [] -> sumQ (update_last (fun a => a + x) l) == sumQ l + x.
Proof.
  induction l as [|a l IH]; intros Hne; [contradiction|].
  destruct l as [|b l']; [simpl; lra|].
  change (update_last (fun a0 => a0 + x) (a :: b :: l'))
    with (a :: update_last (fun a0 => a0 + x) (b :: l')).
  change (sumQ (a :: ?t)) with (a + sumQ t).
  cbn [sumQ fold_right] in *. rewrite IH by discriminate. lra.
Qed.

Lemma sumQ_firstn_S l n :
  (n < List.length l)%nat ->
  sumQ (firstn (S n) l) == sumQ (firstn n l) + nth n l 0.
Proof.
  revert n. induction l as [|a l IH]; intros n Hn; simpl in Hn; [lia|].
  destruct n as [|n].
  - simpl. lra.
  - change (firstn (S (S n)) (a :: l)) with (a :: firstn (S n) l).
    change (firstn (S n) (a :: l)) with (a :: firstn n l).
    cbn [sumQ fold_right nth]. fold (sumQ (firstn (S n) l)).
    fold (sumQ (firstn n l)). rewrite IH by lia. lra.
Qed.

Lemma ascending_nth l : ascending l ->
  forall i, (S i < List.length l)%nat -> nth i l 0 <= nth (S i) l 0.
Proof.
  induction l as [|a l IH]; intros Ha i Hi; simpl in Hi; [lia|].
  destruct Ha as [Hab Hl]. destruct i as [|i].
  - destruct l as [|b l']; [simpl in Hi; lia | exact Hab].
  - apply (IH Hl). lia.
Qed.

(** *** The invariant of the clumping loop *)

Section ClumpInvariant.
Variable h_mass : Q.
Variables relative_isotop_pattern relative_isotop_mass : list Q.
Hypothesis Hsorted : ascending relative_isotop_mass.
Hypothesis Hlen :
  List.length relative_isotop_pattern = List.length relative_isotop_mass.

Local Abbreviation clump_upto :=
  (clump_upto h_mass relative_isotop_pattern relative_isotop_mass).
Local Abbreviation clump_invariant :=
  (clump_invariant h_mass relative_isotop_pattern relative_isotop_mass).

Lemma clump_upto_S n :
  clump_upto (S n)
  = clump_step h_mass relative_isotop_pattern relative_isotop_mass
      (clump_upto n) n.
Proof.
  unfold clump_upto. now rewrite seq_S, fold_left_app.
Qed.

Lemma clump_invariant_upto n :
  (n <= List.length relative_isotop_mass)%nat ->
  clump_invariant n (clump_upto n).
Proof.
  induction n as [|n IH]; intros Hn.
  - unfold clump_upto, clump_invariant. simpl.
    repeat split; try reflexivity; try lia.
  - rewrite clump_upto_S. specialize (IH ltac:(lia)).
    destruct (clump_upto n) as [p m]. unfold clump_invariant in *.
    destruct IH as (Hap & Hl & Hz & Hpos & Hsum).
    assert (Hsum' : sumQ (firstn (S n) relative_isotop_pattern)
                    == sumQ (firstn n relative_isotop_pattern)
                       + nth n relative_isotop_pattern 0)
      by (apply sumQ_firstn_S; lia).
    unfold clump_step.
    destruct n as [|n'].
    + cbn [Nat.eqb]. rewrite (Hz eq_refl) in *.
      destruct p; [|discriminate]. simpl app.
      repeat split; try discriminate; try lia.
      * simpl. lra.
      * rewrite Hsum'. simpl. lra.
    + cbn [Nat.eqb]. destruct (Hpos ltac:(lia)) as [Hne Hlast].
      replace (S n' - 1)%nat with n' in * by lia.
      pose proof (ascending_nth _ Hsorted n' ltac:(lia)) as Hasc.
      set (i := nth (S n') relative_isotop_mass 0) in *.
      set (prev := nth n' relative_isotop_mass 0) in *.
      destruct (Qlt_bool (Qabs (i - prev)) (h_mass / 2)) eqn:Eclose.
      * assert (Hmid : last m 0 <= (last m 0 + i) / 2 /\ (last m 0 + i) / 2 <= i)
          by (rewrite half; lra).
        repeat split; try lia.
        -- apply apart_update_last; tauto.
        -- now rewrite !update_last_length.
        -- destruct m; [contradiction|]. intros E.
           apply (f_equal (@List.length Q)) in E.
           rewrite update_last_length in E. discriminate.
        -- replace (S (S n') - 1)%nat with (S n') by lia.
           rewrite last_update_last by assumption. tauto.
        -- rewrite sumQ_update_last, Hsum', Hsum; [reflexivity|].
           destruct p; [|discriminate].
           destruct m; [contradiction | discriminate].
      * apply Qlt_bool_false in Eclose.
        rewrite (Qabs_pos (i - prev)) in Eclose by lra.
        repeat split; try lia.
        -- apply apart_snoc; [assumption|]. right. lra.
        -- rewrite !length_app. simpl. lia.
        -- destruct m; discriminate.
        -- replace (S (S n') - 1)%nat with (S n') by lia.
           rewrite last_last. fold i. lra.
        -- rewrite sumQ_snoc, Hsum', Hsum. reflexivity.
Qed.

Lemma clump_spec :
  let '(pattern_low_res, mass_low_res) :=
    clump h_mass relative_isotop_pattern relative_isotop_mass in
  apart (h_mass / 2) mass_low_res
  /\ List.length pattern_low_res = List.length mass_low_res
  /\ sumQ pattern_low_res == sumQ relative_isotop_pattern.
Proof.
  pose proof (clump_invariant_upto (List.length relative_isotop_mass)
                (Nat.le_refl _)) as H.
  unfold clump. fold (clump_upto (List.length relative_isotop_mass)).
  destruct (clump_upto _) as [p m]. unfold clump_invariant in H.
  destruct H as (Hap & Hl & _ & _ & Hsum).
  repeat split; try assumption.
  rewrite Hsum, <- Hlen, firstn_all. reflexivity.
Qed.

End ClumpInvariant.

(** Two peaks: merged into one, with the masses averaged and the
    abundances added, when they are less than half a hydrogen mass apart;
    kept as they are otherwise. *)
Lemma clump_two_close_peaks h_mass p0 p1 m0 m1 :
  Qabs (m1 - m0) < h_mass / 2 ->
  clump h_mass [p0; p1] [m0; m1] = ([p0 + p1], [(m0 + m1) / 2]).
Proof.
  intros H. unfold clump. cbn [List.length seq fold_left].
  unfold clump_step at 2. cbn [Nat.eqb nth app].
  unfold clump_step. cbn [Nat.eqb nth Nat.sub].
  assert (E : Qlt_bool (Qabs (m1 - m0)) (h_mass / 2) = true).
  { unfold Qlt_bool. apply negb_true_iff.
    destruct (Qle_bool (h_mass / 2) (Qabs (m1 - m0))) eqn:E; [|reflexivity].
    apply Qle_bool_iff in E. lra. }
  rewrite E. reflexivity.
Qed.

Lemma clump_two_distant_peaks h_mass p0 p1 m0 m1 :
  h_mass / 2 <= Qabs (m1 - m0) ->
  clump h_mass [p0; p1] [m0; m1] = ([p0; p1], [m0; m1]).
Proof.
  intros H. unfold clump. cbn [List.length seq fold_left].
  unfold clump_step at 2. cbn [Nat.eqb nth app].
  unfold clump_step. cbn [Nat.eqb nth Nat.sub].
  assert (E : Qlt_bool (Qabs (m1 - m0)) (h_mass / 2) = false).
  { unfold Qlt_bool. apply negb_false_iff. now apply Qle_bool_iff. }
  rewrite E. reflexivity.
Qed.

(** *** The sorted, normalised lists *)

Lemma insert_by_mz_ascending p l :
  ascending (map mz l) -> ascending (map mz (insert_by_mz p l)).
Proof.
  induction l as [|q l IH]; intros Ha; [simpl; tauto|].
  simpl. destruct (Qle_bool (mz p) (mz q)) eqn:E.
  - apply Qle_bool_iff in E. split; [exact E | exact Ha].
  - assert (Hqp : mz q <= mz p).
    { apply Qlt_le_weak, Qnot_le_lt. intros H.
      apply Qle_bool_iff in H. congruence. }
    destruct Ha as [Hq Hl]. specialize (IH Hl).
    change (ascending (mz q :: map mz (insert_by_mz p l))).
    split; [|exact IH].
    destruct l as [|r l']; [exact Hqp|].
    simpl. simpl in Hq. destruct (Qle_bool (mz p) (mz r)); assumption.
Qed.

Lemma sorted_by_mz_ascending l : ascending (map mz (sorted_by_mz l)).
Proof.
  induction l as [|p l IH]; [exact I|].
  simpl. now apply insert_by_mz_ascending.
Qed.

Lemma relative_lists_spec first_Ab l p m :
  relative_lists first_Ab l = Ret (p, m) ->
  m = map mz l /\ List.length p = List.length m.
Proof.
  revert p m. induction l as [|i l IH]; intros p m; simpl.
  - intros [= <- <-]. split; reflexivity.
  - destruct (Qeq_bool first_Ab 0); [discriminate|].
    destruct (relative_lists first_Ab l) as [[p' m']|e]; [|discriminate].
    cbn [bind fst snd]. intros [= <- <-].
    destruct (IH _ _ eq_refl) as [-> Hl]. split; [reflexivity|].
    simpl. now rewrite Hl.
Qed.

Lemma relative_lists_returns first_Ab l :
  ~ first_Ab == 0 -> exists r, relative_lists first_Ab l = Ret r.
Proof.
  intros Hnz. induction l as [|i l [r IH]]; simpl.
  - eexists; reflexivity.
  - destruct (Qeq_bool first_Ab 0) eqn:E.
    + apply Qeq_bool_iff in E. contradiction.
    + rewrite IH. eexists; reflexivity.
Qed.

Lemma insert_by_mz_In p q l : In p (insert_by_mz q l) -> p = q \/ In p l.
Proof.
  induction l as [|r l IH]; simpl.
  - intros [<- | []]. now left.
  - destruct (Qle_bool (mz q) (mz r)); simpl.
    + intros [<- | H]; [now left | now right].
    + intros [<- | H]; [right; now left|].
      destruct (IH H); [now left | right; now right].
Qed.

Lemma sorted_by_mz_In p l : In p (sorted_by_mz l) -> In p l.
Proof.
  induction l as [|q l IH]; simpl; [tauto|].
  intros H. apply insert_by_mz_In in H as [-> | H]; [now left|].
  right. now apply IH.
Qed.

Lemma Forall2_In_r {A B : Type} (R : A -> B -> Prop) l l' :
  Forall2 R l l' -> forall y, In y l' -> exists x, In x l /\ R x y.
Proof.
  induction 1 as [|x y0 l l' Hxy _ IH]; intros y Hy; [destruct Hy|].
  destruct Hy as [<- | Hy].
  - exists x. split; [now left | exact Hxy].
  - destruct (IH _ Hy) as (x' & Hx' & HR). exists x'.
    split; [now right | exact HR].
Qed.

Lemma Forall2_In_l {A B : Type} (R : A -> B -> Prop) l l' :
  Forall2 R l l' -> forall x, In x l -> exists y, In y l' /\ R x y.
Proof.
  induction 1 as [|x0 y l l' Hxy _ IH]; intros x Hx; [destruct Hx|].
  destruct Hx as [<- | Hx].
  - exists y. split; [now left | exact Hxy].
  - destruct (IH _ Hx) as (y' & Hy' & HR). exists y'.
    split; [now right | exact HR].
Qed.

Section PatternFacts.
Variable isotopic_state : Type.
Variable isotopologues :
  dict Z -> list string -> Q -> list (isotopic_state * Q) * option exn.
Variable calculate_mass : isotopic_state -> pyres Q.
Variable h_mass : Q.

Lemma arrange_returns yielded ending peaks :
  arrange isotopic_state calculate_mass yielded ending = Ret peaks ->
  ending = None
  /\ Forall2 (fun i p => calculate_mass (fst i) = Ret (mz p) /\ Ab p = snd i)
             yielded peaks.
Proof.
  revert peaks. induction yielded as [|i rest IH]; intros peaks; simpl.
  - destruct ending; [discriminate|]. intros [= <-]. now split.
  - destruct (calculate_mass (fst i)) as [m|e] eqn:Em; [|discriminate].
    cbn [bind].
    destruct (arrange _ _ rest ending) as [l|e]; [|discriminate].
    cbn [bind]. intros [= <-]. destruct (IH _ eq_refl) as [He Hf].
    split; [exact He|]. constructor; [now split | exact Hf].
Qed.

Lemma arrange_raises yielded ending e :
  arrange isotopic_state calculate_mass yielded ending = Raise e ->
  ending = Some e
  \/ exists i, In i yielded /\ calculate_mass (fst i) = Raise e.
Proof.
  induction yielded as [|i rest IH]; simpl.
  - destruct ending; [|discriminate]. intros [= <-]. now left.
  - destruct (calculate_mass (fst i)) as [m|e'] eqn:Em; cbn [bind].
    + destruct (arrange _ _ rest ending) as [l|e'']; [discriminate|].
      cbn [bind]. intros [= <-].
      destruct (IH eq_refl) as [H | (j & Hj & Hm)]; [now left|].
      right. exists j. split; [now right | exact Hm].
    + intros [= <-]. right. exists i. split; [now left | exact Em].
Qed.

Lemma arrange_total yielded :
  (forall i, In i yielded -> exists m, calculate_mass (fst i) = Ret m) ->
  exists peaks,
    arrange isotopic_state calculate_mass yielded None = Ret peaks.
Proof.
  induction yielded as [|i rest IH]; intros H; simpl.
  - eexists; reflexivity.
  - destruct (H i (or_introl eq_refl)) as [m ->]. cbn [bind].
    destruct IH as [l ->]; [intros j Hj; apply H; now right|].
    eexists; reflexivity.
Qed.


(** The call returns whenever the iteration of the isotopologues ends
    normally, [mass.calculate_mass] returns on every state and no state
    has abundance 0. *)
Lemma calculate_isotopic_pattern_returns glycan_atoms fast high_res :
  (forall elements threshold,
     snd (isotopologues glycan_atoms elements threshold) = None) ->
  (forall elements threshold st ab,
     In (st, ab) (fst (isotopologues glycan_atoms elements threshold)) ->
     (exists m, calculate_mass st = Ret m) /\ ~ ab == 0) ->
  exists r,
    calculate_isotopic_pattern isotopic_state isotopologues calculate_mass
      h_mass glycan_atoms fast high_res = Ret r.
Proof.
  intros Hend Hab. unfold calculate_isotopic_pattern. cbv zeta.
  set (states := if fast then _ else _).
  assert (Hstates : snd states = None
    /\ forall st ab, In (st, ab) (fst states) ->
         (exists m, calculate_mass st = Ret m) /\ ~ ab == 0).
  { unfold states. destruct fast; (split; [apply Hend | apply Hab]). }
  destruct Hstates as [Hnone Hin]. rewrite Hnone.
  destruct (arrange_total (fst states)) as [peaks Hpeaks].
  { intros [st ab] Hi. now destruct (Hin _ _ Hi). }
  rewrite Hpeaks. cbn [bind].
  destruct (arrange_returns _ _ _ Hpeaks) as [_ Hf].
  set (arranged := sorted_by_mz _).
  assert (Hr : exists r,
    relative_lists (match arranged with p :: _ => Ab p | [] => 0 end)
                   arranged = Ret r).
  { destruct arranged as [|p l] eqn:E; [eexists; reflexivity|].
    apply relative_lists_returns.
    assert (Hp : In p arranged) by (rewrite E; now left).
    unfold arranged in Hp. apply sorted_by_mz_In in Hp.
    destruct (Forall2_In_r _ _ _ Hf _ Hp) as ([st ab] & Hi & _ & Hq).
    rewrite Hq. cbn [snd]. now apply (Hin st ab). }
  destruct Hr as [[p m] ->]. cbn [bind].
  destruct (negb high_res && negb fast); eexists; reflexivity.
Qed.

End PatternFacts.


End IsotopeFacts.

(** ** The tag search always returns *)

Module TagSearchFacts.

Import TagSearch.

Lemma halving_positive n :
  Isotopes.Qlt_bool (inject_Z n / 2) (inject_Z n) = true -> 0 < n.
Proof.
  intros H. apply IsotopeFacts.Qlt_bool_true in H.
  unfold Qlt in H. simpl in H. lia.
Qed.

Lemma search_loop_returns calculate_mass tag_mass fuel :
  forall atoms_number closest,
    (Z.to_nat atoms_number <= fuel)%nat ->
    exists r,
      search_loop calculate_mass tag_mass fuel atoms_number closest = Some r.
Proof.
  induction fuel as [|fuel IH]; intros n closest Hn;
    cbn [search_loop];
    destruct (Isotopes.Qlt_bool (inject_Z n / 2) (inject_Z n)) eqn:E;
    try (eexists; reflexivity).
  - apply halving_positive in E. lia.
  - apply halving_positive in E. apply IH. lia.
Qed.

Lemma calculate_comp_from_mass_returns calculate_mass tag_mass :
  exists r, calculate_comp_from_mass calculate_mass tag_mass = Some r.
Proof.
  unfold calculate_comp_from_mass. apply search_loop_returns. lia.
Qed.

End TagSearchFacts.

(** ** Composition strings: main results *)

(** C2, as the code has it. For a formula string [s] read as [d]: when no
    symbol with a positive count ends in a minus sign and no negative
    count is listed before a positive one, writing [d] and reading the
    formula back gives [d] without its zero counts, in the same order.
    The two dictionaries agree on every symbol once a missing symbol
    counts as 0, and they are the same dictionary when [d] has no zero
    count. *)
Theorem form_to_comp_roundtrip s d :
  form_to_comp s = Ret d ->
  sign_coherent d = true ->
  (formula <- comp_to_formula d ;; form_to_comp formula) = Ret (nonzero d)
  /\ (forall k, dict_count (nonzero d) k = dict_count d k)
  /\ (no_zero d -> nonzero d = d).
Proof.
  intros Hs Hc. split; [now apply (roundtrip_nonzero s)|]. split.
  - intros k. apply nonzero_count.
    now destruct (form_to_comp_keys _ _ Hs).
  - intros Hz. unfold nonzero. apply forallb_filter_id.
    apply forallb_forall. intros [k n] Hin.
    unfold no_zero in Hz. rewrite Forall_forall in Hz.
    specialize (Hz _ Hin). simpl in *.
    now apply negb_true_iff, Z.eqb_neq.
Qed.

Lemma form_to_comp_roundtrip_witness :
  form_to_comp "C6O6N0H12" = Ret [("C", 6); ("O", 6); ("N", 0); ("H", 12)]
  /\ sign_coherent [("C", 6); ("O", 6); ("N", 0); ("H", 12)] = true
  /\ (formula <- comp_to_formula [("C", 6); ("O", 6); ("N", 0); ("H", 12)] ;;
      form_to_comp formula)
     = Ret [("C", 6); ("O", 6); ("H", 12)].
Proof.
  split; [reflexivity|]. split; [reflexivity|].
  exact (proj1 (form_to_comp_roundtrip "C6O6N0H12" _ eq_refl eq_refl)).
Defined.

(** C2 as stated fails on its own example: read back, the formula of
    "C6O6N0H12" has lost the key N, and [==] on dictionaries tells the
    two apart. *)
Lemma form_to_comp_roundtrip_zero_count :
  exists d d',
    form_to_comp "C6O6N0H12" = Ret d
    /\ (formula <- comp_to_formula d ;; form_to_comp formula) = Ret d'
    /\ dict_eqb d' d = false.
Proof.
  eexists _, _. repeat split; reflexivity.
Qed.

(** C6, on the code: the flag [negative] is never cleared, so in "X-2Y3"
    the count of Y is negated as well. *)
Theorem form_to_comp_sign_is_sticky :
  form_to_comp "X-2Y3" = Ret [("X", -2); ("Y", -3)].
Proof. reflexivity. Qed.

(** C8, as the code has it: [form_to_comp] has no format error and never
    fails on tokens that cannot be paired. The token list always has an
    odd length and gets a final "1", so every text token is paired: a
    trailing symbol counts 1, and text without a symbol is dropped with
    the empty key. A string is read into a dictionary whenever none of
    its runs of digits is longer than [int_max_str_digits]; on a longer
    run [int] raises [ValueError]. *)
Theorem form_to_comp_pairs_every_token :
  (forall s, longest_digit_run s <= int_max_str_digits ->
             exists d, form_to_comp s = Ret d)
  /\ (forall s, int_max_str_digits < longest_digit_run s ->
                form_to_comp s = Raise ValueError)
  /\ form_to_comp "C6O" = Ret [("C", 6); ("O", 1)]
  /\ form_to_comp "12" = Ret []
  /\ form_to_comp "6C-" = Ret [("C", 1)]
  /\ form_to_comp ("C" ++ long_numeral) = Raise ValueError.
Proof.
  split; [exact form_to_comp_total|].
  split; [exact form_to_comp_long|].
  split; [reflexivity|]. split; [reflexivity|]. split; [reflexivity|].
  apply form_to_comp_long.
  change ("C" ++ long_numeral)%string with (String "C" long_numeral).
  pose proof (longest_digit_run_cons "C" long_numeral) as H1.
  pose proof (leading_le_longest long_numeral) as H2.
  unfold long_numeral in H2 at 1. rewrite leading_digits_ones in H2.
  assert (H3 : int_max_str_digits < Z.of_nat 4301)
    by (vm_compute; reflexivity).
  lia.
Qed.

(** C8 as stated fails: the strings whose tokens do not pair up are read
    into a dictionary, and a string on which [form_to_comp] raises holds
    a run of more than [int_max_str_digits] digits, whose error is the
    [ValueError] of [int]. *)
Lemma form_to_comp_no_format_error :
  form_to_comp "C6O" = Ret [("C", 6); ("O", 1)]
  /\ form_to_comp "12" = Ret []
  /\ forall s e,
       form_to_comp s = Raise e ->
       e = ValueError /\ int_max_str_digits < longest_digit_run s.
Proof.
  split; [reflexivity|]. split; [reflexivity|].
  intros s e H.
  destruct (Z.le_gt_cases (longest_digit_run s) int_max_str_digits)
    as [Hle | Hgt].
  - destruct (form_to_comp_total s Hle) as [d Hd]. congruence.
  - rewrite (form_to_comp_long s) in H by lia.
    injection H as <-. split; [reflexivity | lia].
Qed.

(** ** Adduct combinations: main results *)

(** C7. Every combination that [gen_adducts_combo] returns keeps each
    count within the declared maximum of its symbol, in absolute value,
    and its counts add up, in absolute value, to between 1 and
    [|max_charge|]; with [max_charge = 0] the call returns the empty
    list. *)
Theorem gen_adducts_combo_bounds adducts exclusions max_charge res :
  gen_adducts_combo adducts exclusions max_charge = Ret res ->
  (forall c, In c res ->
     within_maxima adducts c /\ 1 <= total_abs c <= Z.abs max_charge)
  /\ gen_adducts_combo adducts exclusions 0 = Ret [].
Proof.
  intros H. split.
  - intros c Hc.
    destruct (gen_adducts_combo_survivor _ _ _ _ _ H Hc) as (H1 & H2 & _).
    now split.
  - reflexivity.
Qed.

Lemma gen_adducts_combo_bounds_witness :
  gen_adducts_combo [("H", 3); ("Na", 1)] [] 3
  = Ret [[("H", 1)]; [("Na", 1)]; [("H", 2)]; [("H", 1); ("Na", 1)];
         [("H", 3)]; [("H", 2); ("Na", 1)]]
  /\ (forall c,
        In c [[("H", 1)]; [("Na", 1)]; [("H", 2)]; [("H", 1); ("Na", 1)];
              [("H", 3)]; [("H", 2); ("Na", 1)]] ->
        within_maxima [("H", 3); ("Na", 1)] c /\ 1 <= total_abs c <= Z.abs 3).
Proof.
  split; [reflexivity|].
  exact (proj1 (gen_adducts_combo_bounds [("H", 3); ("Na", 1)] [] 3 _ eq_refl)).
Defined.

(** C3, on the code: a combination that exceeds a maximum and is also
    excluded is listed twice in [to_remove]; the second [remove] finds
    nothing and raises [ValueError]. *)
Theorem gen_adducts_combo_double_removal :
  gen_adducts_combo [("H", 1)] [[("H", 2)]] 2 = Raise ValueError.
Proof. reflexivity. Qed.

(** ** The tag search: main result *)

(** C10. For a tag mass of 0 the loop is not entered and the initial
    value of [closest], the empty composition with mass 0, is returned,
    whatever the mass function. *)
Theorem calculate_comp_from_mass_zero (calculate_mass : dict Z -> Q) :
  TagSearch.calculate_comp_from_mass calculate_mass 0 = Some ([], 0%Q).
Proof. reflexivity. Qed.

(** ** Spectral statistics: main results *)

Module StatisticsFacts.

Import Floats.PrimFloat.
Import SpectralStatistics.
Local Open Scope float_scope.

Lemma where_true_In mask : forall k i,
  In i (where_true k mask)
  <-> (k <= i)%nat /\ nth (i - k) mask false = true.
Proof.
  induction mask as [|b mask IH]; intros k i.
  - simpl. split; [intros [] | intros [_ H]].
    destruct (i - k)%nat; discriminate.
  - specialize (IH (S k) i).
    assert (Hcons : In i (where_true k (b :: mask))
                    <-> (b = true /\ i = k) \/ In i (where_true (S k) mask)).
    { simpl. destruct b; simpl; split; intros H.
      - destruct H as [<- | H]; [left; split; reflexivity | now right].
      - destruct H as [[_ ->] | H]; [now left | now right].
      - now right.
      - destruct H as [[Hb _] | H]; [discriminate | assumption]. }
    rewrite Hcons, IH. clear Hcons IH.
    destruct (lt_eq_lt_dec i k) as [[Hlt | ->] | Hgt].
    + split; intros H; lia.
    + rewrite Nat.sub_diag. simpl. split; intros H.
      * destruct H as [[Hb _] | [H _]]; [split; [lia | exact Hb] | lia].
      * left. split; [tauto | reflexivity].
    + replace (i - k)%nat with (S (i - S k)) by lia. simpl. split; intros H.
      * destruct H as [[_ ->] | [_ H]]; [lia | split; [lia | exact H]].
      * right. split; [lia | tauto].
Qed.

(** The indices that [linear_regression] returns are those whose
    residual exceeds, in absolute value, [th] standard deviations of the
    residuals. *)
Lemma linear_regression_outliers x0 x1 x y th m b outliers :
  linear_regression (x0 :: x1 :: x) y th = Ret (m, b, outliers) ->
  let residuals :=
    map (fun yp => fst yp - snd yp)
        (combine y (map (fun a => m * a + b) (x0 :: x1 :: x))) in
  forall i,
    In i outliers
    <-> nth i (map (fun r => th * std residuals <? abs r) residuals) false
        = true.
Proof.
  unfold linear_regression.
  destruct (negb _); [discriminate|].
  destruct (linregress (x0 :: x1 :: x) y) as [[m' b']|e]; [|discriminate].
  cbn [bind]. intros [= <- <- <-] i.
  rewrite where_true_In, Nat.sub_0_r. split; [tauto | split; [lia | assumption]].
Qed.

(** C4, as the code has it: on five zero intensities in "whole" mode the
    standard deviation is 0, the threshold [2 * 0] exceeds neither
    [5 * min] nor [0.5 * max], and the threshold itself, 0.0, is
    returned. *)
Theorem noise_of_zeros_is_zero (mzs : list float) :
  rt_noise_level_parameters_set (mzs, [0; 0; 0; 0; 0]) "whole"
  = Ret (Whole 0).
Proof. reflexivity. Qed.

(** C4 as stated fails: the value returned is not 1.0. *)
Lemma noise_of_zeros_is_not_one :
  exists noise,
    rt_noise_level_parameters_set ([1; 2; 3; 4; 5], [0; 0; 0; 0; 0]) "whole"
    = Ret (Whole noise)
    /\ (noise =? 1) = false.
Proof.
  exists 0. split; reflexivity.
Qed.

(** C5, as the code has it: on these five points the least-squares line
    is pulled through the last point; no residual exceeds 2.5 standard
    deviations and the list of outliers is empty. *)
Theorem linear_regression_flags_nothing :
  exists m b,
    linear_regression [1; 2; 3; 4; 100] [1; 2; 3; 4; 1000] 2.5
    = Ret (m, b, [])
    /\ (10 <? m) = true /\ (m <? 10.5) = true
    /\ (-23 <? b) = true /\ (b <? -22.5) = true.
Proof.
  eexists _, _. split; [vm_compute; reflexivity|].
  repeat split; vm_compute; reflexivity.
Qed.

(** C5 as stated fails: index 4 is not among the outliers. *)
Lemma linear_regression_index_4_not_flagged :
  exists m b outliers,
    linear_regression [1; 2; 3; 4; 100] [1; 2; 3; 4; 1000] 2.5
    = Ret (m, b, outliers)
    /\ ~ In 4%nat outliers.
Proof.
  eexists _, _, _. split; [vm_compute; reflexivity|]. intros [].
Qed.

End StatisticsFacts.

(** ** Permethylation and the shared table *)

Module PermethylationFacts.

Lemma dict_iadd_get d k x d' :
  dict_iadd d k x = Ret d' ->
  forall j m, dict_get j d = Some m ->
    dict_get j d' = Some (m + if String.eqb j k then x else 0).
Proof.
  unfold dict_iadd, dict_item.
  destruct (dict_get k d) as [v|] eqn:Hv; [|discriminate].
  cbn [bind]. intros [= <-] j m Hj.
  destruct (String.eqb_spec j k) as [-> | Hne].
  - rewrite dict_get_set_same. congruence.
  - rewrite dict_get_set_other by congruence. rewrite Hj. f_equal. lia.
Qed.

Lemma methylate_get c h e e' :
  methylate c h e = Ret e' ->
  forall j m, dict_get j (snd e) = Some m ->
    dict_get j (snd e') = Some (m + methyl_delta c h j).
Proof.
  destruct e as [[name formula] atoms]. unfold methylate.
  destruct (dict_iadd atoms "C" c) as [a1|] eqn:E1; [|discriminate].
  cbn [bind].
  destruct (dict_iadd a1 "H" h) as [a2|] eqn:E2; [|discriminate].
  cbn [bind]. intros [= <-] j m Hj. cbn [snd] in *.
  rewrite (dict_iadd_get _ _ _ _ E2 j _ (dict_iadd_get _ _ _ _ E1 j m Hj)).
  unfold methyl_delta. f_equal. lia.
Qed.

Lemma methylate_if_get (b : bool) c h e e' :
  (if b then methylate c h e else Ret e) = Ret e' ->
  forall j m, dict_get j (snd e) = Some m ->
    dict_get j (snd e') = Some (m + if b then methyl_delta c h j else 0).
Proof.
  destruct b.
  - apply methylate_get.
  - intros [= <-] j m Hj. rewrite Hj. f_equal. lia.
Qed.

Lemma permethylate_entry_get i e ie' :
  permethylate_entry (i, e) = Ret ie' ->
  fst ie' = i
  /\ forall j m, dict_get j (snd e) = Some m ->
       dict_get j (snd (snd ie')) = Some (m + methyl_increment i j).
Proof.
  unfold permethylate_entry.
  destruct (if String.eqb i "H" then _ else _) as [e1|] eqn:E1;
    [|discriminate]. cbn [bind].
  destruct (if String.eqb i "N" then _ else _) as [e2|] eqn:E2;
    [|discriminate]. cbn [bind].
  destruct (if String.eqb i "F" then _ else _) as [e3|] eqn:E3;
    [|discriminate]. cbn [bind].
  destruct (if String.eqb i "S" || String.eqb i "G" then _ else _)
    as [e4|] eqn:E4; [|discriminate]. cbn [bind].
  intros [= <-]. split; [reflexivity|]. intros j m Hj. cbn [snd].
  pose proof (methylate_if_get _ _ _ _ _ E1 j m Hj) as H1.
  pose proof (methylate_if_get _ _ _ _ _ E2 j _ H1) as H2.
  pose proof (methylate_if_get _ _ _ _ _ E3 j _ H2) as H3.
  pose proof (methylate_if_get _ _ _ _ _ E4 j _ H3) as H4.
  rewrite H4. unfold methyl_increment. f_equal. lia.
Qed.

Lemma permethylate_methylated t : forall t',
  permethylate t = Ret t' -> methylated t t'.
Proof.
  induction t as [|[i e] t IH]; intros t'; cbn [permethylate].
  - intros [= <-] k e0. discriminate.
  - destruct (permethylate_entry (i, e)) as [[i' e']|] eqn:Ee; [|discriminate].
    cbn [bind].
    destruct (permethylate t) as [t''|]; [|discriminate].
    cbn [bind]. intros [= <-] k e0.
    destruct (permethylate_entry_get _ _ _ Ee) as [Hi He]. cbn [fst snd] in *.
    subst i'. simpl.
    destruct (String.eqb_spec i k) as [-> | Hne].
    + intros [= <-]. exists e'. split; [reflexivity | exact He].
    + now apply IH.
Qed.

Lemma add_residue_atoms t i n c o n0 h a' :
  add_residue t i n (dict_keys (atoms_of c o n0 h)) (atoms_of c o n0 h)
  = Ret a' ->
  exists e mc mo mn mh,
    dict_get i t = Some e
    /\ dict_get "C" (snd e) = Some mc /\ dict_get "O" (snd e) = Some mo
    /\ dict_get "N" (snd e) = Some mn /\ dict_get "H" (snd e) = Some mh
    /\ a' = atoms_of (c + mc * n) (o + mo * n) (n0 + mn * n) (h + mh * n).
Proof.
  cbn [dict_keys atoms_of map fst add_residue]. unfold dict_item.
  destruct (dict_get i t) as [e|]; [|discriminate]. cbn [bind].
  destruct (dict_get "C" (snd e)) as [mc|] eqn:EC; [|discriminate].
  cbn [bind]. unfold dict_iadd at 1. cbn.
  destruct (dict_get "O" (snd e)) as [mo|] eqn:EO; [|discriminate]. cbn.
  destruct (dict_get "N" (snd e)) as [mn|] eqn:EN; [|discriminate]. cbn.
  destruct (dict_get "H" (snd e)) as [mh|] eqn:EH; [|discriminate]. cbn.
  intros [= <-]. exists e, mc, mo, mn, mh. repeat split; assumption.
Qed.

Section TwoRuns.
Variables t1 t2 : mono_table.
Variable glycan_composition : dict Z.
Hypothesis Hstep : methylated t1 t2.

Lemma sum_residues_two_runs keys :
  forall c1 o1 n1 h1 c2 o2 n2 h2 a1 a2,
    sum_residues t1 glycan_composition keys (atoms_of c1 o1 n1 h1) = Ret a1 ->
    sum_residues t2 glycan_composition keys (atoms_of c2 o2 n2 h2) = Ret a2 ->
    exists c1' o1' n1' h1' c2' o2' n2' h2',
      a1 = atoms_of c1' o1' n1' h1' /\ a2 = atoms_of c2' o2' n2' h2'
      /\ c2' - c1' = c2 - c1 + methyl_extra glycan_composition "C" keys
      /\ h2' - h1' = h2 - h1 + methyl_extra glycan_composition "H" keys.
Proof.
  induction keys as [|i keys IH]; intros c1 o1 n1 h1 c2 o2 n2 h2 a1 a2.
  - simpl. intros [= <-] [= <-].
    exists c1, o1, n1, h1, c2, o2, n2, h2. repeat split; lia.
  - cbn [sum_residues methyl_extra fold_right].
    fold (methyl_extra glycan_composition "C" keys).
    fold (methyl_extra glycan_composition "H" keys).
    destruct (String.eqb i "T").
    + intros H1 H2.
      destruct (IH _ _ _ _ _ _ _ _ _ _ H1 H2)
        as (c1' & o1' & n1' & h1' & c2' & o2' & n2' & h2' & E1 & E2 & Hc & Hh).
      exists c1', o1', n1', h1', c2', o2', n2', h2'. repeat split; try assumption; lia.
    + unfold dict_item, dict_count.
      destruct (dict_get i glycan_composition) as [n|]; [|discriminate].
      cbn [bind].
      destruct (add_residue t1 i n _ _) as [b1|] eqn:A1; [|discriminate].
      destruct (add_residue t2 i n _ _) as [b2|] eqn:A2; [|discriminate].
      cbn [bind].
      apply add_residue_atoms in A1
        as (e1 & mc1 & mo1 & mn1 & mh1 & G1 & C1 & O1 & N1 & H1 & ->).
      apply add_residue_atoms in A2
        as (e2 & mc2 & mo2 & mn2 & mh2 & G2 & C2 & O2 & N2 & H2 & ->).
      destruct (Hstep _ _ G1) as (e2' & G2' & Hinc).
      assert (e2' = e2) by congruence. subst e2'.
      pose proof (Hinc _ _ C1) as C2'. pose proof (Hinc _ _ H1) as H2'.
      assert (mc2 = mc1 + methyl_increment i "C") by congruence.
      assert (mh2 = mh1 + methyl_increment i "H") by congruence.
      subst mc2 mh2.
      intros R1 R2.
      destruct (IH _ _ _ _ _ _ _ _ _ _ R1 R2)
        as (c1' & o1' & n1' & h1' & c2' & o2' & n2' & h2' & E1 & E2 & Hc & Hh).
      exists c1', o1', n1', h1', c2', o2', n2', h2'.
      repeat split; try assumption; lia.
Qed.

End TwoRuns.

Lemma methyl_increment_nonneg i j : 0 <= methyl_increment i j.
Proof.
  unfold methyl_increment, methyl_delta.
  destruct (String.eqb i "H"), (String.eqb i "N"), (String.eqb i "F"),
    (String.eqb i "S" || String.eqb i "G"),
    (String.eqb j "C"), (String.eqb j "H"); lia.
Qed.

Lemma extra_nonneg glycan_composition j keys :
  (forall i n, dict_get i glycan_composition = Some n -> 0 <= n) ->
  0 <= methyl_extra glycan_composition j keys.
Proof.
  intros Hpos. induction keys as [|i keys IH]; simpl; [lia|].
  fold (methyl_extra glycan_composition j keys).
  destruct (String.eqb i "T"); [lia|].
  pose proof (methyl_increment_nonneg i j).
  assert (0 <= dict_count glycan_composition i).
  { unfold dict_count.
    destruct (dict_get i glycan_composition) eqn:E; [eauto | lia]. }
  nia.
Qed.

Lemma extra_positive glycan_composition j keys r n :
  (forall i n, dict_get i glycan_composition = Some n -> 0 <= n) ->
  In r keys -> String.eqb r "T" = false ->
  0 < methyl_increment r j ->
  dict_get r glycan_composition = Some n -> 0 < n ->
  0 < methyl_extra glycan_composition j keys.
Proof.
  intros Hpos Hin HT Hm Hr Hn.
  induction keys as [|i keys IH]; [contradiction|].
  simpl. fold (methyl_extra glycan_composition j keys).
  pose proof (extra_nonneg glycan_composition j keys Hpos).
  destruct Hin as [-> | Hin].
  - rewrite HT. unfold dict_count. rewrite Hr. nia.
  - specialize (IH Hin).
    destruct (String.eqb i "T"); [lia|].
    pose proof (methyl_increment_nonneg i j).
    assert (0 <= dict_count glycan_composition i).
    { unfold dict_count.
      destruct (dict_get i glycan_composition) eqn:E; [eauto | lia]. }
    nia.
Qed.

Lemma dict_get_key {V : Type} k (v : V) d :
  dict_get k d = Some v -> In k (dict_keys d).
Proof.
  intros H. apply dict_get_In in H.
  unfold dict_keys. apply in_map_iff. now exists (k, v).
Qed.

(** C9, as the code has it. Every call of [glycan_to_atoms] with
    [permethylated = True] raises the atoms of the table in place: 3 C and
    6 H for H and N, 2 C and 4 H for F, 5 C and 10 H for S and G, nothing
    for lS and eS. So of two such calls in a row on one composition
    with non-negative counts and at least one H, N, F, S or G residue, the
    second returns strictly more C and strictly more H than the first. *)
Theorem permethylation_added_on_every_call
  t glycan_composition a1 t1 a2 t2 r n :
  glycan_to_atoms t glycan_composition true = Ret (a1, t1) ->
  glycan_to_atoms t1 glycan_composition true = Ret (a2, t2) ->
  (forall i k, dict_get i glycan_composition = Some k -> 0 <= k) ->
  In r ["H"; "N"; "F"; "S"; "G"] ->
  dict_get r glycan_composition = Some n -> 0 < n ->
  methylated t t1 /\ methylated t1 t2
  /\ map (fun i => (methyl_increment i "C", methyl_increment i "H"))
         ["H"; "N"; "F"; "S"; "G"; "lS"; "eS"]
     = [(3, 6); (3, 6); (2, 4); (5, 10); (5, 10); (0, 0); (0, 0)]
  /\ exists c1 h1 c2 h2,
       dict_get "C" a1 = Some c1 /\ dict_get "H" a1 = Some h1
       /\ dict_get "C" a2 = Some c2 /\ dict_get "H" a2 = Some h2
       /\ c1 < c2 /\ h1 < h2.
Proof.
  unfold glycan_to_atoms. intros H1 H2 Hpos Hr Hn Hn0.
  destruct (permethylate t) as [u1|] eqn:P1; [|discriminate].
  cbn [bind] in H1.
  destruct (sum_residues u1 _ _ _) as [b1|] eqn:S1; [|discriminate].
  cbn [bind] in H1. injection H1 as <- <-.
  destruct (permethylate u1) as [u2|] eqn:P2; [|discriminate].
  cbn [bind] in H2.
  destruct (sum_residues u2 _ _ _) as [b2|] eqn:S2; [|discriminate].
  cbn [bind] in H2. injection H2 as <- <-.
  pose proof (permethylate_methylated _ _ P1) as M1.
  pose proof (permethylate_methylated _ _ P2) as M2.
  split; [exact M1|]. split; [exact M2|]. split; [reflexivity|].
  destruct (sum_residues_two_runs u1 u2 glycan_composition M2 _
              _ _ _ _ _ _ _ _ _ _ S1 S2)
    as (c1 & o1 & n1 & h1 & c2 & o2 & n2 & h2 & -> & -> & Hc & Hh).
  exists c1, h1, c2, h2. repeat split; try reflexivity.
  - assert (0 < methyl_extra glycan_composition "C" (dict_keys glycan_composition)).
    { apply (extra_positive _ _ _ r n); try assumption.
      - eapply dict_get_key; eassumption.
      - simpl in Hr. intuition (subst; reflexivity).
      - simpl in Hr. intuition (subst; reflexivity). }
    lia.
  - assert (0 < methyl_extra glycan_composition "H" (dict_keys glycan_composition)).
    { apply (extra_positive _ _ _ r n); try assumption.
      - eapply dict_get_key; eassumption.
      - simpl in Hr. intuition (subst; reflexivity).
      - simpl in Hr. intuition (subst; reflexivity). }
    lia.
Qed.

Lemma permethylation_added_on_every_call_witness :
  glycan_to_atoms monosaccharides [("H", 5); ("N", 4); ("T", 1)] true
  = Ret (atoms_of 89 45 4 156, permethylated_once)
  /\ glycan_to_atoms permethylated_once [("H", 5); ("N", 4); ("T", 1)] true
     = Ret (atoms_of 116 45 4 210, permethylated_twice)
  /\ exists c1 h1 c2 h2,
       dict_get "C" (atoms_of 89 45 4 156) = Some c1
       /\ dict_get "H" (atoms_of 89 45 4 156) = Some h1
       /\ dict_get "C" (atoms_of 116 45 4 210) = Some c2
       /\ dict_get "H" (atoms_of 116 45 4 210) = Some h2
       /\ c1 < c2 /\ h1 < h2.
Proof.
  split; [reflexivity|]. split; [reflexivity|].
  refine (proj2 (proj2 (proj2
    (permethylation_added_on_every_call monosaccharides
       [("H", 5); ("N", 4); ("T", 1)] _ _ _ _ "H" 5
       eq_refl eq_refl _ _ eq_refl eq_refl)))).
  - intros i k. cbn [dict_get].
    destruct (String.eqb "H" i); [intros [=]; lia|].
    destruct (String.eqb "N" i); [intros [=]; lia|].
    destruct (String.eqb "T" i); [intros [=]; lia | discriminate].
  - simpl. tauto.
Defined.

(** C9 as stated fails for a composition of lactonized sialic acids only:
    the table entry of lS is not touched, and two permethylated calls in
    a row return the same atoms. *)
Lemma permethylation_leaves_lactonized_acid :
  exists a t1 t2,
    glycan_to_atoms monosaccharides [("lS", 1)] true = Ret (a, t1)
    /\ glycan_to_atoms t1 [("lS", 1)] true = Ret (a, t2)
    /\ dict_get "C" a = Some 11 /\ dict_get "H" a = Some 18.
Proof.
  eexists _, _, _. repeat split; reflexivity.
Qed.

End PermethylationFacts.

(** * Further properties *)

(** ** Composition strings *)

(** X1. Whatever the string, the dictionary that [form_to_comp] returns
    has no key twice, no empty key and no digit inside a key. *)
Theorem form_to_comp_keys_clean s d :
  form_to_comp s = Ret d ->
  NoDup (dict_keys d)
  /\ forall k, In k (dict_keys d) -> k <> "" /\ digit_free k = true.
Proof.
  intros H. destruct (form_to_comp_keys _ _ H) as [Hnd Hk].
  split; [exact Hnd|]. intros k Hin.
  unfold clean_keys in Hk. rewrite Forall_forall in Hk.
  destruct (Hk _ Hin). now split.
Qed.

Lemma form_to_comp_keys_clean_witness :
  form_to_comp "H5N4S1F1G1"
  = Ret [("H", 5); ("N", 4); ("S", 1); ("F", 1); ("G", 1)]
  /\ NoDup (dict_keys [("H", 5); ("N", 4); ("S", 1); ("F", 1); ("G", 1)]).
Proof.
  split; [reflexivity|].
  exact (proj1 (form_to_comp_keys_clean "H5N4S1F1G1" _ eq_refl)).
Defined.

(** X2. A dictionary written by [comp_to_formula] is read back by
    [form_to_comp] without its zero counts and in the same order, as soon
    as its keys are distinct, non-empty and free of digits, no positive
    count comes after a negative one, no symbol with a positive count
    ends in a minus sign, and every count is below
    [10 ^ int_max_str_digits] in absolute value, so that [str] and [int]
    convert it. *)
Theorem comp_to_formula_parses_back d :
  NoDup (dict_keys d) -> clean_keys d -> sign_coherent d = true ->
  counts_within_limit d ->
  (formula <- comp_to_formula d ;; form_to_comp formula) = Ret (nonzero d).
Proof.
  intros Hnd Hk Hs Hl. rewrite (comp_to_formula_nonzero _ Hl). cbn [bind].
  apply form_to_comp_formula.
  - apply nonzero_no_zero.
  - now apply nonzero_clean_keys.
  - now apply nonzero_NoDup.
  - unfold sign_coherent. now rewrite nonzero_sign_coherent.
  - now apply counts_within_limit_nonzero.
Qed.

Lemma clean_keys_of_plain d :
  forallb plain_symbol (dict_keys d) = true -> clean_keys d.
Proof.
  unfold clean_keys. rewrite forallb_forall, Forall_forall.
  intros H k Hin. specialize (H k Hin). unfold plain_symbol in H.
  apply andb_true_iff in H as [H _]. apply andb_true_iff in H as [Hne Hdf].
  split; [exact Hdf|]. apply negb_true_iff, String.eqb_neq in Hne. exact Hne.
Qed.

Lemma NoDup_three_symbols : NoDup ["Na"; "Cl"; "H"].
Proof.
  repeat constructor; simpl; intuition discriminate.
Defined.

Lemma three_counts_within_limit :
  counts_within_limit [("Na", 2); ("Cl", 0); ("H", -3)].
Proof.
  repeat constructor; vm_compute; reflexivity.
Defined.

Lemma comp_to_formula_parses_back_witness :
  (formula <- comp_to_formula [("Na", 2); ("Cl", 0); ("H", -3)] ;;
   form_to_comp formula)
  = Ret [("Na", 2); ("H", -3)].
Proof.
  exact (comp_to_formula_parses_back [("Na", 2); ("Cl", 0); ("H", -3)]
           NoDup_three_symbols
           (clean_keys_of_plain [("Na", 2); ("Cl", 0); ("H", -3)] eq_refl)
           eq_refl three_counts_within_limit).
Defined.

Lemma comp_to_formula_loop_long d :
  Exists (fun kn => ~ within_digit_limit (snd kn)) d ->
  forall acc, comp_to_formula_loop d acc = Raise ValueError.
Proof.
  induction d as [|[k n] d IH]; intros Hex acc; [inversion Hex|].
  cbn [comp_to_formula_loop].
  destruct (Z.lt_ge_cases (Z.abs n) (10 ^ int_max_str_digits)) as [Hn | Hn].
  - assert (Hd : Exists (fun kn => ~ within_digit_limit (snd kn)) d).
    { inversion Hex as [? ? Hbad | ? ? Hd]; subst; [|exact Hd].
      exfalso. apply Hbad. exact Hn. }
    destruct (negb (Z.eqb n 0)); [|now apply IH].
    rewrite (py_str_small n Hn). cbn [bind]. now apply IH.
  - assert (Hbad : ~ within_digit_limit n)
      by (unfold within_digit_limit; lia).
    assert (Hnz : negb (Z.eqb n 0) = true).
    { apply negb_true_iff, Z.eqb_neq. intros ->. apply Hbad.
      apply Z.pow_pos_nonneg; unfold int_max_str_digits; lia. }
    rewrite Hnz, (py_str_long n Hbad). reflexivity.
Qed.

(** X24. [comp_to_formula] writes the entries with a non-zero count in
    order, symbol then numeral, when every count is below
    [10 ^ int_max_str_digits] in absolute value; when a count is not,
    [str] raises [ValueError]. *)
Theorem comp_to_formula_outcome d :
  (counts_within_limit d ->
   comp_to_formula d = Ret (formula_of (nonzero d)))
  /\ (Exists (fun kn => ~ within_digit_limit (snd kn)) d ->
      comp_to_formula d = Raise ValueError).
Proof.
  split; [apply comp_to_formula_nonzero|].
  intros Hex. unfold comp_to_formula. now apply comp_to_formula_loop_long.
Qed.

Lemma fold_charge d : forall acc,
  ~ In "" (dict_keys d) ->
  fold_left
    (fun charge '(i, n) =>
       if negb (String.eqb i "") then charge + n else charge) d acc
  = acc + dict_total d.
Proof.
  induction d as [|[k n] d IH]; intros acc Hne; simpl.
  - lia.
  - simpl in Hne.
    assert (Hk : String.eqb k "" = false)
      by (apply String.eqb_neq; intros ->; apply Hne; now left).
    rewrite Hk. cbn [negb]. rewrite IH by tauto.
    unfold dict_total. simpl. lia.
Qed.

Lemma form_to_charge_of_comp s d :
  form_to_comp s = Ret d -> form_to_charge s = Ret (dict_total d).
Proof.
  intros H. unfold form_to_charge. rewrite H. cbn [bind].
  rewrite fold_charge; [reflexivity|].
  destruct (form_to_comp_keys _ _ H) as [_ Hk].
  unfold clean_keys in Hk. rewrite Forall_forall in Hk.
  intros Hin. destruct (Hk _ Hin) as [_ Hne]. now apply Hne.
Qed.

(** X3. On a string without a run of more than [int_max_str_digits]
    digits [form_to_charge] returns the sum of all the counts that
    [form_to_comp] reads from it; on a string with a longer run it
    raises the [ValueError] of [int]. *)
Theorem form_to_charge_sums_counts s :
  (longest_digit_run s <= int_max_str_digits ->
   exists d,
     form_to_comp s = Ret d /\ form_to_charge s = Ret (dict_total d))
  /\ (int_max_str_digits < longest_digit_run s ->
      form_to_charge s = Raise ValueError).
Proof.
  split.
  - intros Hle. destruct (form_to_comp_total s Hle) as [d Hd]. exists d.
    split; [exact Hd | now apply form_to_charge_of_comp].
  - intros Hgt. unfold form_to_charge.
    now rewrite (form_to_comp_long s Hgt).
Qed.

(** ** Sums of compositions *)

Module SumFacts.

Import CompositionSums.

Lemma dict_count_set k v d k' :
  dict_count (dict_set k v d) k'
  = if String.eqb k k' then v else dict_count d k'.
Proof.
  unfold dict_count. destruct (String.eqb_spec k k') as [<- | Hne].
  - now rewrite dict_get_set_same.
  - now rewrite dict_get_set_other.
Qed.

Lemma dict_iadd_spec d k x d' :
  dict_iadd d k x = Ret d' <->
  exists v, dict_get k d = Some v /\ d' = dict_set k (v + x) d.
Proof.
  unfold dict_iadd, dict_item. destruct (dict_get k d) as [v|]; cbn [bind].
  - split; [intros [= <-]; eauto | intros (v' & [= <-] & ->); reflexivity].
  - split; [discriminate | intros (v' & H & _); discriminate].
Qed.

Lemma dict_iadd_missing d k x :
  dict_get k d = None -> dict_iadd d k x = Raise KeyError.
Proof.
  intros H. unfold dict_iadd, dict_item. now rewrite H.
Qed.

Lemma dict_get_present {V : Type} k (d : dict V) :
  In k (dict_keys d) -> exists v, dict_get k d = Some v.
Proof.
  intros Hin. destruct (dict_get k d) as [v|] eqn:E; [eauto|].
  apply dict_get_None in E. contradiction.
Qed.

Lemma dict_keys_set_incl {V : Type} k (v : V) d :
  incl (dict_keys d) (dict_keys (dict_set k v d)).
Proof.
  intros x Hx. destruct (dict_keys_set k v d) as [-> | [_ ->]];
    [assumption | apply in_or_app; now left].
Qed.

(** *** [sum_atoms] *)

Lemma sum_atoms_key_spec i summed j :
  In j (dict_keys i) ->
  exists s,
    sum_atoms_key i summed j = Ret s
    /\ (forall k, dict_count s k
                  = dict_count summed k
                    + if String.eqb j k then dict_count i j else 0)
    /\ (NoDup (dict_keys summed) -> NoDup (dict_keys s))
    /\ incl (dict_keys summed) (dict_keys s).
Proof.
  intros Hj. destruct (dict_get_present _ _ Hj) as [v Hv].
  unfold sum_atoms_key, dict_mem, dict_item. rewrite Hv. cbn [bind].
  assert (Hc : dict_count i j = v) by (unfold dict_count; now rewrite Hv).
  destruct (dict_get j summed) as [old|] eqn:Ho; cbn [negb].
  - unfold dict_iadd, dict_item. rewrite Ho. cbn [bind].
    eexists. split; [reflexivity|]. split; [|split].
    + intros k. rewrite dict_count_set, Hc.
      destruct (String.eqb_spec j k) as [<- | Hne]; [|lia].
      unfold dict_count. rewrite Ho. reflexivity.
    + apply dict_set_NoDup.
    + apply dict_keys_set_incl.
  - eexists. split; [reflexivity|]. split; [|split].
    + intros k. rewrite dict_count_set, Hc.
      destruct (String.eqb_spec j k) as [<- | Hne]; [|lia].
      unfold dict_count. rewrite Ho. lia.
    + apply dict_set_NoDup.
    + apply dict_keys_set_incl.
Qed.

Lemma sum_atoms_comp_spec i js : forall summed,
  incl js (dict_keys i) ->
  exists s,
    sum_atoms_comp i js summed = Ret s
    /\ (forall k, dict_count s k
                  = dict_count summed k
                    + Z.of_nat (count_occ string_dec js k) * dict_count i k)
    /\ (NoDup (dict_keys summed) -> NoDup (dict_keys s))
    /\ incl (dict_keys summed) (dict_keys s).
Proof.
  induction js as [|j js IH]; intros summed Hjs.
  - exists summed. split; [reflexivity|]. split; [|split].
    + intros k. simpl. lia.
    + tauto.
    + apply incl_refl.
  - destruct (sum_atoms_key_spec i summed j (Hjs j (or_introl eq_refl)))
      as (s1 & E1 & C1 & N1 & I1).
    destruct (IH s1 (fun x Hx => Hjs x (or_intror Hx)))
      as (s & E & C & N & I0).
    exists s. cbn [sum_atoms_comp]. rewrite E1. cbn [bind].
    split; [exact E|]. split; [|split].
    + intros k. rewrite C, C1. simpl count_occ.
      destruct (string_dec j k) as [-> | Hne].
      * rewrite String.eqb_refl. lia.
      * apply String.eqb_neq in Hne. rewrite Hne. lia.
    + tauto.
    + intros x Hx. now apply I0, I1.
Qed.

Lemma count_occ_keys c k :
  NoDup (dict_keys c) ->
  Z.of_nat (count_occ string_dec (dict_keys c) k) * dict_count c k
  = dict_count c k.
Proof.
  intros Hnd. destruct (in_dec string_dec k (dict_keys c)) as [Hin | Hout].
  - rewrite (NoDup_count_occ' string_dec) in Hnd.
    rewrite (Hnd _ Hin). lia.
  - assert (E : dict_count c k = 0).
    { unfold dict_count. apply dict_get_None in Hout. now rewrite Hout. }
    rewrite E. lia.
Qed.

Lemma sum_atoms_loop_spec compositions : forall summed,
  Forall (fun c => NoDup (dict_keys c)) compositions ->
  exists s,
    sum_atoms_loop compositions summed = Ret s
    /\ (forall k, dict_count s k
                  = dict_count summed k + total_count compositions k)
    /\ (NoDup (dict_keys summed) -> NoDup (dict_keys s))
    /\ incl (dict_keys summed) (dict_keys s).
Proof.
  induction compositions as [|i rest IH]; intros summed Hnd.
  - exists summed. split; [reflexivity|]. split; [|split].
    + intros k. simpl. lia.
    + tauto.
    + apply incl_refl.
  - inversion Hnd as [|? ? Hi Hrest]; subst.
    destruct (sum_atoms_comp_spec i (dict_keys i) summed (incl_refl _))
      as (s1 & E1 & C1 & N1 & I1).
    destruct (IH s1 Hrest) as (s & E & C & N & I0).
    exists s. cbn [sum_atoms_loop]. rewrite E1. cbn [bind].
    split; [exact E|]. split; [|split].
    + intros k. rewrite C, C1, (count_occ_keys i k Hi). simpl. lia.
    + tauto.
    + intros x Hx. now apply I0, I1.
Qed.

(** X4. [sum_atoms] never raises. On dictionaries (no key twice) it
    returns a dictionary that holds C, O, N and H and in which the count
    of every key is the sum of its counts in the arguments, a missing key
    counting as 0. *)
Theorem sum_atoms_adds_counts compositions :
  Forall (fun c => NoDup (dict_keys c)) compositions ->
  exists s,
    sum_atoms compositions = Ret s
    /\ NoDup (dict_keys s)
    /\ incl ["C"; "O"; "N"; "H"] (dict_keys s)
    /\ forall k, dict_count s k = total_count compositions k.
Proof.
  intros Hnd.
  destruct (sum_atoms_loop_spec compositions (atoms_of 0 0 0 0) Hnd)
    as (s & E & C & N & I0).
  exists s. split; [exact E|]. split; [|split].
  - apply N. repeat constructor; simpl; intuition discriminate.
  - exact I0.
  - intros k. rewrite C.
    assert (Hz : dict_count (atoms_of 0 0 0 0) k = 0).
    { unfold dict_count, atoms_of. cbn [dict_get].
      destruct (String.eqb "C" k); [reflexivity|].
      destruct (String.eqb "O" k); [reflexivity|].
      destruct (String.eqb "N" k); [reflexivity|].
      destruct (String.eqb "H" k); reflexivity. }
    lia.
Qed.

Lemma sum_atoms_adds_counts_witness :
  exists s,
    sum_atoms [[("C", 6); ("Na", 1)]; [("H", 2); ("C", -1)]] = Ret s
    /\ NoDup (dict_keys s)
    /\ incl ["C"; "O"; "N"; "H"] (dict_keys s)
    /\ forall k,
         dict_count s k
         = total_count [[("C", 6); ("Na", 1)]; [("H", 2); ("C", -1)]] k.
Proof.
  apply (sum_atoms_adds_counts
           [[("C", 6); ("Na", 1)]; [("H", 2); ("C", -1)]]).
  repeat constructor; simpl; intuition discriminate.
Defined.

(** *** [sum_monos] *)

Lemma incl_or_offender (l K : list string) :
  incl l K \/ exists j, In j l /\ ~ In j K.
Proof.
  induction l as [|j l [IH | (j0 & Hj0 & Hout)]].
  - left. intros x [].
  - destruct (in_dec string_dec j K) as [Hin | Hout].
    + left. intros x [<- | Hx]; [assumption | now apply IH].
    + right. exists j. split; [now left | assumption].
  - right. exists j0. split; [now right | assumption].
Qed.

Lemma sum_monos_comp_returns i js : forall summed,
  incl js (dict_keys i) -> incl js (dict_keys summed) ->
  exists s,
    sum_monos_comp i js summed = Ret s
    /\ dict_keys s = dict_keys summed
    /\ forall k, dict_count s k
                 = dict_count summed k
                   + Z.of_nat (count_occ string_dec js k) * dict_count i k.
Proof.
  induction js as [|j js IH]; intros summed Hi Hs.
  - exists summed. repeat split. intros k. simpl. lia.
  - destruct (dict_get_present _ _ (Hi j (or_introl eq_refl))) as [v Hv].
    destruct (dict_get_present _ _ (Hs j (or_introl eq_refl))) as [old Ho].
    assert (Hk : dict_keys (dict_set j (old + v) summed) = dict_keys summed).
    { apply dict_keys_set_present. apply Hs. now left. }
    destruct (IH (dict_set j (old + v) summed)) as (s & E & K & C).
    { intros x Hx. apply Hi. now right. }
    { rewrite Hk. intros x Hx. apply Hs. now right. }
    exists s. cbn [sum_monos_comp]. unfold dict_item at 1. rewrite Hv.
    cbn [bind]. unfold dict_iadd, dict_item. rewrite Ho. cbn [bind].
    split; [exact E|]. split; [congruence|].
    intros k. rewrite C, dict_count_set. simpl count_occ.
    assert (Hc : dict_count i j = v) by (unfold dict_count; now rewrite Hv).
    destruct (string_dec j k) as [-> | Hne].
    + rewrite String.eqb_refl. unfold dict_count at 2. rewrite Ho. lia.
    + apply String.eqb_neq in Hne. rewrite Hne. lia.
Qed.

Lemma sum_monos_comp_raises i js : forall summed,
  incl js (dict_keys i) ->
  (exists j, In j js /\ ~ In j (dict_keys summed)) ->
  sum_monos_comp i js summed = Raise KeyError.
Proof.
  induction js as [|j js IH]; intros summed Hi (j0 & Hj0 & Hout).
  - contradiction.
  - destruct (dict_get_present _ _ (Hi j (or_introl eq_refl))) as [v Hv].
    cbn [sum_monos_comp]. unfold dict_item at 1. rewrite Hv. cbn [bind].
    destruct (dict_get j summed) as [old|] eqn:Ho.
    + unfold dict_iadd, dict_item. rewrite Ho. cbn [bind].
      assert (Hin : In j (dict_keys summed)) by (eapply PermethylationFacts.dict_get_key; eassumption).
      apply IH.
      * intros x Hx. apply Hi. now right.
      * exists j0. rewrite (dict_keys_set_present _ _ _ Hin).
        split; [|assumption].
        destruct Hj0 as [<- | H]; [contradiction | assumption].
    + now rewrite dict_iadd_missing.
Qed.

Lemma sum_monos_loop_returns compositions : forall summed,
  Forall (fun c => NoDup (dict_keys c)) compositions ->
  Forall (fun c => incl (dict_keys c) (dict_keys summed)) compositions ->
  exists s,
    sum_monos_loop compositions summed = Ret s
    /\ dict_keys s = dict_keys summed
    /\ forall k, dict_count s k
                 = dict_count summed k + total_count compositions k.
Proof.
  induction compositions as [|i rest IH]; intros summed Hnd Hin.
  - exists summed. repeat split. intros k. simpl. lia.
  - inversion Hnd as [|? ? Hi Hrest]; subst.
    inversion Hin as [|? ? Hii Hirest]; subst.
    destruct (sum_monos_comp_returns i (dict_keys i) summed (incl_refl _) Hii)
      as (s1 & E1 & K1 & C1).
    destruct (IH s1 Hrest) as (s & E & K & C).
    { rewrite K1. exact Hirest. }
    exists s. cbn [sum_monos_loop]. rewrite E1. cbn [bind].
    split; [exact E|]. split; [congruence|].
    intros k. rewrite C, C1, (count_occ_keys i k Hi). simpl. lia.
Qed.

Lemma sum_monos_loop_raises compositions : forall summed,
  Exists (fun c => exists j, In j (dict_keys c)
                             /\ ~ In j (dict_keys summed)) compositions ->
  sum_monos_loop compositions summed = Raise KeyError.
Proof.
  induction compositions as [|i rest IH]; intros summed Hex.
  - inversion Hex.
  - cbn [sum_monos_loop].
    destruct (incl_or_offender (dict_keys i) (dict_keys summed))
      as [Hincl | Hoff].
    + destruct (sum_monos_comp_returns i (dict_keys i) summed
                  (incl_refl _) Hincl) as (s1 & E1 & K1 & _).
      rewrite E1. cbn [bind]. apply IH. rewrite K1.
      inversion Hex as [? ? (j & Hj & Hout) | ? ? Hlater]; subst;
        [exfalso; apply Hout, Hincl, Hj | exact Hlater].
    + now rewrite (sum_monos_comp_raises i (dict_keys i) summed
                     (incl_refl _) Hoff).
Qed.

(** X5. On dictionaries whose keys all belong to the eight residue codes,
    [sum_monos] returns a dictionary with exactly those eight keys, in
    the order of the code, in which every count is the sum of the counts
    of the arguments, a missing key counting as 0. *)
Theorem sum_monos_adds_counts compositions :
  Forall (fun c => NoDup (dict_keys c)) compositions ->
  Forall (fun c => incl (dict_keys c)
                        ["H"; "N"; "S"; "lS"; "eS"; "F"; "G"; "T"])
         compositions ->
  exists s,
    sum_monos compositions = Ret s
    /\ dict_keys s = ["H"; "N"; "S"; "lS"; "eS"; "F"; "G"; "T"]
    /\ forall k, dict_count s k = total_count compositions k.
Proof.
  intros Hnd Hin.
  destruct (sum_monos_loop_returns compositions
              (monos_of 0 0 0 0 0 0 0 0) Hnd Hin) as (s & E & K & C).
  exists s. split; [exact E|]. split; [exact K|].
  intros k. rewrite C.
  assert (Hz : dict_count (monos_of 0 0 0 0 0 0 0 0) k = 0).
  { unfold dict_count, monos_of. cbn [dict_get].
    destruct (String.eqb "H" k); [reflexivity|].
    destruct (String.eqb "N" k); [reflexivity|].
    destruct (String.eqb "S" k); [reflexivity|].
    destruct (String.eqb "lS" k); [reflexivity|].
    destruct (String.eqb "eS" k); [reflexivity|].
    destruct (String.eqb "F" k); [reflexivity|].
    destruct (String.eqb "G" k); [reflexivity|].
    destruct (String.eqb "T" k); reflexivity. }
  lia.
Qed.

Lemma sum_monos_adds_counts_witness :
  exists s,
    sum_monos [[("H", 5); ("N", 4)]; [("N", 1); ("T", 1)]] = Ret s
    /\ dict_keys s = ["H"; "N"; "S"; "lS"; "eS"; "F"; "G"; "T"]
    /\ forall k,
         dict_count s k
         = total_count [[("H", 5); ("N", 4)]; [("N", 1); ("T", 1)]] k.
Proof.
  apply (sum_monos_adds_counts [[("H", 5); ("N", 4)]; [("N", 1); ("T", 1)]]).
  - repeat constructor; simpl; intuition discriminate.
  - apply Forall_cons; [|apply Forall_cons; [|apply Forall_nil]];
      intros x Hx; simpl in *; intuition.
Defined.

(** X6. [sum_monos] raises [KeyError] as soon as one argument has a key
    that is not one of the eight residue codes. *)
Theorem sum_monos_unknown_residue compositions c j :
  In c compositions -> In j (dict_keys c) ->
  ~ In j ["H"; "N"; "S"; "lS"; "eS"; "F"; "G"; "T"] ->
  sum_monos compositions = Raise KeyError.
Proof.
  intros Hc Hj Hout. unfold sum_monos. apply sum_monos_loop_raises.
  apply Exists_exists. exists c. split; [exact Hc|].
  exists j. split; [exact Hj | exact Hout].
Qed.

Lemma sum_monos_unknown_residue_witness :
  sum_monos [[("H", 5)]; [("N", 4); ("X", 1)]] = Raise KeyError.
Proof.
  apply (sum_monos_unknown_residue [[("H", 5)]; [("N", 4); ("X", 1)]]
           [("N", 4); ("X", 1)] "X").
  - simpl. tauto.
  - simpl. tauto.
  - simpl. intuition discriminate.
Defined.

End SumFacts.

(** ** [glycan_to_atoms] without permethylation *)

Module GlycanFacts.

Import CompositionSums.

Lemma atoms_of_ext c o n h c' o' n' h' :
  c = c' -> o = o' -> n = n' -> h = h' ->
  atoms_of c o n h = atoms_of c' o' n' h'.
Proof. congruence. Qed.

Lemma sum_residues_closed t glycan_composition keys :
  forall c o n h a,
    sum_residues t glycan_composition keys (atoms_of c o n h) = Ret a ->
    a = atoms_of (c + residue_total t glycan_composition "C" keys)
                 (o + residue_total t glycan_composition "O" keys)
                 (n + residue_total t glycan_composition "N" keys)
                 (h + residue_total t glycan_composition "H" keys).
Proof.
  unfold residue_total, zsum.
  induction keys as [|i keys IH]; intros c o n h a.
  - simpl. intros [= <-]. apply atoms_of_ext; lia.
  - cbn [sum_residues fold_right].
    destruct (String.eqb i "T").
    + intros H. rewrite (IH _ _ _ _ _ H). reflexivity.
    + unfold dict_item.
      destruct (dict_get i glycan_composition) as [m|] eqn:Em; [|discriminate].
      cbn [bind].
      destruct (add_residue t i m _ _) as [b|] eqn:A; [|discriminate].
      cbn [bind].
      apply PermethylationFacts.add_residue_atoms in A
        as (e & mc & mo & mn & mh & G & EC & EO & EN & EH & ->).
      intros H. rewrite (IH _ _ _ _ _ H).
      unfold table_atoms, dict_count. rewrite G, EC, EO, EN, EH, Em.
      apply atoms_of_ext; lia.
Qed.

Lemma glycan_to_atoms_plain t glycan_composition atoms t' :
  glycan_to_atoms t glycan_composition false = Ret (atoms, t') ->
  t' = t
  /\ atoms
     = atoms_of
         (residue_total t glycan_composition "C" (dict_keys glycan_composition))
         (residue_total t glycan_composition "O" (dict_keys glycan_composition))
         (residue_total t glycan_composition "N" (dict_keys glycan_composition))
         (residue_total t glycan_composition "H" (dict_keys glycan_composition)).
Proof.
  unfold glycan_to_atoms. cbn [bind].
  destruct (sum_residues _ _ _ _) as [a|] eqn:E; [|discriminate].
  cbn [bind]. intros [= <- <-]. split; [reflexivity|].
  apply sum_residues_closed in E. exact E.
Qed.

(** X7. A call of [glycan_to_atoms] with [permethylated = False] that
    returns leaves the table as it was, and the atoms it returns are, for
    each of C, O, N and H, the sum over the residues other than T of the
    table's count times the residue's count. *)
Theorem glycan_to_atoms_unpermethylated t glycan_composition atoms t' :
  glycan_to_atoms t glycan_composition false = Ret (atoms, t') ->
  t' = t
  /\ atoms
     = atoms_of
         (residue_total t glycan_composition "C" (dict_keys glycan_composition))
         (residue_total t glycan_composition "O" (dict_keys glycan_composition))
         (residue_total t glycan_composition "N" (dict_keys glycan_composition))
         (residue_total t glycan_composition "H" (dict_keys glycan_composition)).
Proof.
  apply glycan_to_atoms_plain.
Qed.

Lemma glycan_to_atoms_unpermethylated_witness :
  glycan_to_atoms monosaccharides [("H", 5); ("N", 4); ("T", 1)] false
  = Ret (atoms_of 62 45 4 102, monosaccharides)
  /\ atoms_of 62 45 4 102
     = atoms_of
         (residue_total monosaccharides [("H", 5); ("N", 4); ("T", 1)] "C"
            ["H"; "N"; "T"])
         (residue_total monosaccharides [("H", 5); ("N", 4); ("T", 1)] "O"
            ["H"; "N"; "T"])
         (residue_total monosaccharides [("H", 5); ("N", 4); ("T", 1)] "N"
            ["H"; "N"; "T"])
         (residue_total monosaccharides [("H", 5); ("N", 4); ("T", 1)] "H"
            ["H"; "N"; "T"]).
Proof.
  split; [reflexivity|].
  exact (proj2 (glycan_to_atoms_unpermethylated monosaccharides
                  [("H", 5); ("N", 4); ("T", 1)] _ _ eq_refl)).
Defined.

(** *** Unknown residues *)

Lemma dict_iadd_raise d k x e : dict_iadd d k x = Raise e -> e = KeyError.
Proof.
  unfold dict_iadd, dict_item. destruct (dict_get k d); cbn [bind];
    [discriminate | now intros [= <-]].
Qed.

Lemma methylate_raise c h e0 e : methylate c h e0 = Raise e -> e = KeyError.
Proof.
  destruct e0 as [[name formula] atoms]. unfold methylate.
  destruct (dict_iadd atoms "C" c) as [a1|e1] eqn:E1; cbn [bind].
  - destruct (dict_iadd a1 "H" h) as [a2|e2] eqn:E2; cbn [bind];
      [discriminate|].
    intros [= <-]. now apply dict_iadd_raise in E2.
  - intros [= <-]. now apply dict_iadd_raise in E1.
Qed.

Lemma methylate_if_raise (b : bool) c h e0 e :
  (if b then methylate c h e0 else Ret e0) = Raise e -> e = KeyError.
Proof.
  destruct b; [apply methylate_raise | discriminate].
Qed.

Lemma permethylate_entry_raise ie e :
  permethylate_entry ie = Raise e -> e = KeyError.
Proof.
  destruct ie as [i e0]. unfold permethylate_entry.
  destruct (if String.eqb i "H" then _ else _) as [e1|x1] eqn:E1; cbn [bind].
  2:{ intros [= <-]. now apply methylate_if_raise in E1. }
  destruct (if String.eqb i "N" then _ else _) as [e2|x2] eqn:E2; cbn [bind].
  2:{ intros [= <-]. now apply methylate_if_raise in E2. }
  destruct (if String.eqb i "F" then _ else _) as [e3|x3] eqn:E3; cbn [bind].
  2:{ intros [= <-]. now apply methylate_if_raise in E3. }
  destruct (if String.eqb i "S" || String.eqb i "G" then _ else _)
    as [e4|x4] eqn:E4; cbn [bind]; [discriminate|].
  intros [= <-]. now apply methylate_if_raise in E4.
Qed.

Lemma permethylate_result t :
  (exists t', permethylate t = Ret t' /\ dict_keys t' = dict_keys t)
  \/ permethylate t = Raise KeyError.
Proof.
  induction t as [|[i e0] t IH]; cbn [permethylate].
  - left. exists []. split; reflexivity.
  - destruct (permethylate_entry (i, e0)) as [[i' e']|x] eqn:Ee; cbn [bind].
    + destruct (PermethylationFacts.permethylate_entry_get _ _ _ Ee)
        as [Hi _]. cbn [fst] in Hi. subst i'.
      destruct IH as [(t' & -> & K) | ->]; cbn [bind].
      * left. eexists. split; [reflexivity|]. simpl. now rewrite K.
      * now right.
    + right. now rewrite (permethylate_entry_raise _ _ Ee).
Qed.

Lemma add_residue_result t i n c o n0 h :
  (exists b, add_residue t i n (dict_keys (atoms_of c o n0 h))
               (atoms_of c o n0 h) = Ret b
             /\ exists c' o' n' h', b = atoms_of c' o' n' h')
  \/ add_residue t i n (dict_keys (atoms_of c o n0 h)) (atoms_of c o n0 h)
     = Raise KeyError.
Proof.
  destruct (add_residue t i n _ _) as [b|e] eqn:A.
  - left. exists b. split; [reflexivity|].
    apply PermethylationFacts.add_residue_atoms in A
      as (e & mc & mo & mn & mh & _ & _ & _ & _ & _ & ->).
    eauto.
  - right. f_equal. revert A.
    cbn [dict_keys atoms_of map fst add_residue]. unfold dict_item.
    destruct (dict_get i t) as [e0|]; cbn [bind]; [|now intros [= <-]].
    destruct (dict_get "C" (snd e0)) as [mc|]; cbn [bind];
      [|now intros [= <-]].
    unfold dict_iadd at 1. cbn.
    destruct (dict_get "O" (snd e0)) as [mo|]; cbn; [|now intros [= <-]].
    destruct (dict_get "N" (snd e0)) as [mn|]; cbn; [|now intros [= <-]].
    destruct (dict_get "H" (snd e0)) as [mh|]; cbn; [|now intros [= <-]].
    discriminate.
Qed.

Lemma sum_residues_unknown t glycan_composition i keys :
  forall c o n h,
    In i keys -> String.eqb i "T" = false -> dict_get i t = None ->
    incl keys (dict_keys glycan_composition) ->
    sum_residues t glycan_composition keys (atoms_of c o n h)
    = Raise KeyError.
Proof.
  induction keys as [|i0 keys IH]; intros c o n h Hin HT Hm Hk;
    [contradiction|].
  cbn [sum_residues].
  assert (Hk' : incl keys (dict_keys glycan_composition))
    by (intros x Hx; apply Hk; now right).
  destruct (string_dec i0 i) as [-> | Hne].
  - rewrite HT.
    destruct (SumFacts.dict_get_present _ _ (Hk i (or_introl eq_refl)))
      as [m Em].
    unfold dict_item at 1. rewrite Em. cbn [bind].
    cbn [dict_keys atoms_of map fst add_residue]. unfold dict_item at 1.
    rewrite Hm. reflexivity.
  - assert (Hin' : In i keys) by (destruct Hin; [contradiction | assumption]).
    destruct (String.eqb i0 "T"); [now apply IH|].
    destruct (SumFacts.dict_get_present _ _ (Hk i0 (or_introl eq_refl)))
      as [m Em].
    unfold dict_item at 1. rewrite Em. cbn [bind].
    destruct (add_residue_result t i0 m c o n h)
      as [(b & -> & c' & o' & n' & h' & ->) | ->]; cbn [bind];
      [now apply IH | reflexivity].
Qed.

(** X9. A composition with a residue, other than the tag T, that the
    table does not have makes [glycan_to_atoms] raise [KeyError], with or
    without permethylation. *)
Theorem glycan_to_atoms_unknown_residue t glycan_composition permethylated i :
  In i (dict_keys glycan_composition) -> i <> "T" ->
  dict_get i t = None ->
  glycan_to_atoms t glycan_composition permethylated = Raise KeyError.
Proof.
  intros Hin HT Hm. apply String.eqb_neq in HT.
  unfold glycan_to_atoms. destruct permethylated.
  - destruct (permethylate_result t) as [(t' & -> & K) | ->];
      [|reflexivity].
    cbn [bind]. rewrite sum_residues_unknown with (i := i);
      try assumption; try reflexivity; try apply incl_refl.
    apply dict_get_None. rewrite K. now apply dict_get_None.
  - cbn [bind]. rewrite sum_residues_unknown with (i := i);
      try assumption; try reflexivity; apply incl_refl.
Qed.

Lemma glycan_to_atoms_unknown_residue_witness :
  glycan_to_atoms monosaccharides [("H", 3); ("X", 1)] true = Raise KeyError.
Proof.
  apply (glycan_to_atoms_unknown_residue monosaccharides
           [("H", 3); ("X", 1)] true "X").
  - simpl. tauto.
  - discriminate.
  - reflexivity.
Defined.

(** *** Sums over keys *)

Lemma zsum_app f l1 l2 : zsum f (l1 ++ l2) = zsum f l1 + zsum f l2.
Proof.
  unfold zsum. induction l1 as [|x l1 IH]; simpl; [reflexivity|].
  rewrite IH. lia.
Qed.

Lemma zsum_perm f l1 l2 : Permutation l1 l2 -> zsum f l1 = zsum f l2.
Proof.
  unfold zsum. induction 1; simpl; lia.
Qed.

Lemma zsum_zero f l : (forall i, In i l -> f i = 0) -> zsum f l = 0.
Proof.
  unfold zsum. induction l as [|x l IH]; intros H; simpl; [reflexivity|].
  rewrite (H x (or_introl eq_refl)), IH; [reflexivity|].
  intros i Hi. apply H. now right.
Qed.

Lemma zsum_superset f ks U :
  NoDup ks -> NoDup U -> incl ks U ->
  (forall i, ~ In i ks -> f i = 0) ->
  zsum f ks = zsum f U.
Proof.
  intros Hks HU Hincl Hz.
  set (rest := filter (fun i => negb (existsb (String.eqb i) ks)) U).
  assert (Hrest : forall i, In i rest <-> In i U /\ ~ In i ks).
  { intros i. unfold rest. rewrite filter_In, negb_true_iff.
    split; intros [HiU H]; split; try assumption.
    - intros Hin. assert (existsb (String.eqb i) ks = true).
      { apply existsb_exists. exists i. split; [assumption|].
        apply String.eqb_refl. }
      congruence.
    - destruct (existsb (String.eqb i) ks) eqn:E; [|reflexivity].
      apply existsb_exists in E as (x & Hx & Hix).
      apply String.eqb_eq in Hix. subst. contradiction. }
  assert (Hperm : Permutation U (ks ++ rest)).
  { apply NoDup_Permutation; [assumption | |].
    - apply NoDup_app; [assumption | now apply NoDup_filter |].
      intros x Hx Hr. apply Hrest in Hr. tauto.
    - intros x. rewrite in_app_iff, Hrest. split.
      + intros HxU. destruct (in_dec string_dec x ks); tauto.
      + intros [Hx | [Hx _]]; [now apply Hincl | assumption]. }
  rewrite (zsum_perm f _ _ Hperm), zsum_app.
  rewrite (zsum_zero f rest); [lia|].
  intros i Hi. apply Hz. apply Hrest in Hi. tauto.
Qed.

Lemma residue_total_alphabet t c j :
  NoDup (dict_keys c) ->
  incl (dict_keys c) ["H"; "N"; "S"; "lS"; "eS"; "F"; "G"; "T"] ->
  residue_total t c j (dict_keys c)
  = residue_total t c j ["H"; "N"; "S"; "lS"; "eS"; "F"; "G"; "T"].
Proof.
  intros Hnd Hincl. unfold residue_total. apply zsum_superset.
  - exact Hnd.
  - repeat constructor; simpl; intuition discriminate.
  - exact Hincl.
  - intros i Hout. apply dict_get_None in Hout.
    unfold dict_count. rewrite Hout.
    destruct (String.eqb i "T"); lia.
Qed.

Lemma sum_monos_keys_known compositions s c :
  sum_monos compositions = Ret s -> In c compositions ->
  incl (dict_keys c) ["H"; "N"; "S"; "lS"; "eS"; "F"; "G"; "T"].
Proof.
  intros Hs Hc.
  destruct (SumFacts.incl_or_offender (dict_keys c)
              ["H"; "N"; "S"; "lS"; "eS"; "F"; "G"; "T"])
    as [H | (j & Hj & Hout)]; [exact H|].
  unfold sum_monos in Hs.
  rewrite SumFacts.sum_monos_loop_raises in Hs; [discriminate|].
  apply Exists_exists. exists c. split; [exact Hc|]. now exists j.
Qed.

(** X8. The atoms of a sum of two glycans are the sum of their atoms:
    when [sum_monos] adds two compositions and [glycan_to_atoms], without
    permethylation, returns for each of them and for their sum, then
    [sum_atoms] of the two results is the result for the sum. *)
Theorem glycan_to_atoms_of_sum t a b s ra rb rs t1 t2 t3 :
  NoDup (dict_keys a) -> NoDup (dict_keys b) ->
  sum_monos [a; b] = Ret s ->
  glycan_to_atoms t a false = Ret (ra, t1) ->
  glycan_to_atoms t b false = Ret (rb, t2) ->
  glycan_to_atoms t s false = Ret (rs, t3) ->
  sum_atoms [ra; rb] = Ret rs.
Proof.
  intros Hna Hnb Hs Ha Hb Hsum.
  pose proof (sum_monos_keys_known _ _ a Hs (or_introl eq_refl)) as Hka.
  pose proof (sum_monos_keys_known _ _ b Hs (or_intror (or_introl eq_refl)))
    as Hkb.
  destruct (SumFacts.sum_monos_loop_returns [a; b]
              (monos_of 0 0 0 0 0 0 0 0)) as (s' & Es & Ks & Cs).
  { apply Forall_cons; [|apply Forall_cons; [|apply Forall_nil]];
      assumption. }
  { apply Forall_cons; [|apply Forall_cons; [|apply Forall_nil]];
      assumption. }
  unfold sum_monos in Hs. rewrite Hs in Es. injection Es as <-.
  destruct (glycan_to_atoms_plain _ _ _ _ Ha) as [_ ->].
  destruct (glycan_to_atoms_plain _ _ _ _ Hb) as [_ ->].
  destruct (glycan_to_atoms_plain _ _ _ _ Hsum) as [_ ->].
  rewrite !(residue_total_alphabet t a) by assumption.
  rewrite !(residue_total_alphabet t b) by assumption.
  rewrite Ks. change (dict_keys (monos_of 0 0 0 0 0 0 0 0))
    with ["H"; "N"; "S"; "lS"; "eS"; "F"; "G"; "T"].
  assert (Hcount : forall k, dict_count s k = dict_count a k + dict_count b k).
  { intros k. rewrite Cs. cbn [total_count fold_right].
    assert (Hz : dict_count (monos_of 0 0 0 0 0 0 0 0) k = 0).
    { unfold dict_count, monos_of. cbn [dict_get].
      destruct (String.eqb "H" k); [reflexivity|].
      destruct (String.eqb "N" k); [reflexivity|].
      destruct (String.eqb "S" k); [reflexivity|].
      destruct (String.eqb "lS" k); [reflexivity|].
      destruct (String.eqb "eS" k); [reflexivity|].
      destruct (String.eqb "F" k); [reflexivity|].
      destruct (String.eqb "G" k); [reflexivity|].
      destruct (String.eqb "T" k); reflexivity. }
    lia. }
  unfold residue_total, zsum. cbn [fold_right String.eqb Ascii.eqb Bool.eqb].
  rewrite !Hcount.
  unfold sum_atoms, atoms_of. cbn.
  f_equal. apply atoms_of_ext; lia.
Qed.

Lemma glycan_to_atoms_of_sum_witness :
  sum_atoms [atoms_of 62 45 4 102; atoms_of 20 15 1 33]
  = Ret (atoms_of 82 60 5 135).
Proof.
  refine (glycan_to_atoms_of_sum monosaccharides
            [("H", 5); ("N", 4)] [("H", 2); ("N", 1); ("T", 1)]
            (monos_of 7 5 0 0 0 0 0 1)
            (atoms_of 62 45 4 102) (atoms_of 20 15 1 33)
            (atoms_of 82 60 5 135)
            monosaccharides monosaccharides monosaccharides
            _ _ eq_refl eq_refl eq_refl eq_refl);
    repeat constructor; simpl; intuition discriminate.
Defined.

End GlycanFacts.

(** ** [count_seq_letters] *)

Module LetterFacts.

Lemma letter_key_inj a b : letter_key a = letter_key b -> a = b.
Proof.
  unfold letter_key.
  destruct (Ascii.eqb_spec a "L"), (Ascii.eqb_spec b "L");
    destruct (Ascii.eqb_spec a "E"), (Ascii.eqb_spec b "E");
    subst; try congruence; intros H; try discriminate H;
    now injection H.
Qed.

Lemma letter_key_eqb a b :
  String.eqb (letter_key a) (letter_key b) = Ascii.eqb a b.
Proof.
  destruct (Ascii.eqb_spec a b) as [-> | Hne].
  - apply String.eqb_refl.
  - apply String.eqb_neq. intros H. now apply Hne, letter_key_inj.
Qed.

(** One round of the loop on a letter that differs from the current one
    files the count of the letter under its key. *)
Lemma count_seq_round i count (fl : dict Z) :
  (let fl1 := if Ascii.eqb i "L" then dict_set "lS" count fl else fl in
   if Ascii.eqb i "E" then dict_set "eS" count fl1
   else if negb (Ascii.eqb i "L") && negb (Ascii.eqb i "E")
        then dict_set (String i "") count fl1
        else fl1)
  = dict_set (letter_key i) count fl.
Proof.
  unfold letter_key. cbv zeta.
  destruct (Ascii.eqb_spec i "L") as [-> | HL]; [reflexivity|].
  destruct (Ascii.eqb_spec i "E") as [-> | HE]; reflexivity.
Qed.

Lemma count_seq_loop_get whole rest : forall current fl seen,
  (forall c, dict_get (letter_key c) fl
             = if existsb (Ascii.eqb c) seen
               then Some (str_count c whole) else None) ->
  (forall c, current = Some c -> existsb (Ascii.eqb c) seen = true) ->
  forall c,
    dict_get (letter_key c) (count_seq_loop whole current rest fl)
    = if existsb (Ascii.eqb c) seen
         || existsb (Ascii.eqb c) (list_ascii_of_string rest)
      then Some (str_count c whole) else None.
Proof.
  induction rest as [|i rest IH]; intros current fl seen Hfl Hcur c.
  - simpl. rewrite orb_false_r. apply Hfl.
  - cbn [count_seq_loop list_ascii_of_string existsb].
    assert (Hassoc : forall x,
      existsb (Ascii.eqb x) seen
      || (Ascii.eqb x i || existsb (Ascii.eqb x) (list_ascii_of_string rest))
      = existsb (Ascii.eqb x) (i :: seen)
        || existsb (Ascii.eqb x) (list_ascii_of_string rest)).
    { intros x. simpl. destruct (Ascii.eqb x i), (existsb _ seen); reflexivity. }
    rewrite Hassoc.
    destruct (match current with
              | Some c0 => Ascii.eqb i c0
              | None => false
              end) eqn:Esame.
    + destruct current as [c0|]; [|discriminate].
      apply Ascii.eqb_eq in Esame. subst c0.
      apply IH.
      * intros x. rewrite Hfl. simpl.
        destruct (Ascii.eqb_spec x i) as [-> | Hne]; [|reflexivity].
        now rewrite (Hcur i eq_refl).
      * intros x [= <-]. simpl. now rewrite Ascii.eqb_refl.
    + rewrite count_seq_round. apply IH.
      * intros x. simpl.
        destruct (Ascii.eqb_spec x i) as [-> | Hne]; cbn [orb].
        -- now rewrite dict_get_set_same.
        -- rewrite dict_get_set_other; [apply Hfl|].
           intros H. apply Hne. symmetry. now apply letter_key_inj.
      * intros x [= <-]. simpl. now rewrite Ascii.eqb_refl.
Qed.

Lemma str_count_nonneg c s : 0 <= str_count c s.
Proof.
  induction s as [|x s IH]; simpl; [lia|]. destruct (Ascii.eqb x c); lia.
Qed.

Lemma str_count_positive c s :
  existsb (Ascii.eqb c) (list_ascii_of_string s) = (0 <? str_count c s).
Proof.
  induction s as [|x s IH]; [reflexivity|].
  cbn [list_ascii_of_string existsb str_count].
  pose proof (str_count_nonneg c s).
  rewrite IH, (Ascii.eqb_sym c x).
  destruct (Ascii.eqb x c); cbn [orb].
  - symmetry. apply Z.ltb_lt. lia.
  - reflexivity.
Qed.

(** X10. [count_seq_letters] files every letter of the string under its
    key (lS for L, eS for E, the letter itself otherwise) with the number
    of times the letter occurs in the whole string, whether or not its
    occurrences are next to each other; the key of a letter that does not
    occur is absent. *)
Theorem count_seq_letters_counts s c :
  dict_get (letter_key c) (count_seq_letters s)
  = if 0 <? str_count c s then Some (str_count c s) else None.
Proof.
  unfold count_seq_letters. rewrite <- str_count_positive.
  rewrite (count_seq_loop_get s s None [] []); [reflexivity | |].
  - intros x. reflexivity.
  - discriminate.
Qed.

End LetterFacts.

(** ** The tag search: what is returned *)

Module TagSearchMore.

Import TagSearch.
Local Open Scope Q_scope.

Section Search.
Variable calculate_mass : dict Z -> Q.
Variable tag_mass : Q.

Lemma try_combination_spec closest i :
  let r := try_combination calculate_mass tag_mass closest i in
  (r = closest \/ r = tag_candidate calculate_mass i)
  /\ tag_distance tag_mass r <= tag_distance tag_mass closest
  /\ tag_distance tag_mass r <= tag_distance tag_mass (tag_candidate calculate_mass i).
Proof.
  unfold try_combination, tag_distance, tag_candidate. cbv zeta. cbn [snd].
  destruct (Isotopes.Qlt_bool _ _) eqn:E.
  - apply IsotopeFacts.Qlt_bool_true in E. cbn [snd].
    split; [now right|]. split; [now apply Qlt_le_weak | apply Qle_refl].
  - apply IsotopeFacts.Qlt_bool_false in E.
    split; [now left|]. split; [apply Qle_refl | exact E].
Qed.

Lemma fold_try_combination l : forall closest,
  let r := fold_left (try_combination calculate_mass tag_mass) l closest in
  (r = closest \/ exists i, In i l /\ r = tag_candidate calculate_mass i)
  /\ tag_distance tag_mass r <= tag_distance tag_mass closest
  /\ forall i, In i l -> tag_distance tag_mass r <= tag_distance tag_mass (tag_candidate calculate_mass i).
Proof.
  induction l as [|i l IH]; intros closest; cbv zeta.
  - simpl. split; [now left|]. split; [apply Qle_refl | intros i []].
  - cbn [fold_left].
    destruct (try_combination_spec closest i) as (Hc & Hd & Hi).
    destruct (IH (try_combination calculate_mass tag_mass closest i))
      as (Hc' & Hd' & Hi').
    cbv zeta in *. split; [|split].
    + destruct Hc' as [-> | (j & Hj & ->)].
      * destruct Hc as [-> | ->]; [now left|].
        right. exists i. split; [now left | reflexivity].
      * right. exists j. split; [now right | reflexivity].
    + eapply Qle_trans; eassumption.
    + intros j [<- | Hj]; [eapply Qle_trans; eassumption | now apply Hi'].
Qed.

Lemma round_condition n :
  Isotopes.Qlt_bool (inject_Z n / 2) (inject_Z n) = (0 <? n)%Z.
Proof.
  destruct (Isotopes.Qlt_bool _ _) eqn:E; symmetry.
  - apply TagSearchFacts.halving_positive in E. now apply Z.ltb_lt.
  - apply IsotopeFacts.Qlt_bool_false in E. apply Z.ltb_ge.
    unfold Qle in E. simpl in E. lia.
Qed.

Lemma no_round_below_one n :
  (n <= 0)%Z ->
  Isotopes.Qlt_bool (inject_Z n / 2) (inject_Z n) = false.
Proof.
  intros Hn. rewrite round_condition. now apply Z.ltb_ge.
Qed.

Lemma search_loop_spec fuel : forall atoms_number closest r,
  search_loop calculate_mass tag_mass fuel atoms_number closest = Some r ->
  (r = closest
   \/ exists k i,
        (1 <= k <= atoms_number)%Z
        /\ In i (combinations_with_replacement (Z.to_nat k)
                   (list_ascii_of_string "CONH"))
        /\ r = tag_candidate calculate_mass i)
  /\ tag_distance tag_mass r <= tag_distance tag_mass closest
  /\ forall k i,
       (1 <= k <= atoms_number)%Z ->
       In i (combinations_with_replacement (Z.to_nat k)
               (list_ascii_of_string "CONH")) ->
       tag_distance tag_mass r <= tag_distance tag_mass (tag_candidate calculate_mass i).
Proof.
  assert (Hstop : forall n closest,
    (n <= 0)%Z ->
    (closest = closest
     \/ exists k i,
          (1 <= k <= n)%Z
          /\ In i (combinations_with_replacement (Z.to_nat k)
                     (list_ascii_of_string "CONH"))
          /\ closest = tag_candidate calculate_mass i)
    /\ tag_distance tag_mass closest <= tag_distance tag_mass closest
    /\ forall k i,
         (1 <= k <= n)%Z ->
         In i (combinations_with_replacement (Z.to_nat k)
                 (list_ascii_of_string "CONH")) ->
         tag_distance tag_mass closest <= tag_distance tag_mass (tag_candidate calculate_mass i)).
  { intros n closest Hn. split; [now left|].
    split; [apply Qle_refl | intros k i Hk; lia]. }
  induction fuel as [|fuel IH]; intros n closest r; cbn [search_loop];
    rewrite round_condition; destruct (Z.ltb_spec 0 n) as [Hn | Hn];
    try discriminate.
  - intros [= <-]. now apply Hstop.
  - intros H.
    set (l := combinations_with_replacement (Z.to_nat n)
                (list_ascii_of_string "CONH")) in *.
    destruct (fold_try_combination l closest) as (Hc & Hd & Hi).
    cbv zeta in *.
    destruct (IH _ _ _ H) as (Hc' & Hd' & Hi').
    split; [|split].
    + destruct Hc' as [-> | (k & i & Hk & Hin & ->)].
      * destruct Hc as [-> | (i & Hin & ->)]; [now left|].
        right. exists n, i. split; [lia|]. split; [exact Hin | reflexivity].
      * right. exists k, i. split; [lia|]. split; [exact Hin | reflexivity].
    + eapply Qle_trans; eassumption.
    + intros k i Hk Hin. destruct (Z.eq_dec k n) as [-> | Hne].
      * eapply Qle_trans; [exact Hd'|]. now apply Hi.
      * apply (Hi' k i); [lia | exact Hin].
  - intros [= <-]. now apply Hstop.
Qed.


End Search.

Lemma py_int_of_small q : q < 1 -> (py_int_of_Q q <= 0)%Z.
Proof.
  destruct q as [a b]. unfold Qlt, py_int_of_Q. simpl. intros H.
  rewrite Z.mul_1_r in H.
  destruct (Z_lt_ge_dec a 0) as [Hneg | Hpos].
  - pose proof (Z.quot_opp_l (- a) (Zpos b) ltac:(lia)) as Ho.
    rewrite Z.opp_involutive in Ho. rewrite Ho.
    pose proof (Z.quot_pos (- a) (Zpos b) ltac:(lia) ltac:(lia)). lia.
  - rewrite Z.quot_small; lia.
Qed.

(** X12. A tag mass below 5, negative ones included, leaves no round to
    the search: the empty composition with mass 0 is returned. *)
Theorem calculate_comp_from_mass_small calculate_mass tag_mass :
  tag_mass < 5 ->
  calculate_comp_from_mass calculate_mass tag_mass = Some ([], 0).
Proof.
  intros H. unfold calculate_comp_from_mass.
  assert (Hn : (py_int_of_Q (tag_mass / 5) <= 0)%Z).
  { apply py_int_of_small. apply Qlt_shift_div_r; [reflexivity | lra]. }
  destruct (Z.to_nat _); cbn [search_loop];
    now rewrite (no_round_below_one _ Hn).
Qed.

Lemma calculate_comp_from_mass_small_witness :
  calculate_comp_from_mass (fun _ => 12) (-(7 # 2)) = Some ([], 0).
Proof.
  apply (calculate_comp_from_mass_small (fun _ => 12) (-(7 # 2))).
  reflexivity.
Defined.

End TagSearchMore.

(** ** Adduct combinations: what is returned *)

Module AdductMore.

Lemma collect_to_remove_listed adducts exclusions l : forall to_remove,
  collect_to_remove adducts exclusions l = Ret to_remove ->
  forall y, In y to_remove ->
    In y l
    /\ (exceeds_maximum adducts y (dict_keys y) = Ret true
        \/ excluded exclusions y = true).
Proof.
  induction l as [|i l IH]; intros tr; simpl.
  - intros [= <-] y [].
  - destruct (exceeds_maximum adducts i (dict_keys i)) as [over|e] eqn:Eo;
      [|discriminate].
    destruct (collect_to_remove adducts exclusions l) as [tr'|e];
      [|discriminate].
    cbn [bind]. intros [= <-] y Hy.
    rewrite !in_app_iff in Hy. destruct Hy as [Hy | [Hy | Hy]].
    + destruct over; [|contradiction]. destruct Hy as [<- | []].
      split; [now left | now left].
    + destruct (excluded exclusions i) eqn:Ex; [|contradiction].
      destruct Hy as [<- | []]. split; [now left | now right].
    + destruct (IH _ eq_refl y Hy) as [H1 H2]. split; [now right | exact H2].
Qed.

Lemma excluded_respects exclusions y c :
  dict_eqb y c = true -> excluded exclusions y = excluded exclusions c.
Proof.
  intros Hyc. unfold excluded. rewrite dict_eqb_spec in Hyc.
  apply eq_true_iff_eq. rewrite !existsb_exists.
  split; intros (e & He & Hec); exists e; (split; [assumption|]);
    rewrite dict_eqb_spec in *; intros k; rewrite Hec;
    [apply Hyc | symmetry; apply Hyc].
Qed.

Lemma occurrences_zero z l :
  (forall y, In y l -> dict_eqb y z = false) -> occurrences z l = 0%nat.
Proof.
  intros H. unfold occurrences.
  induction l as [|y l IH]; [reflexivity|]. simpl.
  rewrite (H y (or_introl eq_refl)). apply IH.
  intros y' Hy'. apply H. now right.
Qed.

Lemma occurrences_positive z l :
  (1 <= occurrences z l)%nat -> exists y, In y l /\ dict_eqb y z = true.
Proof.
  unfold occurrences. intros H.
  destruct (filter (fun y => dict_eqb y z) l) as [|y f] eqn:E;
    [simpl in H; lia|].
  assert (Hin : In y (filter (fun y => dict_eqb y z) l))
    by (rewrite E; now left).
  apply filter_In in Hin. now exists y.
Qed.

Lemma occurrences_of_member z l : In z l -> (1 <= occurrences z l)%nat.
Proof.
  intros Hin. unfold occurrences. apply in_split in Hin as (l1 & l2 & ->).
  rewrite filter_app, length_app. simpl. rewrite dict_eqb_refl. simpl. lia.
Qed.

(** X13. No combination that [gen_adducts_combo] returns is equal to one
    of the exclusions. *)
Theorem gen_adducts_combo_excludes adducts exclusions max_charge res :
  gen_adducts_combo adducts exclusions max_charge = Ret res ->
  forall c, In c res -> excluded exclusions c = false.
Proof.
  intros H c Hc.
  now destruct (gen_adducts_combo_survivor _ _ _ _ _ H Hc) as (_ & _ & He).
Qed.

Lemma gen_adducts_combo_excludes_witness :
  gen_adducts_combo [("H", 3); ("Na", 1)] [[("Na", 1); ("H", 1)]] 2
  = Ret [[("H", 1)]; [("Na", 1)]; [("H", 2)]]
  /\ forall c, In c [[("H", 1)]; [("Na", 1)]; [("H", 2)]] ->
       excluded [[("Na", 1); ("H", 1)]] c = false.
Proof.
  split; [reflexivity|].
  exact (gen_adducts_combo_excludes [("H", 3); ("Na", 1)]
           [[("Na", 1); ("H", 1)]] 2 _ eq_refl).
Defined.

(** X14. Nothing else is dropped: every combination of between 1 and
    [|max_charge|] adduct symbols whose counts are within the maxima and
    which is not excluded is, up to the order of its keys, in the list
    that [gen_adducts_combo] returns. *)
Theorem gen_adducts_combo_complete adducts exclusions max_charge res k t :
  gen_adducts_combo adducts exclusions max_charge = Ret res ->
  (1 <= k <= Z.to_nat (Z.abs max_charge))%nat ->
  In t (combinations_with_replacement k (dict_keys adducts)) ->
  within_maxima adducts (combo_to_dict max_charge t) ->
  excluded exclusions (combo_to_dict max_charge t) = false ->
  exists c, In c res /\ dict_eqb c (combo_to_dict max_charge t) = true.
Proof.
  unfold gen_adducts_combo. set (L := map _ _).
  destruct (collect_to_remove adducts exclusions L) as [tr|e] eqn:Ec;
    [|discriminate].
  cbn [bind]. intros Hr Hk Ht Hw Hx.
  set (c := combo_to_dict max_charge t) in *.
  assert (HcL : In c L).
  { unfold L. apply in_map. apply in_flat_map. exists k. split; [|exact Ht].
    apply in_seq. lia. }
  pose proof (remove_all_occurrences _ _ _ Hr c) as Hocc.
  assert (Hzero : occurrences c tr = 0%nat).
  { apply occurrences_zero. intros y Hy.
    destruct (collect_to_remove_listed _ _ _ _ Ec y Hy) as [_ Hbad].
    destruct (dict_eqb y c) eqn:Eyc; [|reflexivity]. exfalso.
    destruct Hbad as [Hover | Hexcl].
    - apply exceeds_maximum_true in Hover as (j & n & m & Hn & Hm & Hlt).
      rewrite dict_eqb_spec in Eyc. rewrite Eyc in Hn.
      destruct (Hw _ _ Hn) as (m' & Hm' & Hle).
      assert (m' = m) by congruence. subst. lia.
    - rewrite (excluded_respects _ _ _ Eyc) in Hexcl. congruence. }
  pose proof (occurrences_of_member c L HcL).
  apply occurrences_positive. lia.
Qed.

Lemma within_maxima_example :
  within_maxima [("H", 3); ("Na", 1)] [("H", 1); ("Na", 1)].
Proof.
  intros k n. cbn [dict_get].
  destruct (String.eqb "H" k) eqn:EH.
  - intros [= <-]. exists 3. split; [reflexivity | lia].
  - destruct (String.eqb "Na" k) eqn:EN; [|discriminate].
    intros [= <-]. exists 1. split; [reflexivity | lia].
Defined.

Lemma gen_adducts_combo_complete_witness :
  exists c,
    In c [[("H", 1)]; [("Na", 1)]; [("H", 2)]; [("H", 1); ("Na", 1)];
          [("H", 3)]; [("H", 2); ("Na", 1)]]
    /\ dict_eqb c (combo_to_dict 3 ["H"; "Na"]) = true.
Proof.
  refine (gen_adducts_combo_complete [("H", 3); ("Na", 1)] [] 3 _
            2%nat ["H"; "Na"] eq_refl _ _ within_maxima_example eq_refl).
  - simpl. lia.
  - simpl. tauto.
Defined.

(** X15. [gen_adducts_combo] returns, without raising, whenever every
    excluded combination is itself within the maxima. *)
Theorem gen_adducts_combo_no_error adducts exclusions max_charge :
  Forall (within_maxima adducts) exclusions ->
  exists res, gen_adducts_combo adducts exclusions max_charge = Ret res.
Proof.
  apply gen_adducts_combo_returns.
Qed.

Lemma gen_adducts_combo_no_error_witness :
  exists res,
    gen_adducts_combo [("H", 3); ("Na", 1)] [[("H", 1); ("Na", 1)]] (-2)
    = Ret res.
Proof.
  apply (gen_adducts_combo_no_error [("H", 3); ("Na", 1)]
           [[("H", 1); ("Na", 1)]] (-2)).
  apply Forall_cons; [exact within_maxima_example | apply Forall_nil].
Defined.

Lemma dict_get_of_In (d : dict Z) : forall k v,
  NoDup (dict_keys d) -> In (k, v) d -> dict_get k d = Some v.
Proof.
  induction d as [|[k' v'] d IH]; intros k v Hnd Hin; [destruct Hin|].
  simpl in Hnd. inversion Hnd as [|? ? Hnot Hnd']; subst.
  cbn [dict_get]. destruct Hin as [[= -> ->] | Hin].
  - now rewrite String.eqb_refl.
  - destruct (String.eqb_spec k' k) as [-> | Hne].
    + exfalso. apply Hnot. unfold dict_keys.
      change k with (fst (k, v)). now apply in_map.
    + now apply IH.
Qed.

Lemma combo_fold_shape max_charge t : forall d,
  same_sign max_charge d -> NoDup (dict_keys d) ->
  same_sign max_charge (fold_left (count_adduct max_charge) t d)
  /\ NoDup (dict_keys (fold_left (count_adduct max_charge) t d)).
Proof.
  induction t as [|j t IH]; intros d Hs Hnd; [now split|].
  cbn [fold_left].
  destruct (count_adduct_spec max_charge d j Hs) as [Hs' _].
  apply IH; [exact Hs'|].
  assert (Hset : forall v, NoDup (dict_keys (dict_set j v d))).
  { intros v. destruct (dict_keys_set j v d) as [E | [Hnot E]]; rewrite E.
    - exact Hnd.
    - apply NoDup_app; [exact Hnd | repeat constructor; intros [] |].
      intros x Hx [<- | []]. now apply Hnot. }
  unfold count_adduct. destruct (dict_get j d), (0 <? max_charge); apply Hset.
Qed.

Lemma gen_adducts_combo_member adducts exclusions max_charge res c :
  gen_adducts_combo adducts exclusions max_charge = Ret res ->
  In c res ->
  exists k t,
    (1 <= k <= Z.to_nat (Z.abs max_charge))%nat
    /\ In t (combinations_with_replacement k (dict_keys adducts))
    /\ c = combo_to_dict max_charge t.
Proof.
  unfold gen_adducts_combo. set (L := map _ _).
  destruct (collect_to_remove adducts exclusions L) as [tr|e];
    [|discriminate].
  cbn [bind]. intros Hr Hc.
  assert (HcL : In c L) by (eapply remove_all_incl; eassumption).
  subst L. apply in_map_iff in HcL as (t & <- & Ht).
  apply in_flat_map in Ht as (k & Hk & Ht). apply in_seq in Hk.
  exists k, t. split; [lia | now split].
Qed.

Lemma gen_adducts_combo_shape adducts exclusions max_charge res c :
  gen_adducts_combo adducts exclusions max_charge = Ret res ->
  In c res ->
  NoDup (dict_keys c)
  /\ incl (dict_keys c) (dict_keys adducts)
  /\ forall k n, In (k, n) c -> 0 < unit_charge max_charge * n.
Proof.
  intros H Hc.
  destruct (gen_adducts_combo_member _ _ _ _ _ H Hc) as (r & t & _ & Ht & ->).
  destruct (combo_fold_shape max_charge t [])
    as [Hs Hnd]; [intros k n; discriminate | constructor |].
  fold (combo_to_dict max_charge t) in Hs, Hnd.
  split; [exact Hnd|]. split.
  - intros x Hx. apply (combo_fold_keys max_charge t []) in Hx.
    simpl in Hx. exact (combinations_incl _ _ _ Ht _ Hx).
  - intros k n Hin. apply (Hs k). now apply dict_get_of_In.
Qed.

(** X16. Every combination that [gen_adducts_combo] returns lists each
    adduct symbol at most once, lists only symbols of [adducts], and all
    its counts have the sign of [max_charge]. *)
Theorem gen_adducts_combo_signs adducts exclusions max_charge res c :
  gen_adducts_combo adducts exclusions max_charge = Ret res ->
  In c res ->
  NoDup (dict_keys c)
  /\ (forall k n, In (k, n) c ->
        In k (dict_keys adducts)
        /\ (0 < max_charge -> 0 < n) /\ (max_charge <= 0 -> n < 0)).
Proof.
  intros H Hc.
  destruct (gen_adducts_combo_shape _ _ _ _ _ H Hc) as (Hnd & Hk & Hs).
  split; [exact Hnd|]. intros k n Hin. split.
  - apply Hk. unfold dict_keys. change k with (fst (k, n)). now apply in_map.
  - specialize (Hs _ _ Hin). unfold unit_charge in Hs.
    destruct (Z.ltb_spec 0 max_charge); lia.
Qed.

Lemma gen_adducts_combo_signs_witness :
  NoDup (dict_keys [("H", -1); ("Cl", -1)])
  /\ (forall k n, In (k, n) [("H", -1); ("Cl", -1)] ->
        In k (dict_keys [("H", 2); ("Cl", 1)])
        /\ (0 < -2 -> 0 < n) /\ (-2 <= 0 -> n < 0)).
Proof.
  refine (gen_adducts_combo_signs [("H", 2); ("Cl", 1)] [] (-2)
            [[("H", -1)]; [("Cl", -1)]; [("H", -2)]; [("H", -1); ("Cl", -1)]]
            _ eq_refl _).
  simpl. tauto.
Defined.

Lemma same_sign_total max_charge (c : dict Z) :
  (forall k n, In (k, n) c -> 0 < unit_charge max_charge * n) ->
  dict_total c = unit_charge max_charge * total_abs c.
Proof.
  unfold dict_total, total_abs, unit_charge.
  induction c as [|[k n] c IH]; intros H; simpl; [lia|].
  rewrite IH by (intros k' n' Hin; apply (H k'); now right).
  specialize (H k n (or_introl eq_refl)).
  destruct (0 <? max_charge); lia.
Qed.

Lemma same_sign_coherent max_charge (c : dict Z) :
  (forall k n, In (k, n) c -> 0 < unit_charge max_charge * n) ->
  forallb plain_symbol (dict_keys c) = true ->
  forall negative,
    ((0 <? max_charge) = true /\ negative = false)
    \/ (0 <? max_charge) = false ->
    sign_coherent_from negative c = true.
Proof.
  unfold unit_charge.
  induction c as [|[k n] c IH]; intros H Hp negative Hcase; [reflexivity|].
  simpl in Hp. apply andb_true_iff in Hp as [Hk Hp].
  pose proof (H k n (or_introl eq_refl)) as Hn.
  assert (H' : forall k' n', In (k', n') c ->
                 0 < (if 0 <? max_charge then 1 else -1) * n')
    by (intros k' n' Hin; apply (H k'); now right).
  cbn [sign_coherent_from].
  destruct (0 <? max_charge) eqn:Em.
  - destruct Hcase as [(_ & ->) | Hf]; [|discriminate].
    destruct (Z.eqb_spec n 0); [lia|]. destruct (Z.ltb_spec n 0); [lia|].
    unfold plain_symbol in Hk. apply andb_true_iff in Hk as [_ Hk].
    rewrite Hk. cbn [negb andb]. apply IH; auto.
  - destruct (Z.eqb_spec n 0); [lia|]. destruct (Z.ltb_spec n 0); [|lia].
    apply IH; auto.
Qed.

Lemma total_abs_bounds_count (c : dict Z) k n :
  In (k, n) c -> Z.abs n <= total_abs c.
Proof.
  unfold total_abs.
  induction c as [|[k' n'] c IH]; intros Hin; [destruct Hin|].
  cbn [fold_right snd].
  assert (Hnn : 0 <= fold_right (fun kn a => Z.abs (snd kn) + a) 0 c).
  { clear. induction c as [|[k0 n0] c IH]; cbn [fold_right snd]; lia. }
  destruct Hin as [[= -> ->] | Hin]; [lia|].
  specialize (IH Hin). lia.
Qed.

(** X17. When the adduct symbols are plain (not empty, without digits,
    not ending in a minus sign) and [max_charge] is below
    [10 ^ int_max_str_digits] in absolute value, every combination that
    [gen_adducts_combo] returns survives the trip through its formula:
    [comp_to_formula] writes it, [form_to_comp] reads the formula back
    as the combination was, and [form_to_charge] of that formula is its
    number of adducts with the sign of [max_charge]. *)
Theorem gen_adducts_combo_formula adducts exclusions max_charge res c :
  forallb plain_symbol (dict_keys adducts) = true ->
  within_digit_limit max_charge ->
  gen_adducts_combo adducts exclusions max_charge = Ret res ->
  In c res ->
  exists formula,
    comp_to_formula c = Ret formula
    /\ form_to_comp formula = Ret c
    /\ form_to_charge formula = Ret (unit_charge max_charge * total_abs c)
    /\ 1 <= total_abs c <= Z.abs max_charge.
Proof.
  intros Hp Hmax H Hc.
  destruct (gen_adducts_combo_shape _ _ _ _ _ H Hc) as (Hnd & Hk & Hs).
  destruct (gen_adducts_combo_survivor _ _ _ _ _ H Hc) as (_ & Hbound & _).
  assert (Hpc : forallb plain_symbol (dict_keys c) = true).
  { rewrite forallb_forall in *. intros k Hin. apply Hp, Hk, Hin. }
  assert (Hnz : nonzero c = c).
  { unfold nonzero. apply forallb_filter_id. apply forallb_forall.
    intros [k n] Hin. specialize (Hs _ _ Hin). simpl.
    destruct (Z.eqb_spec n 0); [subst; lia | reflexivity]. }
  assert (Hl : counts_within_limit c).
  { unfold counts_within_limit. apply Forall_forall. intros [k n] Hin.
    pose proof (total_abs_bounds_count _ _ _ Hin).
    unfold within_digit_limit in *. cbn [snd]. lia. }
  exists (formula_of c).
  assert (Hwrite : comp_to_formula c = Ret (formula_of c))
    by (rewrite (comp_to_formula_nonzero _ Hl); now rewrite Hnz).
  assert (Hback : form_to_comp (formula_of c) = Ret c).
  { apply form_to_comp_formula.
    - rewrite <- Hnz. apply nonzero_no_zero.
    - now apply clean_keys_of_plain.
    - exact Hnd.
    - unfold sign_coherent. apply (same_sign_coherent max_charge); auto.
      destruct (0 <? max_charge); [left; now split | now right].
    - exact Hl. }
  split; [exact Hwrite|]. split; [exact Hback|]. split; [|exact Hbound].
  rewrite (form_to_charge_of_comp _ _ Hback).
  now rewrite (same_sign_total max_charge).
Qed.

Lemma three_within_limit : within_digit_limit 3.
Proof. vm_compute. reflexivity. Defined.

Lemma gen_adducts_combo_formula_witness :
  exists formula,
    comp_to_formula [("H", 2); ("Na", 1)] = Ret formula
    /\ form_to_comp formula = Ret [("H", 2); ("Na", 1)]
    /\ form_to_charge formula
       = Ret (unit_charge 3 * total_abs [("H", 2); ("Na", 1)])
    /\ 1 <= total_abs [("H", 2); ("Na", 1)] <= Z.abs 3.
Proof.
  refine (gen_adducts_combo_formula [("H", 3); ("Na", 1)] [] 3
            [[("H", 1)]; [("Na", 1)]; [("H", 2)]; [("H", 1); ("Na", 1)];
             [("H", 3)]; [("H", 2); ("Na", 1)]]
            [("H", 2); ("Na", 1)] eq_refl three_within_limit eq_refl _).
  simpl. tauto.
Defined.

Lemma list_remove_raises x l e :
  list_remove x l = Raise e -> e = ValueError.
Proof.
  induction l as [|y l IH]; simpl; [now intros [= <-]|].
  destruct (dict_eqb y x); [discriminate|].
  destruct (list_remove x l) as [l'|e']; [discriminate|].
  cbn [bind]. intros [= <-]. now apply IH.
Qed.

Lemma remove_all_raises to_remove : forall l e,
  remove_all to_remove l = Raise e -> e = ValueError.
Proof.
  induction to_remove as [|i tr IH]; intros l e; simpl; [discriminate|].
  destruct (list_remove i l) as [l'|e'] eqn:El; cbn [bind].
  - apply IH.
  - intros [= <-]. eapply list_remove_raises. exact El.
Qed.

(** X20. [gen_adducts_combo] raises nothing but the ValueError of
    [list.remove], and raises it only when one of the combinations it
    generated is both over a maximum and among the exclusions. *)
Theorem gen_adducts_combo_error adducts exclusions max_charge e :
  gen_adducts_combo adducts exclusions max_charge = Raise e ->
  e = ValueError
  /\ exists k t,
       (1 <= k <= Z.to_nat (Z.abs max_charge))%nat
       /\ In t (combinations_with_replacement k (dict_keys adducts))
       /\ excluded exclusions (combo_to_dict max_charge t) = true
       /\ exists j n m,
            dict_get j (combo_to_dict max_charge t) = Some n
            /\ dict_get j adducts = Some m
            /\ Z.abs m < Z.abs n.
Proof.
  unfold gen_adducts_combo. set (L := map _ _).
  assert (Hkeys : forall i, In i L -> incl (dict_keys i) (dict_keys adducts)).
  { intros i Hi. subst L. apply in_map_iff in Hi as (t & <- & Ht).
    apply in_flat_map in Ht as (r & _ & Ht).
    apply combinations_incl in Ht. intros x Hx.
    apply combo_fold_keys in Hx. simpl in Hx. now apply Ht. }
  destruct (collect_to_remove_returns adducts exclusions L Hkeys) as [tr Etr].
  rewrite Etr. cbn [bind]. intros Hraise.
  split; [eapply remove_all_raises; exact Hraise|].
  set (twice := fun i =>
         match exceeds_maximum adducts i (dict_keys i) with
         | Ret true => excluded exclusions i
         | _ => false
         end).
  destruct (existsb twice L) eqn:Ex.
  - apply existsb_exists in Ex as (i & Hi & Htw). unfold twice in Htw.
    destruct (exceeds_maximum adducts i (dict_keys i)) as [[|]|] eqn:Eo;
      try discriminate.
    subst L. apply in_map_iff in Hi as (t & <- & Ht).
    apply in_flat_map in Ht as (k & Hk & Ht). apply in_seq in Hk.
    exists k, t. split; [lia|]. split; [exact Ht|]. split; [exact Htw|].
    now apply exceeds_maximum_true in Eo.
  - exfalso.
    destruct (remove_all_returns tr L) as [res Hres]; [|congruence].
    apply (collect_to_remove_once _ _ _ _ Etr).
    intros i Hi Hover.
    assert (Hno : twice i = false).
    { destruct (twice i) eqn:Et; [|reflexivity].
      assert (existsb twice L = true)
        by (apply existsb_exists; now exists i).
      congruence. }
    unfold twice in Hno. now rewrite Hover in Hno.
Qed.

Lemma gen_adducts_combo_error_witness :
  gen_adducts_combo [("H", 1)] [[("H", 2)]] 2 = Raise ValueError
  /\ ValueError = ValueError.
Proof.
  split; [reflexivity|].
  exact (proj1 (gen_adducts_combo_error [("H", 1)] [[("H", 2)]] 2 _ eq_refl)).
Defined.

End AdductMore.

(** ** The isotopic pattern without clumping, and its only error *)

Module IsotopeMore.

Import IsotopeFacts.
Local Open Scope Q_scope.

Lemma insert_by_mz_perm p l : Permutation (insert_by_mz p l) (p :: l).
Proof.
  induction l as [|q l IH]; simpl; [apply Permutation_refl|].
  destruct (Qle_bool (mz p) (mz q)); [apply Permutation_refl|].
  apply perm_trans with (q :: p :: l); [now apply perm_skip | apply perm_swap].
Qed.

Lemma sorted_by_mz_perm l : Permutation (sorted_by_mz l) l.
Proof.
  induction l as [|p l IH]; simpl; [apply perm_nil|].
  apply perm_trans with (p :: sorted_by_mz l);
    [apply insert_by_mz_perm | now apply perm_skip].
Qed.

Lemma ascending_head_least a l :
  ascending (a :: l) -> forall x, In x l -> a <= x.
Proof.
  revert a. induction l as [|b l IH]; intros a [Hab Hl] x Hx; [destruct Hx|].
  destruct Hx as [<- | Hx]; [exact Hab|].
  apply Qle_trans with b; [exact Hab | now apply IH].
Qed.

Lemma relative_lists_head first_Ab i rest p m :
  relative_lists first_Ab (i :: rest) = Ret (p, m) ->
  ~ first_Ab == 0 /\ exists p', p = Ab i / first_Ab :: p'.
Proof.
  simpl. destruct (Qeq_bool first_Ab 0) eqn:E; [discriminate|].
  destruct (relative_lists first_Ab rest) as [[p' m']|e]; [|discriminate].
  cbn [bind fst snd]. intros [= <- <-]. split.
  - intros H. apply Qeq_bool_iff in H. congruence.
  - now exists p'.
Qed.

Lemma relative_lists_raises first_Ab l e :
  relative_lists first_Ab l = Raise e ->
  e = ZeroDivisionError /\ first_Ab == 0 /\ l <> [].
Proof.
  induction l as [|i l IH]; simpl; [discriminate|].
  destruct (Qeq_bool first_Ab 0) eqn:E.
  - intros [= <-]. split; [reflexivity|]. split; [|discriminate].
    now apply Qeq_bool_iff.
  - destruct (relative_lists first_Ab l) as [r|e'] eqn:Er.
    + discriminate.
    + cbn [bind]. intros [= <-]. destruct (IH eq_refl) as (He & H0 & _).
      split; [exact He|]. split; [exact H0 | discriminate].
Qed.

Section PatternMore.
Variable isotopic_state : Type.
Variable isotopologues :
  dict Z -> list string -> Q -> list (isotopic_state * Q) * option exn.
Variable calculate_mass : isotopic_state -> pyres Q.
Variable h_mass : Q.

(** X18. With [fast] or [high_res] set, [calculate_isotopic_pattern]
    does not clump: when it returns, the iteration of the isotopologues
    ended normally and [mass.calculate_mass] returned on every state;
    the masses returned are the masses of all the isotopic states in
    ascending order, there is one abundance per mass, and the first
    abundance is 1. *)
Theorem calculate_isotopic_pattern_resolved glycan_atoms fast high_res
  pattern masses :
  fast || high_res = true ->
  calculate_isotopic_pattern isotopic_state isotopologues calculate_mass
    h_mass glycan_atoms fast high_res = Ret (pattern, masses) ->
  ascending masses
  /\ (exists masses0,
        state_masses isotopic_state calculate_mass
          (if fast
           then isotopologues glycan_atoms ["C"%string] (1 # 10000)
           else isotopologues glycan_atoms
                  ["C"%string; "N"%string; "O"%string; "H"%string]
                  (1 # 10000))
          masses0
        /\ Permutation masses masses0)
  /\ List.length pattern = List.length masses
  /\ match pattern with
     | [] => True
     | first :: _ => first == 1
     end.
Proof.
  intros Hmode. unfold calculate_isotopic_pattern. cbv zeta.
  set (states := if fast then _ else _).
  destruct (arrange _ _ _ _) as [peaks|e] eqn:Ea; [|discriminate].
  cbn [bind].
  set (arranged := sorted_by_mz _).
  destruct (relative_lists _ arranged) as [[p0 m0]|e] eqn:Er; [|discriminate].
  cbn [bind].
  assert (Hn : negb high_res && negb fast = false)
    by (destruct fast, high_res; simpl in *; congruence).
  rewrite Hn. intros [= <- <-].
  destruct (relative_lists_spec _ _ _ _ Er) as [Hm Hl].
  destruct (arrange_returns _ _ _ _ _ Ea) as [Hnone Hf].
  split; [rewrite Hm; apply sorted_by_mz_ascending|].
  split.
  { exists (map mz peaks). split.
    - split; [exact Hnone|].
      clear - Hf. induction Hf as [|i q ys ps [Hq _] _ IH]; constructor;
        assumption.
    - rewrite Hm. unfold arranged.
      apply Permutation_map, sorted_by_mz_perm. }
  split; [exact Hl|].
  destruct arranged as [|i rest]; [simpl in Er; injection Er as <- _; exact I|].
  destruct (relative_lists_head _ _ _ _ _ Er) as [Hnz [p' ->]].
  now field.
Qed.

(** X19. When [calculate_isotopic_pattern] raises, either the exception
    is one of pyteomics, raised by the iteration of the isotopologues or
    by [mass.calculate_mass] on a state, or it is the ZeroDivisionError
    of the division by the first abundance, and then a state of least
    mass has abundance 0. *)
Theorem calculate_isotopic_pattern_error glycan_atoms fast high_res e :
  calculate_isotopic_pattern isotopic_state isotopologues calculate_mass
    h_mass glycan_atoms fast high_res = Raise e ->
  raised_by_pyteomics isotopic_state calculate_mass
    (if fast
     then isotopologues glycan_atoms ["C"%string] (1 # 10000)
     else isotopologues glycan_atoms
            ["C"%string; "N"%string; "O"%string; "H"%string] (1 # 10000))
    e
  \/ (e = ZeroDivisionError
      /\ lightest_state_absent isotopic_state calculate_mass
           (if fast
            then isotopologues glycan_atoms ["C"%string] (1 # 10000)
            else isotopologues glycan_atoms
                   ["C"%string; "N"%string; "O"%string; "H"%string]
                   (1 # 10000))).
Proof.
  unfold calculate_isotopic_pattern. cbv zeta.
  set (states := if fast then _ else _).
  destruct (arrange _ _ _ _) as [peaks|e'] eqn:Ea; cbn [bind].
  2:{ intros [= <-]. left. unfold raised_by_pyteomics.
      destruct (arrange_raises _ _ _ _ _ Ea) as [H | ([st ab] & Hi & Hm)];
        [now left | right; now exists st, ab]. }
  destruct (arrange_returns _ _ _ _ _ Ea) as [_ Hf].
  pose proof (sorted_by_mz_ascending peaks) as Hasc.
  pose proof (sorted_by_mz_perm peaks) as Hperm.
  destruct (sorted_by_mz peaks) as [|p rest] eqn:Es.
  { simpl. destruct (negb high_res && negb fast); discriminate. }
  destruct (relative_lists (Ab p) (p :: rest)) as [[p0 m0]|e'] eqn:Er.
  { cbn [bind]. destruct (negb high_res && negb fast); discriminate. }
  cbn [bind]. intros [= <-]. right.
  destruct (relative_lists_raises _ _ _ Er) as (He & H0 & _).
  split; [exact He|].
  assert (Hp : In p peaks)
    by (eapply Permutation_in; [exact Hperm | now left]).
  destruct (Forall2_In_r _ _ _ Hf _ Hp) as ([st ab] & Hi & Hm & Hab).
  cbn [fst snd] in Hm, Hab.
  exists st, ab, (mz p). split; [exact Hi|]. split; [exact Hm|].
  split; [now rewrite <- Hab|].
  intros st' ab' m' Hi' Hm'.
  destruct (Forall2_In_l _ _ _ Hf _ Hi') as (q & Hq & Hmq & _).
  cbn [fst] in Hmq. rewrite Hm' in Hmq. injection Hmq as ->.
  assert (Hq' : In q (p :: rest))
    by (eapply Permutation_in; [apply Permutation_sym, Hperm | exact Hq]).
  destruct Hq' as [<- | Hq']; [apply Qle_refl|].
  apply (ascending_head_least (mz p) (map mz rest)); [exact Hasc|].
  now apply in_map.
Qed.

End PatternMore.

Lemma calculate_isotopic_pattern_resolved_witness :
  calculate_isotopic_pattern Q four_states (fun m => Ret m) 1 [] false true
  = Ret ([4 # 4; 4 # 8; 4 # 8; 4 # 2], [1; 21 # 20; 3; 10])
  /\ ascending [1; 21 # 20; 3; 10].
Proof.
  split; [reflexivity|].
  exact (proj1 (calculate_isotopic_pattern_resolved Q four_states
                  (fun m => Ret m) 1 [] false true _ _ eq_refl eq_refl)).
Defined.

Lemma calculate_isotopic_pattern_error_witness :
  calculate_isotopic_pattern Q two_states (fun m => Ret m) 1 [] false false
  = Raise ZeroDivisionError
  /\ (raised_by_pyteomics Q (fun m => Ret m)
        (two_states [] ["C"%string; "N"%string; "O"%string; "H"%string]
           (1 # 10000)) ZeroDivisionError
      \/ (ZeroDivisionError = ZeroDivisionError
          /\ lightest_state_absent Q (fun m => Ret m)
               (two_states []
                  ["C"%string; "N"%string; "O"%string; "H"%string]
                  (1 # 10000)))).
Proof.
  split; [reflexivity|].
  exact (calculate_isotopic_pattern_error Q two_states
           (fun m => Ret m) 1 [] false false _ eq_refl).
Defined.

End IsotopeMore.

(** ** The regression and the noise level: outcomes *)

Module StatisticsMore.

Import Floats.PrimFloat.
Import SpectralStatistics StatisticsFacts.
Local Open Scope float_scope.


Lemma rev_last_head (l : list float) :
  l <> [] -> exists l', rev l = last l 0 :: l'.
Proof.
  intros Hne. destruct (rev l) as [|a l'] eqn:E.
  - apply (f_equal (@rev float)) in E. rewrite rev_involutive in E.
    simpl in E. contradiction.
  - apply (f_equal (@rev float)) in E. rewrite rev_involutive in E.
    simpl in E. subst l. rewrite last_last. now exists l'.
Qed.

(** X23. On a spectrum with fewer than four intensities the mode
    "segments" of [rt_noise_level_parameters_set] takes the first quarter
    to be empty and the last quarter to be the whole spectrum: it returns
    1.0 for the first quarter and, for the last, the noise that the mode
    "whole" returns, with the last mz; when the list of mz values is
    empty, reading the last mz raises IndexError. *)
Theorem rt_noise_level_short_spectrum mzs ints :
  (List.length ints < 4)%nat ->
  exists noise,
    rt_noise_level_parameters_set (mzs, ints) "whole" = Ret (Whole noise)
    /\ rt_noise_level_parameters_set (mzs, ints) "segments"
       = match mzs with
         | [] => Raise IndexError
         | _ :: _ => Ret (Segments 1 noise (last mzs 0))
         end.
Proof.
  intros Hlen. exists (segment_noise (fsorted ints)).
  split; [reflexivity|].
  unfold rt_noise_level_parameters_set.
  cbn [String.eqb Ascii.eqb Bool.eqb].
  rewrite (Nat.div_small (List.length ints) 4 Hlen).
  cbn [Nat.mul firstn skipn fsorted map segment_noise].
  destruct mzs as [|mz0 mzs]; [reflexivity|].
  destruct (rev_last_head (mz0 :: mzs)) as [l' ->]; [discriminate|].
  reflexivity.
Qed.

Lemma rt_noise_level_short_spectrum_witness :
  exists noise,
    rt_noise_level_parameters_set ([100; 200; 300], [3; 5; 4]) "whole"
    = Ret (Whole noise)
    /\ rt_noise_level_parameters_set ([100; 200; 300], [3; 5; 4]) "segments"
       = Ret (Segments 1 noise (last [100; 200; 300] 0)).
Proof.
  apply (rt_noise_level_short_spectrum [100; 200; 300] [3; 5; 4]).
  simpl. lia.
Defined.

End StatisticsMore.
